(** * HeapArray: a shallow embedding of [mmheap.h] and [heaparray.h]

    The min-max heap primitives of [mmheap.h] and the partitioned container
    of [heaparray.h] are embedded as executable functions in a small
    state-and-exception monad over the backing buffer.  [heaparray.h] calls
    the primitives through the names of the [mmheap] namespace
    ([heap_insert_circular], [heap_max], [heap_remove_min], ...); they are
    the functions [mm_heap_ripple_add], [mm_heap_max], [mm_heap_remove_min],
    ... of [mmheap.h], as the untemplated revision of the container spells
    them. *)

From Stdlib Require Import ZArith List Lia Bool Permutation Setoid.
Import ListNotations.
Local Open Scope Z_scope.

(** ** Machine integers

    [size_t] is a 64-bit unsigned integer: every arithmetic result is
    reduced modulo 2^64.  [int] is a 32-bit signed integer; element values
    are [int]s that are only compared and copied, never computed with. *)

Definition wrap (x : Z) : Z := x mod 2 ^ 64.

Definition to_int (x : Z) : Z := (x + 2 ^ 31) mod 2 ^ 32 - 2 ^ 31.

Definition SIZE_MAX : Z := 2 ^ 64 - 1.

(** ** Outcomes and the state monad

    A call returns normally, throws a C++ exception, fails an [assert],
    touches memory outside the allocation (undefined behaviour, [Fault]) or
    exhausts the iteration budget of the model ([Diverge]).  State changes
    made before an exception is thrown persist, as in C++. *)

Inductive exn : Type :=
| runtime_error
| range_error
| length_error
| out_of_range.

Inductive outcome (A : Type) : Type :=
| Ret (x : A)
| Throw (e : exn)
| Abort
| Fault
| Diverge.

Arguments Ret {A} x.
Arguments Throw {A} e.
Arguments Abort {A}.
Arguments Fault {A}.
Arguments Diverge {A}.

Definition M (S A : Type) : Type := S -> outcome A * S.

Definition ret {S A : Type} (x : A) : M S A := fun s => (Ret x, s).

Definition bind {S A B : Type} (c : M S A) (k : A -> M S B) : M S B :=
  fun s =>
    match c s with
    | (Ret x, s') => k x s'
    | (Throw e, s') => (Throw e, s')
    | (Abort, s') => (Abort, s')
    | (Fault, s') => (Fault, s')
    | (Diverge, s') => (Diverge, s')
    end.

Definition throw {S A : Type} (e : exn) : M S A := fun s => (Throw e, s).
Definition abort {S A : Type} : M S A := fun s => (Abort, s).
Definition diverge {S A : Type} : M S A := fun s => (Diverge, s).

Declare Scope monad_scope.
Delimit Scope monad_scope with monad.
Notation "x <- c ;; k" := (bind c (fun x => k))
  (at level 61, c at next level, right associativity) : monad_scope.
Notation "c ;; k" := (bind c (fun _ => k))
  (at level 61, right associativity) : monad_scope.
Local Open Scope monad_scope.

(** [b && c] of C++, where the right operand is evaluated only when the
    left one is true. *)
Definition and_then {S : Type} (b : bool) (c : M S bool) : M S bool :=
  if b then c else ret false.

(** ** The buffer

    An allocation is a list of [int]s; a pointer into it is the offset of
    the pointed-to slot, so [heap_array[i]] is slot [heap_array + i]. *)

Definition mem : Type := list Z.

Definition len (m : mem) : Z := Z.of_nat (length m).

Definition get (m : mem) (p : Z) : Z := nth (Z.to_nat p) m 0.

Fixpoint set_nth (m : mem) (n : nat) (v : Z) : mem :=
  match m, n with
  | [], _ => []
  | _ :: m', O => v :: m'
  | x :: m', S n' => x :: set_nth m' n' v
  end.

Definition set (m : mem) (p : Z) (v : Z) : mem := set_nth m (Z.to_nat p) v.

Definition in_bounds (m : mem) (p : Z) : bool := (0 <=? p) && (p <? len m).

Definition rd (p : Z) : M mem Z :=
  fun m => if in_bounds m p then (Ret (get m p), m) else (Fault, m).

Definition wr (p : Z) (v : Z) : M mem unit :=
  fun m => if in_bounds m p then (Ret tt, set m p v) else (Fault, m).

(** [heap_array[i] < heap_array[j]] and [heap_array[i] > heap_array[j]] *)
Definition lt_at (heap_array i j : Z) : M mem bool :=
  x <- rd (heap_array + i) ;; y <- rd (heap_array + j) ;; ret (x <? y).

Definition gt_at (heap_array i j : Z) : M mem bool :=
  x <- rd (heap_array + i) ;; y <- rd (heap_array + j) ;; ret (x >? y).

(** [std::swap(heap_array[i], heap_array[j])] *)
Definition swap (heap_array i j : Z) : M mem unit :=
  x <- rd (heap_array + i) ;;
  y <- rd (heap_array + j) ;;
  wr (heap_array + i) y ;;
  wr (heap_array + j) x.

(** ** Index arithmetic ([mmheap.h], lines 41-47) *)

Definition parent {S : Type} (i : Z) : M S Z :=
  if i >? 0 then ret (wrap (i - 1) / 2) else abort.

Definition has_parent (i : Z) : bool := i >? 0.

Definition left (i : Z) : Z := wrap (2 * i + 1).

Definition right (i : Z) : Z := wrap (2 * i + 2).

Definition gparent {S : Type} (i : Z) : M S Z :=
  if i >? 2 then (p <- parent (S := S) i ;; parent p) else abort.

Definition has_gparent (i : Z) : bool := i >? 2.

Definition child (i c : Z) : bool := (c =? left i) || (c =? right i).

(** ** [log_2] and [min_level] ([mmheap.h], lines 55-83) *)

Definition tab64 : list Z :=
  [63;  0; 58;  1; 59; 47; 53;  2;
   60; 39; 48; 27; 54; 33; 42;  3;
   61; 51; 37; 40; 49; 18; 28; 20;
   55; 30; 34; 11; 43; 14; 22;  4;
   62; 57; 46; 52; 38; 26; 32; 41;
   50; 36; 17; 19; 29; 10; 13; 21;
   56; 45; 25; 31; 35; 16;  9; 12;
   44; 24; 15;  8; 23;  7;  6;  5].

Definition log_2 (i : Z) : Z :=
  let i := Z.lor i (Z.shiftr i 1) in
  let i := Z.lor i (Z.shiftr i 2) in
  let i := Z.lor i (Z.shiftr i 4) in
  let i := Z.lor i (Z.shiftr i 8) in
  let i := Z.lor i (Z.shiftr i 16) in
  let i := Z.lor i (Z.shiftr i 32) in
  nth (Z.to_nat (Z.shiftr (wrap (wrap (i - Z.shiftr i 1) * 0x07EDD5E59A4E28C2)) 58))
      tab64 0.

Definition min_level (i : Z) : bool :=
  if i >? 0 then log_2 (wrap (i + 1)) mod 2 =? 0 else true.

(** ** Smallest and largest child or grandchild ([mmheap.h], lines 96-234) *)

Definition min_child (heap_array i right_index : Z) : M mem (bool * Z) :=
  if left i <=? right_index then
    let m := left i in
    c <- and_then (right i <=? right_index) (lt_at heap_array (right i) m) ;;
    let m := if c then right i else m in
    ret (true, m)
  else ret (false, 0).

Definition min_gchild (heap_array i right_index : Z) : M mem (bool * Z) :=
  let l := left i in
  let r := right i in
  if left l <=? right_index then
    let m := left l in
    c <- and_then (right l <=? right_index) (lt_at heap_array (right l) m) ;;
    let m := if c then right l else m in
    c <- and_then (left r <=? right_index) (lt_at heap_array (left r) m) ;;
    let m := if c then left r else m in
    c <- and_then (right r <=? right_index) (lt_at heap_array (right r) m) ;;
    let m := if c then right r else m in
    ret (true, m)
  else ret (false, 0).

Definition min_child_or_gchild (heap_array i right_index : Z) : M mem (bool * Z) :=
  m <- min_child heap_array i right_index ;;
  if fst m then
    gm <- min_gchild heap_array i right_index ;;
    c <- and_then (fst gm) (lt_at heap_array (snd gm) (snd m)) ;;
    ret (fst m, if c then snd gm else snd m)
  else ret m.

Definition max_child (heap_array i right_index : Z) : M mem (bool * Z) :=
  if left i <=? right_index then
    let m := left i in
    c <- and_then (right i <=? right_index) (gt_at heap_array (right i) m) ;;
    let m := if c then right i else m in
    ret (true, m)
  else ret (false, 0).

Definition max_gchild (heap_array i right_index : Z) : M mem (bool * Z) :=
  let l := left i in
  let r := right i in
  if left l <=? right_index then
    let m := left l in
    c <- and_then (right l <=? right_index) (gt_at heap_array (right l) m) ;;
    let m := if c then right l else m in
    c <- and_then (left r <=? right_index) (gt_at heap_array (left r) m) ;;
    let m := if c then left r else m in
    c <- and_then (right r <=? right_index) (gt_at heap_array (right r) m) ;;
    let m := if c then right r else m in
    ret (true, m)
  else ret (false, 0).

Definition max_child_or_gchild (heap_array i right_index : Z) : M mem (bool * Z) :=
  m <- max_child heap_array i right_index ;;
  if fst m then
    gm <- max_gchild heap_array i right_index ;;
    c <- and_then (fst gm) (gt_at heap_array (snd gm) (snd m)) ;;
    ret (fst m, if c then snd gm else snd m)
  else ret m.

(** ** Sift-down ([mmheap.h], lines 243-312)

    Each [while] loop is a recursion on an iteration budget; the loop flag
    ([sift_more], [finished]) is the choice between the recursive call and
    [ret tt]. *)

Definition LOOP_FUEL : nat := 64.

Fixpoint sift_down_min_loop (fuel : nat) (heap_array sift_index right_index : Z)
  : M mem unit :=
  match fuel with
  | O => diverge
  | S fuel' =>
    if left sift_index <=? right_index then
      mp <- min_child_or_gchild heap_array sift_index right_index ;;
      let m := snd mp in
      if child sift_index m then
        c <- lt_at heap_array m sift_index ;;
        if c then swap heap_array m sift_index else ret tt
      else
        c <- lt_at heap_array m sift_index ;;
        if c then
          swap heap_array m sift_index ;;
          pm <- parent m ;;
          c' <- gt_at heap_array m pm ;;
          (if c' then (pm' <- parent m ;; swap heap_array m pm') else ret tt) ;;
          sift_down_min_loop fuel' heap_array m right_index
        else ret tt
    else ret tt
  end.

Definition mmheap_sift_down_min (heap_array sift_index right_index : Z) : M mem unit :=
  sift_down_min_loop LOOP_FUEL heap_array sift_index right_index.

Fixpoint sift_down_max_loop (fuel : nat) (heap_array sift_index right_index : Z)
  : M mem unit :=
  match fuel with
  | O => diverge
  | S fuel' =>
    if left sift_index <=? right_index then
      mp <- max_child_or_gchild heap_array sift_index right_index ;;
      let m := snd mp in
      if child sift_index m then
        c <- gt_at heap_array m sift_index ;;
        if c then swap heap_array m sift_index else ret tt
      else
        c <- gt_at heap_array m sift_index ;;
        if c then
          swap heap_array m sift_index ;;
          pm <- parent m ;;
          c' <- lt_at heap_array m pm ;;
          (if c' then (pm' <- parent m ;; swap heap_array m pm') else ret tt) ;;
          sift_down_max_loop fuel' heap_array m right_index
        else ret tt
    else ret tt
  end.

Definition mmheap_sift_down_max (heap_array sift_index right_index : Z) : M mem unit :=
  sift_down_max_loop LOOP_FUEL heap_array sift_index right_index.

Definition mmheap_sift_down (heap_array sift_index right_index : Z) : M mem unit :=
  if min_level sift_index
  then mmheap_sift_down_min heap_array sift_index right_index
  else mmheap_sift_down_max heap_array sift_index right_index.

(** ** Bubble-up ([mmheap.h], lines 320-375)

    [bubble_up_max] and [bubble_up] take the index as an [int]; it is
    converted back to [size_t] wherever it is used as one. *)

Fixpoint bubble_up_min_loop (fuel : nat) (heap_array bubble_index : Z) : M mem unit :=
  match fuel with
  | O => diverge
  | S fuel' =>
    if has_gparent bubble_index then
      g <- gparent bubble_index ;;
      c <- lt_at heap_array bubble_index g ;;
      if c then
        g1 <- gparent bubble_index ;;
        swap heap_array bubble_index g1 ;;
        g2 <- gparent bubble_index ;;
        bubble_up_min_loop fuel' heap_array g2
      else ret tt
    else ret tt
  end.

Definition bubble_up_min (heap_array bubble_index : Z) : M mem unit :=
  bubble_up_min_loop LOOP_FUEL heap_array bubble_index.

Fixpoint bubble_up_max_loop (fuel : nat) (heap_array bubble_index : Z) : M mem unit :=
  match fuel with
  | O => diverge
  | S fuel' =>
    if has_gparent (wrap bubble_index) then
      g <- gparent (wrap bubble_index) ;;
      c <- gt_at heap_array bubble_index g ;;
      if c then
        g1 <- gparent (wrap bubble_index) ;;
        swap heap_array bubble_index g1 ;;
        g2 <- gparent (wrap bubble_index) ;;
        bubble_up_max_loop fuel' heap_array (to_int g2)
      else ret tt
    else ret tt
  end.

Definition bubble_up_max (heap_array bubble_index : Z) : M mem unit :=
  bubble_up_max_loop LOOP_FUEL heap_array bubble_index.

Definition bubble_up (heap_array bubble_index : Z) : M mem unit :=
  if min_level (wrap bubble_index) then
    c <- and_then (has_parent (wrap bubble_index))
           (p <- parent (wrap bubble_index) ;; gt_at heap_array bubble_index p) ;;
    if c then
      p <- parent (wrap bubble_index) ;;
      swap heap_array bubble_index p ;;
      p' <- parent (wrap bubble_index) ;;
      bubble_up_max heap_array (to_int p')
    else bubble_up_min heap_array (wrap bubble_index)
  else
    c <- and_then (has_parent (wrap bubble_index))
           (p <- parent (wrap bubble_index) ;; lt_at heap_array bubble_index p) ;;
    if c then
      p <- parent (wrap bubble_index) ;;
      swap heap_array bubble_index p ;;
      p' <- parent (wrap bubble_index) ;;
      bubble_up_min heap_array p'
    else bubble_up_max heap_array bubble_index.

(** ** Heap operations ([mmheap.h], lines 385-593)

    A [size_t& count] parameter is returned next to the result. *)

Fixpoint make_mm_heap_loop (fuel : nat) (heap_array current size : Z) : M mem unit :=
  match fuel with
  | O => diverge
  | S fuel' =>
    if current >=? 0 then
      mmheap_sift_down heap_array (wrap current) (wrap (size - 1)) ;;
      make_mm_heap_loop fuel' heap_array (to_int (current - 1)) size
    else ret tt
  end.

Definition make_mm_heap (heap_array size : Z) : M mem unit :=
  if size >? 1 then
    p <- parent (wrap (size - 1)) ;;
    fun m => make_mm_heap_loop (2 + length m) heap_array (to_int p) size m
  else ret tt.

Definition mm_heap_add (value heap_array count max_size : Z) : M mem Z :=
  if count <? max_size then
    wr (heap_array + count) value ;;
    let count := wrap (count + 1) in
    bubble_up heap_array (to_int (wrap (count - 1))) ;;
    ret count
  else throw runtime_error.

Definition mm_heap_max (heap_array count : Z) : M mem Z :=
  if count <? 1 then throw runtime_error
  else
    m <- max_child heap_array 0 (wrap (count - 1)) ;;
    if fst m then rd (heap_array + snd m) else rd (heap_array + 0).

Definition mm_heap_min (heap_array count : Z) : M mem Z :=
  if count <? 1 then throw runtime_error
  else rd (heap_array + 0).

Definition mm_heap_ripple_add (value heap_array count max_size : Z)
  : M mem (Z * (bool * Z)) :=
  let max_value := 0 in
  let rippled := if count =? max_size then true else false in
  if negb rippled then
    count' <- mm_heap_add value heap_array count max_size ;;
    ret (count', (rippled, max_value))
  else
    m <- (if max_size >? 1
          then (mc <- max_child heap_array 0 (wrap (max_size - 1)) ;; ret (snd mc))
          else ret 0) ;;
    max_value <- rd (heap_array + m) ;;
    wr (heap_array + m) value ;;
    (if max_size >? 1 then
       c <- (h0 <- rd (heap_array + 0) ;; ret (value <? h0)) ;;
       (if c then swap heap_array 0 m else ret tt) ;;
       mmheap_sift_down heap_array m (wrap (max_size - 1))
     else ret tt) ;;
    ret (count, (rippled, max_value)).

Definition mm_heap_replace_at_index (new_value index heap_array count : Z) : M mem Z :=
  if count =? 0 then throw runtime_error
  else if index >? count then throw range_error
  else
    old_value <- rd (heap_array + index) ;;
    wr (heap_array + index) new_value ;;
    (if min_level index then
       if new_value <? old_value then bubble_up_min heap_array index
       else
         c <- and_then (has_parent index)
                (p <- parent index ;; hp <- rd (heap_array + p) ;; ret (hp <? new_value)) ;;
         (if c then (p <- parent index ;; swap heap_array p index) else ret tt) ;;
         mmheap_sift_down_min heap_array index (wrap (count - 1))
     else
       if new_value >? old_value then bubble_up_max heap_array (to_int index)
       else
         c <- and_then (has_parent index)
                (p <- parent index ;; hp <- rd (heap_array + p) ;; ret (new_value <? hp)) ;;
         (if c then (p <- parent index ;; swap heap_array p index) else ret tt) ;;
         mmheap_sift_down_max heap_array index (wrap (count - 1))) ;;
    ret old_value.

Definition mm_heap_remove_at_index (index heap_array count : Z) : M mem (Z * Z) :=
  if count =? 0 then throw runtime_error
  else if index >? count then throw range_error
  else
    last <- rd (heap_array + wrap (count - 1)) ;;
    old_value <- mm_heap_replace_at_index last index heap_array count ;;
    ret (wrap (count - 1), old_value).

Definition mm_heap_remove_min (heap_array count : Z) : M mem (Z * Z) :=
  if count =? 0 then throw runtime_error
  else
    value <- rd (heap_array + 0) ;;
    swap heap_array 0 (wrap (count - 1)) ;;
    let count := wrap (count - 1) in
    mmheap_sift_down heap_array 0 (wrap (count - 1)) ;;
    ret (count, value).

Definition mm_heap_remove_max (heap_array count : Z) : M mem (Z * Z) :=
  if count =? 0 then throw runtime_error
  else
    value <- rd (heap_array + 0) ;;
    m <- max_child heap_array 0 (wrap (count - 1)) ;;
    let value := if fst m then to_int (snd m) else value in
    let m2 := if fst m then snd m else 0 in
    r <- mm_heap_remove_at_index m2 heap_array count ;;
    ret (fst r, value).

(** * The container ([heaparray.h]) *)

Definition MIN_HEAPARRAY_ALLOCATION : Z := 4.

(** [a] is the buffer the pointer member owns; the null pointer and an
    allocation of zero slots are both the empty buffer. *)
Record HeapArray : Type := mkHeapArray {
  storage : Z;
  count : Z;
  fixed : bool;
  a : mem
}.

Definition set_count (h : HeapArray) (c : Z) : HeapArray :=
  mkHeapArray (storage h) c (fixed h) (a h).
Definition set_fixed (h : HeapArray) (f : bool) : HeapArray :=
  mkHeapArray (storage h) (count h) f (a h).
Definition set_a (h : HeapArray) (m : mem) : HeapArray :=
  mkHeapArray (storage h) (count h) (fixed h) m.

Definition gets {S A : Type} (f : S -> A) : M S A := fun s => (Ret (f s), s).
Definition modify {S : Type} (f : S -> S) : M S unit := fun s => (Ret tt, f s).

(** Run a heap primitive on the container's buffer. *)
Definition on_buffer {A : Type} (c : M mem A) : M HeapArray A :=
  fun h => let (r, m') := c (a h) in (r, set_a h m').

(** [new int[n]] for a non-negative [n]: [n] slots of indeterminate
    content, given by [fresh]. *)
Definition alloc (fresh : nat -> Z) (n : Z) : mem :=
  map fresh (seq 0 (Z.to_nat n)).

(** ** Square roots in double precision

    [sqrt(n)] on a [size_t] converts [n] to [double] and takes the
    correctly rounded root; [ceil] and [floor] are then exact.  The doubles
    met here are non-negative and are kept as exact rationals. *)

(** [static_cast<double>(n)]: [n] itself below 2^53, otherwise [n] rounded
    to 53 significant bits, ties to even. *)
Definition to_double (n : Z) : Z :=
  if n <? 2 ^ 53 then n
  else
    let s := Z.log2 n - 52 in
    let m := Z.shiftr n s in
    let r := n - Z.shiftl m s in
    let half := 2 ^ (s - 1) in
    let m := if (half <? r) || ((r =? half) && Z.odd m) then m + 1 else m in
    Z.shiftl m s.

(** [sqrt(d)] for an integral double [d]: the pair [(q, t)] stands for the
    double [q / 2^t], with [q] the integer nearest to the root of
    [d * 4^t] (which is never half-way between two integers) and the
    scale [t] chosen so that [q] has 53 bits. *)
Definition sqrt_double (d : Z) : Z * Z :=
  if d <=? 0 then (0, 0)
  else
    let t := 52 - Z.log2 d / 2 in
    let s := Z.shiftl d (2 * t) in
    let q := Z.sqrt s in
    (if s <=? q * q + q then q else q + 1, t).

(** [static_cast<size_t>(ceil(sqrt(n)))]. *)
Definition ceil_sqrt (n : Z) : Z :=
  let r := sqrt_double (to_double n) in - Z.shiftr (- fst r) (snd r).

(** [static_cast<size_t>(floor(sqrt(n)))]. *)
Definition floor_sqrt (n : Z) : Z :=
  let r := sqrt_double (to_double n) in Z.shiftr (fst r) (snd r).

(** ** Partition geometry ([heaparray.h], lines 385-431) *)

Definition _final_partition (h : HeapArray) : Z :=
  if count h >? 0 then wrap (ceil_sqrt (count h) - 1) else 0.

Definition _partition_size (p : Z) : Z := wrap (p * 2 + 1).

Definition _partition_start (p : Z) : Z := wrap (p * p).

Definition _partition_end (p : Z) : Z := wrap (p * p + p * 2).

Definition _index_to_partition (i : Z) : Z :=
  if i >? 0 then floor_sqrt i else 0.

Definition _count_in_partition (h : HeapArray) (p : Z) : Z :=
  let c := _partition_size p in
  if p >=? _final_partition h then wrap (count h - wrap (p * p)) else c.

Definition _range_in_partition (p : Z) : M HeapArray (Z * Z) :=
  let start_index := _partition_start p in
  p_min <- on_buffer (rd start_index) ;;
  c <- gets (fun h => _count_in_partition h p) ;;
  p_max <- on_buffer (mm_heap_max start_index c) ;;
  ret (p_min, p_max).

Definition _max_in_partition (p : Z) : M HeapArray Z :=
  let start_index := _partition_start p in
  c <- gets (fun h => _count_in_partition h p) ;;
  on_buffer (mm_heap_max start_index c).

(** ** Construction, copy and move ([heaparray.h], lines 45, 93-176) *)

Definition new_empty : HeapArray := mkHeapArray 0 0 false [].

Definition new_with_reserve (fresh : nat -> Z) (reserve_size : Z) (allow_resize : bool)
  : HeapArray :=
  mkHeapArray (wrap reserve_size) 0 (negb allow_resize) (alloc fresh reserve_size).

(** Copy construction and copy assignment from another object: a buffer of
    the source's [storage] slots receiving its first [count] elements. *)
Definition copy_from (fresh : nat -> Z) (rhs : HeapArray) : outcome HeapArray :=
  if count rhs <=? Z.min (len (a rhs)) (storage rhs) then
    Ret (mkHeapArray (storage rhs) (count rhs) (fixed rhs)
           (firstn (Z.to_nat (count rhs)) (a rhs)
            ++ skipn (Z.to_nat (count rhs)) (alloc fresh (storage rhs))))
  else Fault.

(** Move construction and move assignment from another object: the new
    left-hand side and the emptied source. *)
Definition move_from (rhs : HeapArray) : HeapArray * HeapArray :=
  (mkHeapArray (storage rhs) (count rhs) (fixed rhs) (a rhs), new_empty).

(** ** Resizing ([heaparray.h], lines 344-380) *)

Definition _resize (fresh : nat -> Z) (new_size : Z) (round_up : bool) : M HeapArray unit :=
  fun h =>
    if fixed h then (Throw runtime_error, h)
    else if new_size >? 0 then
      let new_size :=
        if round_up then let rt := ceil_sqrt new_size in wrap (rt * rt) else new_size in
      let victim := a h in
      let k := Z.min (count h) new_size in
      match victim with
      | [] => (Ret tt, mkHeapArray new_size (count h) (fixed h) (alloc fresh new_size))
      | _ :: _ =>
        if k <=? len victim then
          (Ret tt, mkHeapArray new_size (count h) (fixed h)
                     (firstn (Z.to_nat k) victim ++ skipn (Z.to_nat k) (alloc fresh new_size)))
        else (Fault, h)
      end
    else (Ret tt, mkHeapArray 0 0 (fixed h) []).

Definition _grow (fresh : nat -> Z) : M HeapArray unit :=
  s <- gets storage ;;
  let next_size := to_int (wrap (s * 2)) in
  let next_size := if next_size =? 0 then MIN_HEAPARRAY_ALLOCATION else next_size in
  _resize fresh (wrap next_size) true.

(** ** Locating a value ([heaparray.h], lines 464-518) *)

Definition SEARCH_FUEL : nat := 66.

Definition partition_matches (value : Z) (for_insert : bool) (mid : Z) (range : Z * Z)
  : M HeapArray bool :=
  if (fst range <=? value) && (value <=? snd range) then ret true
  else if for_insert then
    c <- and_then ((mid >? 0) && (value <=? snd range))
           (mx <- _max_in_partition (wrap (mid - 1)) ;; ret (mx <=? value)) ;;
    if c then ret true
    else if (mid =? 0) && (value <=? snd range) then ret true
    else
      fp <- gets _final_partition ;;
      ret ((mid =? fp) && (fst range <=? value))
  else ret false.

Fixpoint find_partition_loop (fuel : nat) (value : Z) (for_insert : bool) (left right : Z)
  : M HeapArray Z :=
  match fuel with
  | O => diverge
  | S fuel' =>
    if left <=? right then
      let mid := wrap (left + right) / 2 in
      range <- _range_in_partition mid ;;
      c <- partition_matches value for_insert mid range ;;
      if c then ret mid
      else if snd range <? value then
        find_partition_loop fuel' value for_insert (wrap (mid + 1)) right
      else if mid =? 0 then ret 0
      else find_partition_loop fuel' value for_insert left (wrap (mid - 1))
    else ret 0
  end.

Definition _find_partition (value : Z) (for_insert : bool) : M HeapArray Z :=
  c <- gets count ;;
  if c >? 0 then
    right <- gets _final_partition ;;
    find_partition_loop SEARCH_FUEL value for_insert 0 right
  else ret 0.

Fixpoint find_loop (fuel : nat) (value i p_end : Z) : M HeapArray (bool * Z) :=
  match fuel with
  | O => diverge
  | S fuel' =>
    if i <=? p_end then
      x <- on_buffer (rd i) ;;
      if x =? value then ret (true, i)
      else find_loop fuel' value (wrap (i + 1)) p_end
    else ret (false, 0)
  end.

Definition _find (value : Z) : M HeapArray (bool * Z * Z * Z) :=
  p <- _find_partition value false ;;
  c <- gets count ;;
  r <- (if c >? 0
        then fun h => find_loop (2 + length (a h)) value (_partition_start p) (_partition_end p) h
        else ret (false, 0)) ;;
  ret (fst r, snd r, p, wrap (snd r - _partition_start p)).

Definition find (value : Z) : M HeapArray (bool * Z) :=
  t_res <- _find value ;;
  let '(found, index, _, _) := t_res in
  ret (found, index).

Definition contains (value : Z) : M HeapArray bool :=
  c <- gets count ;;
  if c >? 0 then (r <- find value ;; ret (fst r)) else ret false.

(** ** Insertion and removal ([heaparray.h], lines 218-281) *)

Fixpoint insert_loop (fuel : nat) (value partition : Z) : M HeapArray unit :=
  match fuel with
  | O => diverge
  | S fuel' =>
    p_count <- gets (fun h => _count_in_partition h partition) ;;
    ripple <- on_buffer (mm_heap_ripple_add value (_partition_start partition)
                           p_count (_partition_size partition)) ;;
    let done := negb (fst (snd ripple)) in
    let value := snd (snd ripple) in
    let partition := wrap (partition + 1) in
    if done then ret tt else insert_loop fuel' value partition
  end.

Definition insert (fresh : nat -> Z) (value : Z) : M HeapArray unit :=
  c <- gets count ;;
  s <- gets storage ;;
  (if c =? s then
     f <- gets fixed ;;
     if f then throw length_error else _grow fresh
   else ret tt) ;;
  partition <- _find_partition value true ;;
  (fun h => insert_loop (2 + length (a h)) value partition h) ;;
  modify (fun h => set_count h (wrap (count h + 1))).

Fixpoint remove_loop (fuel : nat) (ripple p partition : Z) : M HeapArray Z :=
  match fuel with
  | O => diverge
  | S fuel' =>
    if p >? partition then
      c <- gets (fun h => _count_in_partition h p) ;;
      ripple <- on_buffer (mm_heap_replace_at_index ripple 0 (_partition_start p) c) ;;
      remove_loop fuel' ripple (wrap (p - 1)) partition
    else ret ripple
  end.

Definition remove (value : Z) : M HeapArray bool :=
  find_res <- _find value ;;
  let '(found, _, partition, offset) := find_res in
  if found then
    fp <- gets _final_partition ;;
    (if partition =? fp then
       p_count <- gets (fun h => _count_in_partition h partition) ;;
       on_buffer (mm_heap_remove_at_index offset (_partition_start partition) p_count) ;;
       ret tt
     else
       p_count <- gets (fun h => _count_in_partition h fp) ;;
       r <- on_buffer (mm_heap_remove_min (_partition_start fp) p_count) ;;
       ripple <- (fun h => remove_loop (2 + length (a h)) (snd r) (wrap (fp - 1)) partition h) ;;
       c <- gets (fun h => _count_in_partition h partition) ;;
       on_buffer (mm_heap_replace_at_index ripple offset (_partition_start partition) c) ;;
       ret tt) ;;
    modify (fun h => set_count h (wrap (count h - 1))) ;;
    ret true
  else ret false.

(** ** Observers ([heaparray.h], lines 189-207, 287-299) *)

Definition size : M HeapArray Z := gets count.

Definition subscript (index : Z) : M HeapArray Z :=
  c <- gets count ;;
  if index >=? c then throw out_of_range else on_buffer (rd index).

Definition min : M HeapArray Z := on_buffer (rd 0).

Definition max : M HeapArray Z :=
  fp <- gets _final_partition ;;
  c <- gets (fun h => _count_in_partition h fp) ;;
  on_buffer (mm_heap_max (_partition_start fp) c).

(** ** Bulk build ([heaparray.h], lines 109-116, 331-336)

    [std::sort] on [int]s yields the ascending arrangement of its input,
    which insertion sort computes. *)

Fixpoint insert_sorted (x : Z) (l : list Z) : list Z :=
  match l with
  | [] => [x]
  | y :: l' => if x <=? y then x :: l else y :: insert_sorted x l'
  end.

Definition sort (l : list Z) : list Z := fold_right insert_sorted [] l.

Fixpoint init_heaps_loop (fuel : nat) (p : Z) : M HeapArray unit :=
  match fuel with
  | O => diverge
  | S fuel' =>
    fp <- gets _final_partition ;;
    if p <=? fp then
      c <- gets (fun h => _count_in_partition h p) ;;
      on_buffer (make_mm_heap (_partition_start p) c) ;;
      init_heaps_loop fuel' (wrap (p + 1))
    else ret tt
  end.

Definition _init_heaps : M HeapArray unit :=
  (fun h =>
     if count h <=? len (a h) then
       (Ret tt, set_a h (sort (firstn (Z.to_nat (count h)) (a h))
                         ++ skipn (Z.to_nat (count h)) (a h)))
     else (Fault, h)) ;;
  fun h => init_heaps_loop (2 + length (a h)) 1 h.

(** The range [begin, end) is the list [src]; [physical] is
    [physical_end - begin] when a physical end is supplied. *)
Definition new_from_range (fresh : nat -> Z) (src : list Z) (physical : option Z)
    (allow_resize : bool) : M HeapArray unit :=
  let new_size := match physical with Some n => n | None => len src end in
  _resize fresh (wrap new_size) allow_resize ;;
  (fun h =>
     if len src <=? len (a h)
     then (Ret tt, set_a h (src ++ skipn (length src) (a h)))
     else (Fault, h)) ;;
  modify (fun h => set_count h (len src)) ;;
  _init_heaps ;;
  modify (fun h => set_fixed h (negb allow_resize)).

(** * Specification-level notions *)

(** The heap rooted at slot [heap_array], as a function of the local index. *)
Definition view (m : mem) (heap_array : Z) (i : Z) : Z := get m (heap_array + i).

(** The [n] live values of the heap rooted at [heap_array]. *)
Definition live (m : mem) (heap_array n : Z) : list Z :=
  firstn (Z.to_nat n) (skipn (Z.to_nat heap_array) m).

(** Local index [i] lies on a min level iff the floor of log2 (i+1) is even. *)
Definition is_min_level (i : Z) : bool := Z.even (Z.log2 (i + 1)).

Definition is_child (u l : Z) : Prop := l = 2 * u + 1 \/ l = 2 * u + 2.

Definition is_gchild (u l : Z) : Prop :=
  l = 4 * u + 3 \/ l = 4 * u + 4 \/ l = 4 * u + 5 \/ l = 4 * u + 6.

Definition above (u l : Z) : Prop := is_child u l \/ is_gchild u l.

Inductive descendant : Z -> Z -> Prop :=
| desc_child (i j : Z) : is_child i j -> descendant i j
| desc_step (i j k : Z) : descendant i j -> is_child j k -> descendant i k.

(** [u] and a node [l] below it are in the order their levels demand. *)
Definition ordered (f : Z -> Z) (u l : Z) : Prop :=
  if is_min_level u then f u <= f l else f l <= f u.

(** The min-max invariant over one run of [n] elements: a node on a min
    level is at most each of its descendants, a node on a max level at
    least. *)
Definition mm_heap (f : Z -> Z) (n : Z) : Prop :=
  forall i j, 0 <= i -> j < n -> descendant i j -> ordered f i j.

(** The same invariant through children and grandchildren only. *)
Definition mm_local (f : Z -> Z) (n : Z) : Prop :=
  forall u l, 0 <= u -> l < n -> above u l -> ordered f u l.

(** A heap that is in order except below the max-level node [i]. *)
Definition hole_max (f : Z -> Z) (n i : Z) : Prop :=
  (forall u l, 0 <= u -> l < n -> above u l -> u <> i -> ordered f u l) /\
  (forall g l, 0 <= g -> l < n -> is_gchild g i -> above i l -> f l <= f g).

(** Executable check of [mm_local] on the first [n] slots of a list. *)
Definition ordered_b (f : Z -> Z) (u l : Z) : bool :=
  if is_min_level u then f u <=? f l else f l <=? f u.

Definition mm_local_b (f : Z -> Z) (n : Z) : bool :=
  forallb (fun k =>
             let l := Z.of_nat k in
             ((l <? 1) || ordered_b f ((l - 1) / 2) l) &&
             ((l <? 3) || ordered_b f ((l - 3) / 4) l))
          (seq 0 (Z.to_nat n)).

(** [x] is the largest of the [n] values of [f]. *)
Definition is_max_of (f : Z -> Z) (n : Z) (x : Z) : Prop :=
  (exists k, 0 <= k < n /\ f k = x) /\ forall k, 0 <= k < n -> f k <= x.

Definition perfect_square (n : Z) : Prop := exists k, 0 <= k /\ n = k * k.

(** States of the container reachable through the public interface. *)
Inductive reachable : HeapArray -> Prop :=
| reach_empty : reachable new_empty
| reach_reserve (fresh : nat -> Z) (n : Z) (allow_resize : bool) :
    0 <= n < 2 ^ 31 -> reachable (new_with_reserve fresh n allow_resize)
| reach_range (fresh : nat -> Z) (src : list Z) (physical : option Z)
    (allow_resize : bool) (h : HeapArray) :
    new_from_range fresh src physical allow_resize new_empty = (Ret tt, h) ->
    reachable h
| reach_insert (fresh : nat -> Z) (v : Z) (h h' : HeapArray) :
    reachable h -> insert fresh v h = (Ret tt, h') -> reachable h'
| reach_insert_throw (fresh : nat -> Z) (v : Z) (e : exn) (h h' : HeapArray) :
    reachable h -> insert fresh v h = (Throw e, h') -> reachable h'
| reach_remove (v : Z) (b : bool) (h h' : HeapArray) :
    reachable h -> remove v h = (Ret b, h') -> reachable h'
| reach_copy (fresh : nat -> Z) (h h' : HeapArray) :
    reachable h -> copy_from fresh h = Ret h' -> reachable h'
| reach_move (h : HeapArray) :
    reachable h -> reachable (fst (move_from h)).

(** The first [count] elements of the buffer. *)
Definition elements (h : HeapArray) : list Z := firstn (Z.to_nat (count h)) (a h).

(** Global inter-run ordering: the maximum of partition [p] is at most the
    first slot of partition [p + 1], for every [p + 1] up to the final
    partition. *)
Definition global_order (h : HeapArray) : Prop :=
  forall p, 0 <= p -> p + 1 <= _final_partition h ->
    exists mx, _max_in_partition p h = (Ret mx, h) /\
               mx <= get (a h) (_partition_start (p + 1)).

(** A run of insertions, left to right. *)
Fixpoint insert_all (fresh : nat -> Z) (l : list Z) : M HeapArray unit :=
  match l with
  | [] => ret tt
  | v :: l' => insert fresh v ;; insert_all fresh l'
  end.

(** A step that returns, exchanges slots of the heap only and leaves the
    heap in order. *)
Definition restores (h n : Z) (m : mem) (c : M mem unit) : Prop :=
  exists m', c m = (Ret tt, m') /\ len m' = len m /\
             mm_local (view m' h) n /\
             Permutation (live m h n) (live m' h n).

(** A step of the container that leaves [storage] alone, whatever its
    outcome. *)
Definition keeps_storage {A : Type} (c : M HeapArray A) : Prop :=
  forall h r h', c h = (r, h') -> storage h' = storage h.

(** A step of the container after which [storage] is a perfect square or 0
    if it was before, whatever its outcome. *)
Definition keeps_square {A : Type} (c : M HeapArray A) : Prop :=
  forall h r h', c h = (r, h') ->
    perfect_square (storage h) -> perfect_square (storage h').

(** A heap that is in order except between node [j] and its grandparent;
    the grandparent is already in order with everything below [j]. *)
Definition hole_up (f : Z -> Z) (n j : Z) : Prop :=
  (forall u l, 0 <= u -> l < n -> above u l -> ~ (is_gchild u j /\ l = j) ->
               ordered f u l) /\
  (forall g l, 0 <= g -> l < n -> is_gchild g j -> above j l -> ordered f g l).

(** Bit [n] of [y] is set iff one of the [s] bits of [x] from [n] upwards is. *)
Definition spread_of (x s y : Z) : Prop :=
  forall n, 0 <= n ->
    (Z.testbit y n = true <-> exists d, 0 <= d < s /\ Z.testbit x (n + d) = true).

(** Buffers reached in the runs studied below; [fresh] gives the content of
    newly allocated slots. *)

(** The container after [insert(1); insert(2)] on an empty container. *)
Definition after_1_2 (fresh : nat -> Z) : HeapArray :=
  mkHeapArray 4 2 false [2; 1; fresh 2%nat; fresh 3%nat].

(** The container after [insert(0); insert(2); insert(2); insert(2)]. *)
Definition after_0_2_2_2 : HeapArray := mkHeapArray 4 4 false [2; 0; 2; 2].

(** The container after inserting 3, 2, 1, 0 and removing 2. *)
Definition after_remove_2 : HeapArray := mkHeapArray 4 3 false [0; 1; 3; 2].

(** * Further specification-level notions *)

(** [p] and [q] in the order of a min level ([b = true]) or a max level. *)
Definition le_lvl (b : bool) (p q : Z) : Prop := if b then p <= q else q <= p.

(** The nodes from [lo] on are in order with their children and
    grandchildren. *)
Definition heap_from (f : Z -> Z) (lo n : Z) : Prop :=
  forall u l, lo <= u -> l < n -> above u l -> ordered f u l.

(** The nodes from [lo] on are in order except below node [i]. *)
Definition hole_down (f : Z -> Z) (lo n i : Z) : Prop :=
  (forall u l, lo <= u -> l < n -> above u l -> u <> i -> ordered f u l) /\
  (forall g l, lo <= g -> l < n -> is_gchild g i -> above i l -> ordered f g l).

(** [x] is the smallest of the [n] values of [f]. *)
Definition is_min_of (f : Z -> Z) (n : Z) (x : Z) : Prop :=
  (exists k, 0 <= k < n /\ f k = x) /\ forall k, 0 <= k < n -> x <= f k.

(** A sift-down that returns, exchanges slots [h + i .. h + r] only and
    leaves the nodes from [lo] on in order. *)
Definition sifts (h lo i r : Z) (m : mem) (c : M mem unit) : Prop :=
  exists m', c m = (Ret tt, m') /\ len m' = len m /\
             heap_from (view m' h) lo (r + 1) /\
             Permutation (live m h (r + 1)) (live m' h (r + 1)) /\
             forall q, 0 <= q -> q < h + i \/ h + r < q -> get m' q = get m q.

(** A step that leaves the state as it found it, whatever its outcome. *)
Definition read_only {S A : Type} (c : M S A) : Prop :=
  forall s r s', c s = (r, s') -> s' = s.

(** A step of the container that can change the content of the buffer and
    nothing else, whatever its outcome. *)
Definition buffer_only {A : Type} (c : M HeapArray A) : Prop :=
  forall h r h', c h = (r, h') ->
    storage h' = storage h /\ count h' = count h /\ fixed h' = fixed h.

(** A list in ascending order. *)
Fixpoint ascending (l : list Z) : Prop :=
  match l with
  | [] => True
  | x :: l' => Forall (Z.le x) l' /\ ascending l'
  end.

(** The invariant the container is designed around: the elements lie in
    the buffer; the elements of every partition up to the final one form a
    min-max heap; and an element of an earlier partition is at most any
    element of a later one. *)
Definition well_formed (h : HeapArray) : Prop :=
  0 <= count h <= len (a h) /\
  (forall p, 0 <= p <= _final_partition h ->
     mm_heap (view (a h) (_partition_start p)) (_count_in_partition h p)) /\
  (forall i j, 0 <= i -> j < count h ->
     _index_to_partition i < _index_to_partition j -> get (a h) i <= get (a h) j).

(** A step that never throws. *)
Definition no_throw {S A : Type} (c : M S A) : Prop :=
  forall s e s', c s <> (Throw e, s').

(** A step that throws nothing but [runtime_error] and [range_error], and
    only before it has changed anything. *)
Definition throws_early {S A : Type} (c : M S A) : Prop :=
  forall s e s', c s = (Throw e, s') ->
    s' = s /\ (e = runtime_error \/ e = range_error).

(** A step on the buffer that keeps its size and changes no slot outside
    [lo, hi), whatever its outcome. *)
Definition confined {A : Type} (lo hi : Z) (c : M mem A) : Prop :=
  forall m r m', c m = (r, m') ->
    len m' = len m /\
    forall q, 0 <= q -> q < lo \/ hi <= q -> get m' q = get m q.

(** The part of the invariant that insertion maintains: the buffer has
    [storage] slots, the elements lie within it, and the elements of every
    partition up to the final one form a min-max heap. *)
Definition partition_heaps (h : HeapArray) : Prop :=
  0 <= count h <= storage h /\ len (a h) = storage h /\
  forall p, 0 <= p <= _final_partition h ->
    mm_heap (view (a h) (_partition_start p)) (_count_in_partition h p).

(** * Reasoning support *)

(** ** The monad *)

Lemma run_bind {S A B : Type} (c : M S A) (k : A -> M S B) (s s' : S) (x : A) :
  c s = (Ret x, s') -> bind c k s = k x s'.
Proof.
  intros H. unfold bind. rewrite H. reflexivity.
Qed.

Lemma run_ret {S A : Type} (x : A) (s : S) : ret x s = (Ret x, s).
Proof.
  reflexivity.
Qed.

(** ** Machine arithmetic *)

Lemma wrap_small (x : Z) : 0 <= x < 2 ^ 64 -> wrap x = x.
Proof.
  intros H. unfold wrap. apply Z.mod_small. exact H.
Qed.

Lemma left_small (i : Z) : 0 <= i < 2 ^ 62 -> left i = 2 * i + 1.
Proof.
  intros H. unfold left. apply wrap_small. lia.
Qed.

Lemma right_small (i : Z) : 0 <= i < 2 ^ 62 -> right i = 2 * i + 2.
Proof.
  intros H. unfold right. apply wrap_small. lia.
Qed.

Lemma parent_small {S : Type} (i : Z) (s : S) :
  0 < i < 2 ^ 62 -> parent i s = (Ret ((i - 1) / 2), s).
Proof.
  intros H. unfold parent.
  destruct (Z.gtb_spec i 0) as [_ | Hn]; [ | lia ].
  rewrite wrap_small by lia. reflexivity.
Qed.

Lemma child_small (i c : Z) :
  0 <= i < 2 ^ 62 -> child i c = true <-> is_child i c.
Proof.
  intros H. unfold child, is_child.
  rewrite left_small, right_small by exact H.
  rewrite orb_true_iff, !Z.eqb_eq. reflexivity.
Qed.

(** ** The buffer *)

Lemma length_set_nth (m : mem) (n : nat) (v : Z) : length (set_nth m n v) = length m.
Proof.
  revert n. induction m as [| x m IH]; intros [| n]; cbn; auto.
Qed.

Lemma len_set (m : mem) (p v : Z) : len (set m p v) = len m.
Proof.
  unfold len, set. rewrite length_set_nth. reflexivity.
Qed.

Lemma nth_set_nth_eq (m : mem) (n : nat) (v : Z) :
  (n < length m)%nat -> nth n (set_nth m n v) 0 = v.
Proof.
  revert n. induction m as [| x m IH]; intros [| n] H; cbn in *; try lia; auto.
  apply IH. lia.
Qed.

Lemma nth_set_nth_neq (m : mem) (n k : nat) (v : Z) :
  n <> k -> nth k (set_nth m n v) 0 = nth k m 0.
Proof.
  revert n k. induction m as [| x m IH]; intros [| n] [| k] H; cbn; auto; try lia.
Qed.

Lemma get_set_eq (m : mem) (p v : Z) : 0 <= p < len m -> get (set m p v) p = v.
Proof.
  intros H. unfold get, set, len in *. apply nth_set_nth_eq. lia.
Qed.

Lemma get_set_neq (m : mem) (p q v : Z) :
  0 <= p -> 0 <= q -> p <> q -> get (set m p v) q = get m q.
Proof.
  intros Hp Hq H. unfold get, set. apply nth_set_nth_neq. lia.
Qed.

Lemma in_bounds_true (m : mem) (p : Z) : 0 <= p < len m -> in_bounds m p = true.
Proof.
  intros H. unfold in_bounds.
  apply andb_true_intro. split; [ apply Z.leb_le | apply Z.ltb_lt ]; lia.
Qed.

Lemma rd_ok (m : mem) (p : Z) : 0 <= p < len m -> rd p m = (Ret (get m p), m).
Proof.
  intros H. unfold rd. rewrite in_bounds_true by exact H. reflexivity.
Qed.

Lemma wr_ok (m : mem) (p v : Z) : 0 <= p < len m -> wr p v m = (Ret tt, set m p v).
Proof.
  intros H. unfold wr. rewrite in_bounds_true by exact H. reflexivity.
Qed.

Lemma lt_at_ok (m : mem) (h i j : Z) :
  0 <= h + i < len m -> 0 <= h + j < len m ->
  lt_at h i j m = (Ret (view m h i <? view m h j), m).
Proof.
  intros Hi Hj. unfold lt_at.
  rewrite (run_bind _ _ _ _ _ (rd_ok m _ Hi)).
  rewrite (run_bind _ _ _ _ _ (rd_ok m _ Hj)). reflexivity.
Qed.

Lemma gt_at_ok (m : mem) (h i j : Z) :
  0 <= h + i < len m -> 0 <= h + j < len m ->
  gt_at h i j m = (Ret (view m h j <? view m h i), m).
Proof.
  intros Hi Hj. unfold gt_at.
  rewrite (run_bind _ _ _ _ _ (rd_ok m _ Hi)).
  rewrite (run_bind _ _ _ _ _ (rd_ok m _ Hj)).
  rewrite Z.gtb_ltb. reflexivity.
Qed.

(** The buffer with slots [h + i] and [h + j] exchanged. *)
Lemma swap_ok (m : mem) (h i j : Z) :
  0 <= h + i < len m -> 0 <= h + j < len m ->
  swap h i j m =
  (Ret tt, set (set m (h + i) (view m h j)) (h + j) (view m h i)).
Proof.
  intros Hi Hj. unfold swap.
  rewrite (run_bind _ _ _ _ _ (rd_ok m _ Hi)).
  rewrite (run_bind _ _ _ _ _ (rd_ok m _ Hj)).
  rewrite (run_bind _ _ _ _ _ (wr_ok m _ _ Hi)).
  rewrite wr_ok by (rewrite len_set; exact Hj). reflexivity.
Qed.

Lemma view_set (m : mem) (h i k v : Z) :
  0 <= h -> 0 <= i -> 0 <= k -> h + i < len m ->
  view (set m (h + i) v) h k = if k =? i then v else view m h k.
Proof.
  intros Hh Hi Hk Hb. unfold view.
  destruct (Z.eqb_spec k i) as [-> | Hne].
  - apply get_set_eq. lia.
  - apply get_set_neq; lia.
Qed.

(** ** The table-driven logarithm *)

Section Smear.

Variable x : Z.

Lemma spread_start : spread_of x 1 x.
Proof.
  intros n Hn. split.
  - intros H. exists 0. split; [ lia | ]. rewrite Z.add_0_r. exact H.
  - intros [d [Hd H]]. replace (n + d) with n in H by lia. exact H.
Qed.

Lemma spread_step (s y : Z) :
  0 < s -> spread_of x s y -> spread_of x (2 * s) (Z.lor y (Z.shiftr y s)).
Proof.
  intros Hs Hy n Hn.
  rewrite Z.lor_spec, Z.shiftr_spec by lia.
  rewrite orb_true_iff, (Hy n) by lia. rewrite (Hy (n + s)) by lia.
  split.
  - intros [[d [Hd H]] | [d [Hd H]]].
    + exists d. split; [ lia | exact H ].
    + exists (s + d). split; [ lia | ]. rewrite Z.add_assoc. exact H.
  - intros [d [Hd H]].
    destruct (Z_lt_le_dec d s) as [Hlt | Hge].
    + left. exists d. split; [ lia | exact H ].
    + right. exists (d - s). split; [ lia | ].
      replace (n + s + (d - s)) with (n + d) by lia. exact H.
Qed.

Lemma spread_full (y : Z) :
  0 < x < 2 ^ 64 -> spread_of x 64 y -> y = Z.ones (Z.log2 x + 1).
Proof.
  intros Hx Hy.
  assert (Hk : 0 <= Z.log2 x < 64).
  { split; [ apply Z.log2_nonneg | apply Z.log2_lt_pow2; lia ]. }
  apply Z.bits_inj'. intros n Hn.
  destruct (Z_lt_le_dec n (Z.log2 x + 1)) as [Hlow | Hhigh].
  - rewrite Z.ones_spec_low by lia.
    apply (Hy n Hn). exists (Z.log2 x - n). split; [ lia | ].
    replace (n + (Z.log2 x - n)) with (Z.log2 x) by lia.
    apply Z.bit_log2. lia.
  - rewrite Z.ones_spec_high by lia.
    destruct (Z.testbit y n) eqn:E; [ | reflexivity ].
    apply (Hy n Hn) in E. destruct E as [d [Hd H]].
    rewrite Z.bits_above_log2 in H by lia. discriminate.
Qed.

End Smear.

Lemma table_lookup (k : Z) :
  0 <= k < 64 ->
  nth (Z.to_nat (Z.shiftr (wrap (wrap (2 ^ k) * 0x07EDD5E59A4E28C2)) 58)) tab64 0 = k.
Proof.
  intros Hk.
  assert (T : forallb
                (fun j =>
                   nth (Z.to_nat
                          (Z.shiftr (wrap (wrap (2 ^ Z.of_nat j) * 0x07EDD5E59A4E28C2)) 58))
                       tab64 0 =? Z.of_nat j)
                (seq 0 64) = true) by (vm_compute; reflexivity).
  rewrite forallb_forall in T.
  specialize (T (Z.to_nat k) ltac:(apply in_seq; lia)).
  rewrite Z2Nat.id in T by lia. apply Z.eqb_eq. exact T.
Qed.

Lemma log_2_spec (x : Z) : 0 < x < 2 ^ 64 -> log_2 x = Z.log2 x.
Proof.
  intros Hx. unfold log_2. cbv zeta.
  pose proof (spread_start x) as S0.
  pose proof (spread_step x 1 _ ltac:(lia) S0) as S1.
  pose proof (spread_step x 2 _ ltac:(lia) S1) as S2.
  pose proof (spread_step x 4 _ ltac:(lia) S2) as S3.
  pose proof (spread_step x 8 _ ltac:(lia) S3) as S4.
  pose proof (spread_step x 16 _ ltac:(lia) S4) as S5.
  pose proof (spread_step x 32 _ ltac:(lia) S5) as S6.
  cbn [Z.mul Pos.mul] in S1, S2, S3, S4, S5, S6.
  rewrite (spread_full x _ Hx S6).
  assert (Hk : 0 <= Z.log2 x < 64).
  { split; [ apply Z.log2_nonneg | apply Z.log2_lt_pow2; lia ]. }
  set (k := Z.log2 x) in *.
  assert (E : Z.ones (k + 1) - Z.shiftr (Z.ones (k + 1)) 1 = 2 ^ k).
  { rewrite Z.shiftr_div_pow2 by lia. rewrite Z.ones_equiv.
    rewrite Z.pow_add_r by lia. change (2 ^ 1) with 2.
    assert (P : 0 < 2 ^ k) by (apply Z.pow_pos_nonneg; lia).
    assert (D : Z.pred (2 ^ k * 2) / 2 = 2 ^ k - 1).
    { symmetry. apply (Z.div_unique_pos _ 2 (2 ^ k - 1) 1); lia. }
    rewrite D. lia. }
  rewrite E. apply table_lookup. exact Hk.
Qed.

Lemma min_level_spec (i : Z) : 0 <= i < 2 ^ 64 - 1 -> min_level i = is_min_level i.
Proof.
  intros Hi. unfold min_level, is_min_level.
  destruct (Z.gtb_spec i 0) as [Hpos | Hzero].
  - rewrite wrap_small by lia. rewrite log_2_spec by lia.
    rewrite Zmod_even. destruct (Z.even (Z.log2 (i + 1))); reflexivity.
  - assert (i = 0) by lia. subst i. reflexivity.
Qed.

(** ** Live values and exchanges *)

Lemma skipn_set_nth (m : mem) (k i : nat) (v : Z) :
  skipn k (set_nth m (k + i) v) = set_nth (skipn k m) i v.
Proof.
  revert m. induction k as [| k IH]; intros m; [ reflexivity | ].
  destruct m as [| x m]; cbn; [ destruct i; reflexivity | apply IH ].
Qed.

Lemma firstn_set_nth (l : mem) (n i : nat) (v : Z) :
  (i < n)%nat -> firstn n (set_nth l i v) = set_nth (firstn n l) i v.
Proof.
  revert n i. induction l as [| x l IH]; intros [| n] [| i] H; cbn; try lia; auto.
  f_equal. apply IH. lia.
Qed.

Lemma live_set (m : mem) (h n i v : Z) :
  0 <= h -> 0 <= i < n ->
  live (set m (h + i) v) h n = set_nth (live m h n) (Z.to_nat i) v.
Proof.
  intros Hh Hi. unfold live, set.
  replace (Z.to_nat (h + i)) with (Z.to_nat h + Z.to_nat i)%nat by lia.
  rewrite skipn_set_nth. apply firstn_set_nth. lia.
Qed.

Lemma nth_skipn (m : mem) (k i : nat) : nth i (skipn k m) 0 = nth (k + i) m 0.
Proof.
  revert m. induction k as [| k IH]; intros m; [ reflexivity | ].
  destruct m as [| x m]; cbn; [ destruct i; reflexivity | apply IH ].
Qed.

Lemma nth_firstn (l : mem) (n i : nat) : (i < n)%nat -> nth i (firstn n l) 0 = nth i l 0.
Proof.
  revert n i. induction l as [| x l IH]; intros [| n] [| i] H; cbn; try lia; auto.
  apply IH. lia.
Qed.

Lemma nth_live (m : mem) (h n i : Z) :
  0 <= h -> 0 <= i < n -> nth (Z.to_nat i) (live m h n) 0 = view m h i.
Proof.
  intros Hh Hi. unfold live, view, get.
  rewrite nth_firstn by lia. rewrite nth_skipn. f_equal. lia.
Qed.

Lemma length_live (m : mem) (h n : Z) :
  0 <= h -> 0 <= n -> h + n <= len m -> length (live m h n) = Z.to_nat n.
Proof.
  intros Hh Hn Hb. unfold live, len in *.
  rewrite length_firstn, length_skipn. lia.
Qed.

Lemma perm_set_nth (l : mem) (j : nat) (x : Z) :
  (j < length l)%nat -> Permutation (x :: l) (nth j l 0 :: set_nth l j x).
Proof.
  revert j. induction l as [| y l IH]; intros [| j] H; cbn in *; try lia.
  - apply perm_swap.
  - eapply perm_trans; [ apply perm_swap | ].
    eapply perm_trans; [ apply perm_skip, (IH j); lia | ].
    apply perm_swap.
Qed.

Lemma perm_exchange (l : mem) (i j : nat) :
  (i < length l)%nat -> (j < length l)%nat ->
  Permutation l (set_nth (set_nth l i (nth j l 0)) j (nth i l 0)).
Proof.
  revert i j. induction l as [| x l IH]; intros [| i] [| j] Hi Hj; cbn [length] in *;
    try lia; cbn [set_nth nth].
  - apply Permutation_refl.
  - apply perm_set_nth. lia.
  - apply perm_set_nth. lia.
  - apply perm_skip, IH; lia.
Qed.

Lemma live_exchange (m : mem) (h n i j : Z) :
  0 <= h -> 0 <= i < n -> 0 <= j < n -> h + n <= len m ->
  Permutation (live m h n)
    (live (set (set m (h + i) (view m h j)) (h + j) (view m h i)) h n).
Proof.
  intros Hh Hi Hj Hb.
  rewrite !live_set by lia.
  rewrite <- (nth_live m h n j), <- (nth_live m h n i) by lia.
  apply perm_exchange; rewrite length_live; lia.
Qed.

(** ** Levels, descendants and the two forms of the invariant *)

Lemma is_child_iff (u l : Z) : is_child u l <-> 2 * u + 1 <= l <= 2 * u + 2.
Proof.
  unfold is_child. lia.
Qed.

Lemma is_gchild_iff (u l : Z) : is_gchild u l <-> 4 * u + 3 <= l <= 4 * u + 6.
Proof.
  unfold is_gchild. lia.
Qed.

Ltac arith :=
  unfold above in *; rewrite ?is_child_iff, ?is_gchild_iff in *; lia.

Lemma lvl_child (u l : Z) :
  0 <= u -> is_child u l -> is_min_level l = negb (is_min_level u).
Proof.
  intros Hu [-> | ->]; unfold is_min_level.
  - replace (2 * u + 1 + 1) with (2 * (u + 1)) by lia.
    rewrite Z.log2_double by lia.
    rewrite Z.even_succ, <- Z.negb_even. reflexivity.
  - replace (2 * u + 2 + 1) with (2 * (u + 1) + 1) by lia.
    rewrite Z.log2_succ_double by lia.
    rewrite Z.even_succ, <- Z.negb_even. reflexivity.
Qed.

Lemma gchild_via (u l : Z) :
  is_gchild u l -> exists c, is_child u c /\ is_child c l.
Proof.
  intros H.
  assert (C : l = 4 * u + 3 \/ l = 4 * u + 4 \/ l = 4 * u + 5 \/ l = 4 * u + 6) by exact H.
  destruct C as [-> | [-> | [-> | ->]]];
    [ exists (2 * u + 1) | exists (2 * u + 1) | exists (2 * u + 2) | exists (2 * u + 2) ];
    arith.
Qed.

Lemma lvl_gchild (u l : Z) :
  0 <= u -> is_gchild u l -> is_min_level l = is_min_level u.
Proof.
  intros Hu H. destruct (gchild_via u l H) as [c [H1 H2]].
  rewrite (lvl_child c l), (lvl_child u c); auto; [ apply negb_involutive | arith ].
Qed.

Lemma ordered_min (f : Z -> Z) (u l : Z) :
  is_min_level u = true -> ordered f u l <-> f u <= f l.
Proof.
  intros H. unfold ordered. rewrite H. reflexivity.
Qed.

Lemma ordered_max (f : Z -> Z) (u l : Z) :
  is_min_level u = false -> ordered f u l <-> f l <= f u.
Proof.
  intros H. unfold ordered. rewrite H. reflexivity.
Qed.

Lemma above_descendant (u l : Z) : above u l -> descendant u l.
Proof.
  intros [H | H]; [ apply desc_child; exact H | ].
  destruct (gchild_via u l H) as [c [H1 H2]].
  eapply desc_step; [ apply desc_child; exact H1 | exact H2 ].
Qed.

Lemma descendant_lt (i j : Z) : 0 <= i -> descendant i j -> i < j.
Proof.
  intros Hi H. induction H as [i j H | i j k H IH H']; [ arith | ].
  specialize (IH Hi). arith.
Qed.

Lemma descendant_inv (i k : Z) :
  descendant i k ->
  is_child i k \/ exists j, descendant i j /\ is_child j k.
Proof.
  intros H. destruct H as [i j H | i j k H H']; [ left; exact H | right; eauto ].
Qed.

Lemma mm_heap_local (f : Z -> Z) (n : Z) : mm_heap f n -> mm_local f n.
Proof.
  intros H u l Hu Hl Ha. apply H; auto. apply above_descendant. exact Ha.
Qed.

Lemma mm_local_heap (f : Z -> Z) (n : Z) : mm_local f n -> mm_heap f n.
Proof.
  intros L i k Hi Hk. revert i Hi.
  induction k as [k IH] using (well_founded_induction (Z.lt_wf 0)).
  intros i Hi D.
  destruct (descendant_inv i k D) as [C | [j [Dj Cj]]].
  { apply L; auto. left. exact C. }
  pose proof (descendant_lt i j Hi Dj) as Hij.
  destruct (descendant_inv i j Dj) as [C | [j' [Dj' Cj']]].
  { apply L; auto. right. arith. }
  pose proof (descendant_lt i j' Hi Dj') as Hij'.
  assert (Oj : ordered f i j) by (apply IH; auto; arith).
  assert (Oj' : ordered f i j') by (apply IH; auto; arith).
  assert (Lj : ordered f j k) by (apply L; try lia; left; exact Cj).
  assert (Lj' : ordered f j' k) by (apply L; try lia; right; arith).
  pose proof (lvl_child j' j ltac:(lia) Cj') as Ev.
  unfold ordered in *.
  destruct (is_min_level i), (is_min_level j'), (is_min_level j);
    cbn in Ev; try discriminate; lia.
Qed.

Lemma ordered_b_spec (f : Z -> Z) (u l : Z) : ordered_b f u l = true <-> ordered f u l.
Proof.
  unfold ordered_b, ordered. destruct (is_min_level u); apply Z.leb_le.
Qed.

Lemma mm_local_b_sound (f : Z -> Z) (n : Z) : mm_local_b f n = true -> mm_local f n.
Proof.
  intros H u l Hu Hl Ha. unfold mm_local_b in H.
  rewrite forallb_forall in H.
  assert (Hin : In (Z.to_nat l) (seq 0 (Z.to_nat n))) by (apply in_seq; arith).
  specialize (H _ Hin). cbn beta zeta in H.
  rewrite Z2Nat.id in H by arith.
  apply andb_true_iff in H. destruct H as [Hc Hg].
  apply ordered_b_spec.
  destruct Ha as [C | G].
  - replace u with ((l - 1) / 2).
    + apply orb_true_iff in Hc. destruct Hc as [Hc | Hc]; [ | exact Hc ].
      apply Z.ltb_lt in Hc. arith.
    + destruct C as [-> | ->]; [ replace (2 * u + 1 - 1) with (u * 2) by lia
                               | replace (2 * u + 2 - 1) with (1 + u * 2) by lia ].
      * apply Z.div_mul. lia.
      * rewrite Z.div_add by lia. reflexivity.
  - replace u with ((l - 3) / 4).
    + apply orb_true_iff in Hg. destruct Hg as [Hg | Hg]; [ | exact Hg ].
      apply Z.ltb_lt in Hg. arith.
    + assert (E : l - 3 = 4 * u + (l - 3 - 4 * u)) by lia.
      rewrite E. symmetry. apply (Z.div_unique_pos _ 4 u (l - 3 - 4 * u)); arith.
Qed.

(** The larger child of the root is the largest element of the heap. *)
Lemma max_at_root_child (f : Z -> Z) (n c : Z) :
  mm_local f n -> is_child 0 c -> c < n ->
  (forall c', is_child 0 c' -> c' < n -> f c' <= f c) ->
  forall k, 0 <= k < n -> f k <= f c.
Proof.
  intros L C Hc Hmax k.
  induction k as [k IH] using (well_founded_induction (Z.lt_wf 0)).
  intros Hk.
  destruct (Z.eq_dec k 0) as [-> | Hk0].
  { assert (O : ordered f 0 c) by (apply L; auto; [ lia | left; exact C ]).
    apply ordered_min in O; [ exact O | reflexivity ]. }
  destruct (Z_le_gt_dec k 2) as [Hk2 | Hk2].
  { apply Hmax; arith. }
  set (p := (k - 1) / 2).
  assert (Cp : is_child p k).
  { unfold is_child, p.
    pose proof (Z.div_mod (k - 1) 2 ltac:(lia)).
    pose proof (Z.mod_pos_bound (k - 1) 2 ltac:(lia)). lia. }
  assert (Hp : 1 <= p < k) by arith.
  destruct (is_min_level p) eqn:Lp.
  - assert (Hp3 : 3 <= p).
    { destruct (Z.eq_dec p 1) as [E | E]; [ rewrite E in Lp; discriminate | ].
      destruct (Z.eq_dec p 2) as [E' | E']; [ rewrite E' in Lp; discriminate | lia ]. }
    set (g := (p - 1) / 2).
    assert (Cg : is_child g p).
    { unfold is_child, g.
      pose proof (Z.div_mod (p - 1) 2 ltac:(lia)).
      pose proof (Z.mod_pos_bound (p - 1) 2 ltac:(lia)). lia. }
    assert (Hg : 1 <= g < k) by arith.
    assert (Lg : is_min_level g = false).
    { pose proof (lvl_child g p ltac:(lia) Cg) as E. rewrite Lp in E.
      destruct (is_min_level g); [ discriminate | reflexivity ]. }
    assert (O : ordered f g k) by (apply L; [ lia | lia | right; arith ]).
    apply ordered_max in O; [ | exact Lg ].
    specialize (IH g ltac:(lia) ltac:(lia)). lia.
  - assert (O : ordered f p k) by (apply L; [ lia | lia | left; exact Cp ]).
    apply ordered_max in O; [ | exact Lp ].
    specialize (IH p ltac:(lia) ltac:(lia)). lia.
Qed.

(** ** Repairing a heap below a max-level node *)

Lemma ordered_ext (f f' : Z -> Z) (u l : Z) :
  f' u = f u -> f' l = f l -> ordered f u l -> ordered f' u l.
Proof.
  unfold ordered. intros -> ->. auto.
Qed.

Lemma lvl_parent_of_max (u l : Z) :
  0 <= u -> is_child u l -> is_min_level l = false -> is_min_level u = true.
Proof.
  intros Hu C L. pose proof (lvl_child u l Hu C) as E. rewrite L in E.
  destruct (is_min_level u); [ reflexivity | discriminate ].
Qed.

Lemma lvl_child_of_max (u l : Z) :
  0 <= u -> is_child u l -> is_min_level u = false -> is_min_level l = true.
Proof.
  intros Hu C L. rewrite (lvl_child u l Hu C), L. reflexivity.
Qed.

Lemma lvl_gparent_of_max (u l : Z) :
  0 <= u -> is_gchild u l -> is_min_level l = false -> is_min_level u = false.
Proof.
  intros Hu G L. rewrite <- (lvl_gchild u l Hu G). exact L.
Qed.

Section HoleMax.

Variables (f : Z -> Z) (n i : Z).
Hypothesis Hi : 0 <= i.
Hypothesis Li : is_min_level i = false.
Hypothesis Hole : hole_max f n i.

Lemma hole_max_leaf : n <= 2 * i + 1 -> mm_local f n.
Proof.
  intros Hn u l Hu Hl Ha. destruct Hole as [H1 _].
  apply H1; auto. intros ->. arith.
Qed.

Section Largest.

Variable x : Z.
Hypothesis Hx : above i x.
Hypothesis Hxn : x < n.
Hypothesis Hmax : forall y, above i y -> y < n -> f y <= f x.

Lemma hole_max_done : f x <= f i -> mm_local f n.
Proof.
  intros Hle u l Hu Hl Ha. destruct (Z.eq_dec u i) as [-> | Hne].
  - apply ordered_max; auto. specialize (Hmax l Ha Hl). lia.
  - apply Hole; auto.
Qed.

(** What holds above [i], whatever is exchanged below it. *)
Lemma hole_max_into (f' : Z -> Z) (u : Z) :
  0 <= u -> above u i -> f' u = f u -> f' i = f x -> f i < f x -> ordered f' u i.
Proof.
  intros Hu Ha Eu Ei Hlt. destruct Hole as [H1 H2].
  assert (Hne : u <> i) by arith.
  destruct Ha as [C | G].
  - assert (Lu : is_min_level u = true) by (apply (lvl_parent_of_max u i); auto).
    apply ordered_min; auto. rewrite Eu, Ei.
    assert (O : ordered f u i) by (apply H1; auto; [ arith | left; exact C ]).
    apply ordered_min in O; auto. lia.
  - assert (Lu : is_min_level u = false) by (apply (lvl_gparent_of_max u i); auto).
    apply ordered_max; auto. rewrite Eu, Ei.
    apply H2; auto.
Qed.

Lemma hole_max_child_swap (f' : Z -> Z) :
  is_child i x -> f i < f x ->
  f' i = f x -> f' x = f i -> (forall k, 0 <= k -> k <> i -> k <> x -> f' k = f k) ->
  mm_local f' n.
Proof.
  intros Cx Hlt Ei Ex Eo u l Hu Hl Ha.
  pose proof Hole as [H1 H2].
  assert (Lx : is_min_level x = true) by (apply (lvl_child_of_max i x); auto).
  destruct (Z.eq_dec u i) as [-> | Hui].
  { apply ordered_max; auto. rewrite Ei.
    destruct (Z.eq_dec l x) as [-> | Hlx].
    - rewrite Ex. lia.
    - rewrite Eo by arith. apply Hmax; auto. }
  destruct (Z.eq_dec u x) as [-> | Hux].
  { apply ordered_min; auto. rewrite Ex. rewrite Eo by arith.
    assert (O : ordered f x l) by (apply H1; auto).
    apply ordered_min in O; auto. lia. }
  destruct (Z.eq_dec l i) as [-> | Hli].
  { apply hole_max_into; auto; apply Eo; arith. }
  destruct (Z.eq_dec l x) as [-> | Hlx].
  { assert (C : is_child u i) by arith.
    assert (Lu : is_min_level u = true) by (apply (lvl_parent_of_max u i); auto).
    apply ordered_min; auto. rewrite Eo, Ex by arith.
    assert (O : ordered f u i) by (apply H1; auto; [ arith | left; exact C ]).
    apply ordered_min in O; auto. }
  apply (ordered_ext f); [ apply Eo; arith | apply Eo; arith | apply H1; auto ].
Qed.

Section Grandchild.

Variable c : Z.
Hypothesis Cc : is_child i c.
Hypothesis Cx : is_child c x.
Hypothesis Hlt : f i < f x.

Lemma hole_max_gchild_keep (f' : Z -> Z) :
  f c <= f i ->
  f' i = f x -> f' x = f i -> (forall k, 0 <= k -> k <> i -> k <> x -> f' k = f k) ->
  hole_max f' n x.
Proof.
  intros Hc Ei Ex Eo.
  pose proof Hole as [H1 H2].
  assert (Lc : is_min_level c = true) by (apply (lvl_child_of_max i c); auto).
  assert (Lx : is_min_level x = false) by (rewrite (lvl_child c x), Lc by arith; reflexivity).
  split.
  - intros u l Hu Hl Ha Hux.
    destruct (Z.eq_dec u i) as [-> | Hui].
    { apply ordered_max; auto. rewrite Ei.
      destruct (Z.eq_dec l x) as [-> | Hlx].
      - rewrite Ex. lia.
      - rewrite Eo by arith. apply Hmax; auto. }
    destruct (Z.eq_dec l i) as [-> | Hli].
    { apply hole_max_into; auto; apply Eo; arith. }
    destruct (Z.eq_dec l x) as [-> | Hlx].
    { assert (u = c) by arith. subst u.
      apply ordered_min; auto. rewrite Eo, Ex by arith. exact Hc. }
    apply (ordered_ext f); [ apply Eo; arith | apply Eo; arith | apply H1; auto ].
  - intros g l Hg Hl G Ha.
    assert (g = i) by arith. subst g.
    rewrite Ei, Eo by arith.
    assert (O : ordered f x l) by (apply H1; auto; arith).
    apply ordered_max in O; auto.
Qed.

Lemma hole_max_gchild_push (f' : Z -> Z) :
  f i < f c ->
  f' i = f x -> f' x = f c -> f' c = f i ->
  (forall k, 0 <= k -> k <> i -> k <> x -> k <> c -> f' k = f k) ->
  hole_max f' n x.
Proof.
  intros Hc Ei Ex Ec Eo.
  pose proof Hole as [H1 H2].
  assert (Lc : is_min_level c = true) by (apply (lvl_child_of_max i c); auto).
  assert (Lx : is_min_level x = false) by (rewrite (lvl_child c x), Lc by arith; reflexivity).
  assert (Hcn : c < n) by arith.
  assert (Hcx : f c <= f x) by (apply Hmax; auto; left; exact Cc).
  split.
  - intros u l Hu Hl Ha Hux.
    destruct (Z.eq_dec u i) as [-> | Hui].
    { apply ordered_max; auto. rewrite Ei.
      destruct (Z.eq_dec l x) as [-> | Hlx]; [ rewrite Ex; lia | ].
      destruct (Z.eq_dec l c) as [-> | Hlc]; [ rewrite Ec; lia | ].
      rewrite Eo by arith. apply Hmax; auto. }
    destruct (Z.eq_dec u c) as [-> | Huc].
    { apply ordered_min; auto. rewrite Ec.
      destruct (Z.eq_dec l x) as [-> | Hlx]; [ rewrite Ex; lia | ].
      rewrite Eo by arith.
      assert (O : ordered f c l) by (apply H1; auto; arith).
      apply ordered_min in O; auto. lia. }
    destruct (Z.eq_dec l i) as [-> | Hli].
    { apply hole_max_into; auto; apply Eo; arith. }
    destruct (Z.eq_dec l x) as [-> | Hlx].
    { exfalso. arith. }
    destruct (Z.eq_dec l c) as [-> | Hlc].
    { assert (C : is_child u i) by arith.
      assert (Lu : is_min_level u = true) by (apply (lvl_parent_of_max u i); auto).
      apply ordered_min; auto. rewrite Eo, Ec by arith.
      assert (O : ordered f u i) by (apply H1; auto; [ arith | left; exact C ]).
      apply ordered_min in O; auto. }
    apply (ordered_ext f); [ apply Eo; arith | apply Eo; arith | apply H1; auto ].
  - intros g l Hg Hl G Ha.
    assert (g = i) by arith. subst g.
    rewrite Ei, Eo by arith.
    assert (O : ordered f x l) by (apply H1; auto; arith).
    apply ordered_max in O; auto.
Qed.

End Grandchild.
End Largest.
End HoleMax.

(** Overwriting the larger root child with [v], after exchanging it with
    the root when [v] is below the root, leaves a heap that is in order
    except below that child. *)
Section RootChild.

Variables (f : Z -> Z) (n c v : Z).
Hypothesis L : mm_local f n.
Hypothesis Cc : is_child 0 c.
Hypothesis Hcn : c < n.

Lemma hole_max_replace (f' : Z -> Z) :
  f 0 <= v ->
  f' c = v -> (forall k, 0 <= k -> k <> c -> f' k = f k) ->
  hole_max f' n c.
Proof.
  intros Hv Ec Eo. split.
  - intros u l Hu Hl Ha Huc.
    destruct (Z.eq_dec l c) as [-> | Hlc].
    + assert (u = 0) by arith. subst u.
      apply ordered_min; [ reflexivity | ]. rewrite Eo, Ec by arith. exact Hv.
    + apply (ordered_ext f); [ apply Eo; arith | apply Eo; arith | apply L; auto ].
  - intros g l Hg Hl G Ha. exfalso. arith.
Qed.

Lemma hole_max_replace_root (f' : Z -> Z) :
  v < f 0 ->
  f' 0 = v -> f' c = f 0 -> (forall k, 0 <= k -> k <> 0 -> k <> c -> f' k = f k) ->
  hole_max f' n c.
Proof.
  intros Hv E0 Ec Eo. split.
  - intros u l Hu Hl Ha Huc.
    destruct (Z.eq_dec u 0) as [-> | Hu0].
    + apply ordered_min; [ reflexivity | ]. rewrite E0.
      destruct (Z.eq_dec l c) as [-> | Hlc]; [ rewrite Ec; lia | ].
      rewrite Eo by arith.
      assert (O : ordered f 0 l) by (apply L; auto).
      change (f 0 <= f l) in O. lia.
    + assert (l <> c) by arith.
      apply (ordered_ext f); [ apply Eo; arith | apply Eo; arith | apply L; auto ].
  - intros g l Hg Hl G Ha. exfalso. arith.
Qed.

End RootChild.

(** ** Repairing a heap above a node *)

Lemma hole_up_done (f : Z -> Z) (n j : Z) :
  hole_up f n j ->
  (forall g, 0 <= g -> is_gchild g j -> ordered f g j) ->
  mm_local f n.
Proof.
  intros [H1 H2] Hg u l Hu Hl Ha.
  destruct (Z.eq_dec l j) as [-> | Hlj].
  - destruct Ha as [C | G]; [ | apply Hg; auto ].
    apply H1; auto; [ left; exact C | ]. intros [G _]. arith.
  - apply H1; auto. intros [_ E]. contradiction.
Qed.

Lemma hole_up_swap (f f' : Z -> Z) (n j g : Z) :
  0 <= g -> is_gchild g j -> j < n ->
  hole_up f n j -> ~ ordered f g j ->
  f' g = f j -> f' j = f g ->
  (forall k, 0 <= k -> k <> g -> k <> j -> f' k = f k) ->
  hole_up f' n g.
Proof.
  intros Hg G Hjn [H1 H2] Hbad Eg Ej Eo.
  pose proof (lvl_gchild g j Hg G) as Lj.
  assert (Normal : forall u l, 0 <= u -> l < n -> above u l -> l <> j -> ordered f u l).
  { intros u l Hu Hl Ha Hlj. apply H1; auto. intros [_ E]. contradiction. }
  split.
  - intros u l Hu Hl Ha Hex.
    destruct (Z.eq_dec u g) as [-> | Hug].
    { destruct (Z.eq_dec l j) as [-> | Hlj].
      - unfold ordered in *. rewrite Eg, Ej. destruct (is_min_level g); lia.
      - assert (O : ordered f g l) by (apply Normal; auto).
        unfold ordered in *. rewrite Eg, (Eo l) by arith.
        destruct (is_min_level g); lia. }
    destruct (Z.eq_dec u j) as [-> | Huj].
    { assert (O : ordered f g l) by (apply H2; auto).
      unfold ordered in *. rewrite Ej, (Eo l) by arith. rewrite Lj. exact O. }
    destruct (Z.eq_dec l g) as [-> | Hlg].
    { assert (C : is_child u g).
      { destruct Ha as [C | G']; [ exact C | ]. exfalso. apply Hex. auto. }
      assert (O : ordered f u g) by (apply Normal; auto; arith).
      pose proof (lvl_child u g Hu C) as Lg.
      unfold ordered in *. rewrite Eg, (Eo u) by arith.
      destruct (is_min_level u), (is_min_level g); cbn in Lg; try discriminate; lia. }
    destruct (Z.eq_dec l j) as [-> | Hlj].
    { assert (C : is_child u j) by arith.
      assert (Cg : is_child g u) by arith.
      assert (O : ordered f g u) by (apply Normal; auto; [ arith | left; exact Cg ]).
      pose proof (lvl_child g u Hg Cg) as Lu.
      unfold ordered in *. rewrite Ej, (Eo u) by arith.
      destruct (is_min_level u), (is_min_level g); cbn in Lu; try discriminate; lia. }
    apply (ordered_ext f); [ apply Eo; arith | apply Eo; arith | apply Normal; auto ].
  - intros gg l Hgg Hl GG Ha.
    assert (Ogg : ordered f gg g) by (apply Normal; auto; [ arith | right; exact GG | arith ]).
    pose proof (lvl_gchild gg g Hgg GG) as Lg.
    destruct (Z.eq_dec l j) as [-> | Hlj].
    + unfold ordered in *. rewrite Ej, (Eo gg) by arith. exact Ogg.
    + assert (O : ordered f g l) by (apply Normal; auto).
      unfold ordered in *. rewrite (Eo gg), (Eo l) by arith.
      rewrite Lg in O. destruct (is_min_level gg); lia.
Qed.

(** The value appended at slot [n] is in order with its parent. *)
Lemma hole_up_append (f : Z -> Z) (n : Z) :
  mm_local f n ->
  (forall p, 0 <= p -> is_child p n -> ordered f p n) ->
  hole_up f (n + 1) n.
Proof.
  intros L Hp. split.
  - intros u l Hu Hl Ha Hex.
    destruct (Z.eq_dec l n) as [-> | Hln]; [ | apply L; auto; lia ].
    destruct Ha as [C | G]; [ apply Hp; auto | ].
    exfalso. apply Hex. auto.
  - intros g l Hg Hl G Ha. exfalso. arith.
Qed.

(** The value appended at slot [n] was out of order with its parent [p] and
    has been exchanged with it. *)
Lemma hole_up_append_parent (f f' : Z -> Z) (n p : Z) :
  mm_local f n -> 0 <= p -> is_child p n -> ~ ordered f p n ->
  f' p = f n -> f' n = f p ->
  (forall k, 0 <= k -> k <> p -> k <> n -> f' k = f k) ->
  hole_up f' (n + 1) p.
Proof.
  intros L Hp C Hbad Ep En Eo.
  pose proof (lvl_child p n Hp C) as Ln.
  split.
  - intros u l Hu Hl Ha Hex.
    destruct (Z.eq_dec u p) as [-> | Hup].
    { destruct (Z.eq_dec l n) as [-> | Hln].
      - unfold ordered in *. rewrite Ep, En. destruct (is_min_level p); lia.
      - assert (O : ordered f p l) by (apply L; auto; lia).
        unfold ordered in *. rewrite Ep, (Eo l) by arith.
        destruct (is_min_level p); lia. }
    destruct (Z.eq_dec u n) as [-> | Hun]; [ exfalso; arith | ].
    destruct (Z.eq_dec l p) as [-> | Hlp].
    { assert (Cu : is_child u p).
      { destruct Ha as [Cu | G']; [ exact Cu | ]. exfalso. apply Hex. auto. }
      assert (O : ordered f u p) by (apply L; auto; arith).
      pose proof (lvl_child u p Hu Cu) as Lp.
      unfold ordered in *. rewrite Ep, (Eo u) by arith.
      destruct (is_min_level u), (is_min_level p); cbn in Lp; try discriminate; lia. }
    destruct (Z.eq_dec l n) as [-> | Hln].
    { assert (Cu : is_child u p) by arith.
      assert (O : ordered f u p) by (apply L; auto; [ arith | left; exact Cu ]).
      unfold ordered in *. rewrite En, (Eo u) by arith. exact O. }
    apply (ordered_ext f); [ apply Eo; arith | apply Eo; arith | apply L; auto; lia ].
  - intros gg l Hgg Hl GG Ha.
    assert (Ogg : ordered f gg p) by (apply L; auto; [ arith | right; exact GG ]).
    pose proof (lvl_gchild gg p Hgg GG) as Lp.
    destruct (Z.eq_dec l n) as [-> | Hln].
    + unfold ordered in *. rewrite En, (Eo gg) by arith. exact Ogg.
    + assert (O : ordered f p l) by (apply L; auto; lia).
      unfold ordered in *. rewrite (Eo gg), (Eo l) by arith.
      rewrite Lp in O. destruct (is_min_level gg); lia.
Qed.

(** ** The largest child or grandchild *)

Ltac no_test t :=
  lazymatch t with
  | context [if _ then _ else _] => fail
  | _ => idtac
  end.

Ltac cases_on_tests :=
  repeat (match goal with
          | |- context [Z.leb ?x ?y] => destruct (Z.leb_spec x y)
          | |- context [Z.ltb ?x ?y] =>
              no_test x; no_test y; destruct (Z.ltb_spec x y)
          end; cbn [andb]).

Section Selection.

Variables (m : mem) (h i r : Z).
Hypothesis Hh : 0 <= h.
Hypothesis Hr : h + r < len m.
Hypothesis Hi : 0 <= i < 2 ^ 60.

Lemma and_then_gt_at (b : bool) (j k : Z) :
  (b = true -> 0 <= j <= r /\ 0 <= k <= r) ->
  and_then b (gt_at h j k) m = (Ret (b && (view m h k <? view m h j)), m).
Proof.
  intros H. destruct b; cbn; [ | reflexivity ].
  apply gt_at_ok; destruct (H eq_refl); lia.
Qed.

Lemma max_child_ok :
  2 * i + 1 <= r ->
  exists c, max_child h i r m = (Ret (true, c), m) /\
            is_child i c /\ c <= r /\
            forall c', is_child i c' -> c' <= r -> view m h c' <= view m h c.
Proof.
  intros Hc. unfold max_child.
  rewrite left_small, right_small by lia.
  destruct (Z.leb_spec (2 * i + 1) r) as [_ | Hn]; [ | lia ].
  erewrite run_bind; [ | apply and_then_gt_at; rewrite Z.leb_le; lia ].
  rewrite run_ret.
  eexists. split; [ reflexivity | ].
  cases_on_tests; (split; [ arith | split; [ lia | ] ]);
    intros c' [-> | ->] Hc'; lia.
Qed.

Lemma max_gchild_ok :
  (4 * i + 3 <= r ->
   exists g, max_gchild h i r m = (Ret (true, g), m) /\
             is_gchild i g /\ g <= r /\
             forall g', is_gchild i g' -> g' <= r -> view m h g' <= view m h g) /\
  (r < 4 * i + 3 -> max_gchild h i r m = (Ret (false, 0), m)).
Proof.
  assert (E1 : left (left i) = 4 * i + 3)
    by (rewrite (left_small i) by lia; rewrite left_small by lia; lia).
  assert (E2 : right (left i) = 4 * i + 4)
    by (rewrite (left_small i) by lia; rewrite right_small by lia; lia).
  assert (E3 : left (right i) = 4 * i + 5)
    by (rewrite (right_small i) by lia; rewrite left_small by lia; lia).
  assert (E4 : right (right i) = 4 * i + 6)
    by (rewrite (right_small i) by lia; rewrite right_small by lia; lia).
  unfold max_gchild. cbv zeta. rewrite E1, E2, E3, E4.
  split; intros Hg.
  - destruct (Z.leb_spec (4 * i + 3) r) as [_ | Hn]; [ | lia ].
    erewrite run_bind; [ | apply and_then_gt_at; rewrite Z.leb_le; lia ].
    cbv beta.
    erewrite run_bind;
      [ | apply and_then_gt_at; rewrite Z.leb_le; intros ?; split; [ lia | ];
          match goal with |- context [if ?b then _ else _] => destruct b end; lia ].
    cbv beta.
    erewrite run_bind;
      [ | apply and_then_gt_at; rewrite Z.leb_le; intros ?; split; [ lia | ];
          repeat match goal with |- context [if ?b then _ else _] => destruct b end;
          lia ].
    rewrite run_ret.
    eexists. split; [ reflexivity | ].
    cases_on_tests;
      (split; [ arith | split; [ lia | ] ]);
      intros g' [-> | [-> | [-> | ->]]] Hg'; lia.
  - destruct (Z.leb_spec (4 * i + 3) r) as [Hn | _]; [ lia | reflexivity ].
Qed.

Lemma max_child_or_gchild_ok :
  2 * i + 1 <= r ->
  exists x, max_child_or_gchild h i r m = (Ret (true, x), m) /\
            above i x /\ x <= r /\
            forall y, above i y -> y <= r -> view m h y <= view m h x.
Proof.
  intros Hc. unfold max_child_or_gchild.
  destruct (max_child_ok Hc) as [c [Ec [Cc [Hcr Mc]]]].
  rewrite (run_bind _ _ _ _ _ Ec). cbn [fst snd].
  destruct max_gchild_ok as [Gyes Gno].
  destruct (Z_le_gt_dec (4 * i + 3) r) as [Hg | Hg].
  - destruct (Gyes Hg) as [g [Eg [Gg [Hgr Mg]]]].
    rewrite (run_bind _ _ _ _ _ Eg). cbn [fst snd].
    erewrite run_bind; [ | apply and_then_gt_at; intros _; arith ].
    rewrite run_ret. cbn [andb].
    eexists. split; [ reflexivity | ].
    destruct (Z.ltb_spec (view m h c) (view m h g)) as [Hlt | Hge].
    + split; [ right; exact Gg | split; [ exact Hgr | ] ].
      intros y [Cy | Gy] Hy; [ specialize (Mc y Cy Hy); lia | apply Mg; auto ].
    + split; [ left; exact Cc | split; [ exact Hcr | ] ].
      intros y [Cy | Gy] Hy; [ apply Mc; auto | specialize (Mg y Gy Hy); lia ].
  - rewrite (run_bind _ _ _ _ _ (Gno ltac:(lia))). cbn [fst snd and_then].
    rewrite (run_bind _ _ _ _ _ (run_ret _ _)). rewrite run_ret.
    eexists. split; [ reflexivity | ].
    split; [ left; exact Cc | split; [ exact Hcr | ] ].
    intros y [Cy | Gy] Hy; [ apply Mc; auto | arith ].
Qed.

End Selection.

(** ** Sift-down from a max level *)

Section Exchange.

Variables (m : mem) (h p q : Z).
Hypothesis Hh : 0 <= h.
Hypothesis Hp : 0 <= p.
Hypothesis Hq : 0 <= q.
Hypothesis Hpb : h + p < len m.
Hypothesis Hqb : h + q < len m.

Lemma view_exchange_l :
  p <> q ->
  view (set (set m (h + p) (view m h q)) (h + q) (view m h p)) h p = view m h q.
Proof.
  intros Hne.
  rewrite view_set by (rewrite ?len_set; lia).
  destruct (Z.eqb_spec p q); [ contradiction | ].
  rewrite view_set by lia. rewrite Z.eqb_refl. reflexivity.
Qed.

Lemma view_exchange_r :
  view (set (set m (h + p) (view m h q)) (h + q) (view m h p)) h q = view m h p.
Proof.
  rewrite view_set by (rewrite ?len_set; lia).
  rewrite Z.eqb_refl. reflexivity.
Qed.

Lemma view_exchange_other (k : Z) :
  0 <= k -> k <> p -> k <> q ->
  view (set (set m (h + p) (view m h q)) (h + q) (view m h p)) h k = view m h k.
Proof.
  intros Hk Hkp Hkq.
  rewrite view_set by (rewrite ?len_set; lia).
  destruct (Z.eqb_spec k q); [ contradiction | ].
  rewrite view_set by lia.
  destruct (Z.eqb_spec k p); [ contradiction | reflexivity ].
Qed.

Lemma len_exchange :
  len (set (set m (h + p) (view m h q)) (h + q) (view m h p)) = len m.
Proof.
  rewrite !len_set. reflexivity.
Qed.

End Exchange.

Lemma fuel_step (i x r : Z) (fuel : nat) :
  0 <= i -> 4 * i + 3 <= x ->
  r + 1 < (i + 1) * 4 ^ Z.of_nat (S fuel) ->
  r + 1 < (x + 1) * 4 ^ Z.of_nat fuel.
Proof.
  intros Hi Hx H.
  rewrite Nat2Z.inj_succ, Z.pow_succ_r in H by lia.
  assert (P : 0 < 4 ^ Z.of_nat fuel) by (apply Z.pow_pos_nonneg; lia).
  nia.
Qed.

Lemma sift_down_max_loop_ok (fuel : nat) :
  forall (m : mem) (h i r : Z),
    0 <= h -> h + r < len m -> 0 <= i <= r -> r < 2 ^ 60 ->
    r + 1 < (i + 1) * 4 ^ Z.of_nat fuel ->
    is_min_level i = false ->
    hole_max (view m h) (r + 1) i ->
    exists m', sift_down_max_loop fuel h i r m = (Ret tt, m') /\
               len m' = len m /\
               mm_local (view m' h) (r + 1) /\
               Permutation (live m h (r + 1)) (live m' h (r + 1)).
Proof.
  induction fuel as [| fuel IH]; intros m h i r Hh Hr Hi Hr60 Hfuel Li Hole.
  { cbn in Hfuel. lia. }
  cbn [sift_down_max_loop]. rewrite left_small by lia.
  destruct (Z.leb_spec (2 * i + 1) r) as [Hc | Hleaf].
  2: { exists m. split; [ reflexivity | ]. split; [ reflexivity | ].
       split; [ | apply Permutation_refl ].
       apply (hole_max_leaf _ _ i); auto. lia. }
  destruct (max_child_or_gchild_ok m h i r Hh Hr ltac:(lia) Hc) as [x [Ex [Ax [Hxr Mx]]]].
  rewrite (run_bind _ _ _ _ _ Ex). cbn [snd].
  assert (Hx0 : 0 <= x) by arith.
  assert (Mx' : forall y, above i y -> y < r + 1 -> view m h y <= view m h x)
    by (intros y Hy Hyr; apply Mx; auto; lia).
  pose proof (gt_at_ok m h x i ltac:(lia) ltac:(lia)) as Egt.
  destruct (child i x) eqn:Ch; rewrite (run_bind _ _ _ _ _ Egt).
  - (* the largest is a child *)
    apply child_small in Ch; [ | lia ].
    destruct (Z.ltb_spec (view m h i) (view m h x)) as [Hlt | Hge].
    + rewrite swap_ok by lia.
      eexists. split; [ reflexivity | ].
      split; [ apply len_exchange | ].
      split.
      * apply (hole_max_child_swap (view m h) (r + 1) i) with (x := x); auto; try lia.
        -- apply view_exchange_r; lia.
        -- apply view_exchange_l; try lia. arith.
        -- intros k Hk Hki Hkx. apply view_exchange_other; lia.
      * apply live_exchange; try lia.
    + rewrite run_ret. exists m. split; [ reflexivity | ]. split; [ reflexivity | ].
      split; [ | apply Permutation_refl ].
      apply (hole_max_done (view m h) (r + 1) i) with (x := x); auto; lia.
  - (* the largest is a grandchild *)
    assert (Gx : is_gchild i x).
    { destruct Ax as [C | G]; [ | exact G ].
      apply child_small in C; [ congruence | lia ]. }
    destruct (Z.ltb_spec (view m h i) (view m h x)) as [Hlt | Hge].
    2: { rewrite run_ret. exists m. split; [ reflexivity | ]. split; [ reflexivity | ].
         split; [ | apply Permutation_refl ].
         apply (hole_max_done (view m h) (r + 1) i) with (x := x); auto; lia. }
    rewrite (run_bind _ _ _ _ _ (swap_ok m h x i ltac:(lia) ltac:(lia))).
    set (m1 := set (set m (h + x) (view m h i)) (h + i) (view m h x)).
    assert (Hm1 : len m1 = len m) by (apply len_exchange).
    set (c := (x - 1) / 2).
    assert (Cx : is_child c x).
    { unfold is_child, c.
      pose proof (Z.div_mod (x - 1) 2 ltac:(lia)).
      pose proof (Z.mod_pos_bound (x - 1) 2 ltac:(lia)). lia. }
    assert (Cc : is_child i c) by arith.
    assert (Hcr : 0 <= c <= r) by arith.
    assert (Hxi : x <> i) by arith.
    assert (V1x : view m1 h x = view m h i) by (apply view_exchange_l; lia).
    assert (V1i : view m1 h i = view m h x) by (apply view_exchange_r; lia).
    assert (V1o : forall k, 0 <= k -> k <> i -> k <> x -> view m1 h k = view m h k)
      by (intros k Hk Hki Hkx; apply view_exchange_other; lia).
    assert (P1 : Permutation (live m h (r + 1)) (live m1 h (r + 1)))
      by (apply live_exchange; lia).
    rewrite (run_bind _ _ _ _ _ (parent_small x m1 ltac:(arith))). fold c.
    rewrite (run_bind _ _ _ _ _ (lt_at_ok m1 h x c ltac:(lia) ltac:(lia))).
    rewrite V1x, (V1o c) by arith.
    assert (Lx : is_min_level x = false) by (rewrite (lvl_gchild i x); auto; lia).
    assert (Fx : r + 1 < (x + 1) * 4 ^ Z.of_nat fuel)
      by (apply (fuel_step i); auto; arith).
    destruct (Z.ltb_spec (view m h i) (view m h c)) as [Hpush | Hkeep]; cbv iota.
    + set (m2 := set (set m1 (h + x) (view m1 h c)) (h + c) (view m1 h x)).
      assert (Hm2 : len m2 = len m1) by (apply len_exchange).
      assert (Esw : (pm' <- parent x ;; swap h x pm') m1 = (Ret tt, m2)).
      { rewrite (run_bind _ _ _ _ _ (parent_small x m1 ltac:(arith))). fold c.
        apply swap_ok; lia. }
      rewrite (run_bind _ _ _ _ _ Esw).
      destruct (IH m2 h x r) as [m' [Em' [Hlen [Hheap Hperm]]]]; auto; try lia.
      * apply (hole_max_gchild_push (view m h) (r + 1) i) with (c := c); auto; try lia.
        -- unfold m2. rewrite view_exchange_other by (lia || arith). exact V1i.
        -- unfold m2. rewrite view_exchange_l by (lia || arith). apply V1o; arith.
        -- unfold m2. rewrite view_exchange_r by (lia || arith). exact V1x.
        -- intros k Hk Hki Hkx Hkc. unfold m2.
           rewrite view_exchange_other by (lia || arith). apply V1o; auto.
      * exists m'. split; [ exact Em' | ]. split; [ lia | ]. split; [ exact Hheap | ].
        eapply perm_trans; [ exact P1 | ].
        eapply perm_trans; [ | exact Hperm ].
        apply live_exchange; lia.
    + rewrite (run_bind _ _ _ _ _ (run_ret _ _)).
      destruct (IH m1 h x r) as [m' [Em' [Hlen [Hheap Hperm]]]]; auto; try lia.
      * apply (hole_max_gchild_keep (view m h) (r + 1) i) with (c := c); auto; lia.
      * exists m'. split; [ exact Em' | ]. split; [ lia | ]. split; [ exact Hheap | ].
        eapply perm_trans; [ exact P1 | exact Hperm ].
Qed.

(** ** Ripple-add on a full heap *)

Lemma mm_heap_small (f : Z -> Z) (n : Z) : n <= 1 -> mm_heap f n.
Proof.
  intros Hn i j Hi Hj D. pose proof (descendant_lt i j Hi D). lia.
Qed.

Lemma perm_overwrite (m : mem) (h n c v : Z) :
  0 <= h -> 0 <= c < n -> h + n <= len m ->
  Permutation (v :: live m h n) (view m h c :: live (set m (h + c) v) h n).
Proof.
  intros Hh Hc Hb. rewrite live_set by lia.
  rewrite <- (nth_live m h n c) by lia.
  apply perm_set_nth. rewrite length_live; lia.
Qed.

Lemma ripple_add_full (m : mem) (h cap v : Z) :
  0 <= h -> 1 <= cap <= 2 ^ 60 -> h + cap <= len m ->
  mm_heap (view m h) cap ->
  exists evicted m',
    mm_heap_ripple_add v h cap cap m = (Ret (cap, (true, evicted)), m') /\
    is_max_of (view m h) cap evicted /\
    mm_heap (view m' h) cap /\
    Permutation (v :: live m h cap) (evicted :: live m' h cap) /\
    len m' = len m.
Proof.
  intros Hh Hcap Hb Heap.
  pose proof (mm_heap_local _ _ Heap) as L.
  unfold mm_heap_ripple_add. rewrite Z.eqb_refl. cbn [negb].
  destruct (Z.gtb_spec cap 1) as [Hbig | Hone].
  - (* at least two elements *)
    rewrite (wrap_small (cap - 1)) by lia.
    destruct (max_child_ok m h 0 (cap - 1) Hh ltac:(lia) ltac:(lia) ltac:(lia))
      as [c [Ec [Cc [Hcr Mc]]]].
    assert (Hc : 1 <= c <= 2) by arith.
    assert (Em : (mc <- max_child h 0 (cap - 1) ;; ret (snd mc)) m = (Ret c, m))
      by (rewrite (run_bind _ _ _ _ _ Ec); reflexivity).
    rewrite (run_bind _ _ _ _ _ Em).
    rewrite (run_bind _ _ _ _ _ (rd_ok m (h + c) ltac:(lia))).
    rewrite (run_bind _ _ _ _ _ (wr_ok m (h + c) v ltac:(lia))).
    set (m1 := set m (h + c) v).
    assert (Hm1 : len m1 = len m) by apply len_set.
    assert (V1c : view m1 h c = v)
      by (unfold m1; rewrite view_set by lia; rewrite Z.eqb_refl; reflexivity).
    assert (V1o : forall k, 0 <= k -> k <> c -> view m1 h k = view m h k).
    { intros k Hk Hkc. unfold m1. rewrite view_set by lia.
      destruct (Z.eqb_spec k c); [ contradiction | reflexivity ]. }
    assert (P1 : Permutation (v :: live m h cap) (view m h c :: live m1 h cap))
      by (apply perm_overwrite; lia).
    assert (Lc : min_level c = false).
    { assert (c = 1 \/ c = 2) as [-> | ->] by lia; vm_compute; reflexivity. }
    assert (Lc' : is_min_level c = false).
    { assert (c = 1 \/ c = 2) as [-> | ->] by lia; vm_compute; reflexivity. }
    assert (Fuel : cap - 1 + 1 < (c + 1) * 4 ^ Z.of_nat LOOP_FUEL).
    { change (4 ^ Z.of_nat LOOP_FUEL) with (2 ^ 128). lia. }
    assert (Max : is_max_of (view m h) cap (view m h c)).
    { split; [ exists c; split; [ lia | reflexivity ] | ].
      apply (max_at_root_child (view m h) cap c); auto; [ lia | ].
      intros c' Hc' Hlt. apply Mc; auto. lia. }
    assert (E0 : (h0 <- rd (h + 0) ;; ret (v <? h0)) m1 = (Ret (v <? view m h 0), m1)).
    { rewrite (run_bind _ _ _ _ _ (rd_ok m1 (h + 0) ltac:(lia))).
      fold (view m1 h 0). rewrite V1o by lia. reflexivity. }
    assert (Rest : forall m2,
               len m2 = len m ->
               hole_max (view m2 h) cap c ->
               Permutation (live m1 h cap) (live m2 h cap) ->
               exists m',
                 (mmheap_sift_down h c (cap - 1) ;; ret (cap, (true, view m h c))) m2
                 = (Ret (cap, (true, view m h c)), m') /\
                 mm_heap (view m' h) cap /\
                 Permutation (v :: live m h cap) (view m h c :: live m' h cap) /\
                 len m' = len m).
    { intros m2 Hm2 Hole2 P2.
      unfold mmheap_sift_down. rewrite Lc. unfold mmheap_sift_down_max.
      replace cap with (cap - 1 + 1) in Hole2 by lia.
      destruct (sift_down_max_loop_ok LOOP_FUEL m2 h c (cap - 1))
        as [m' [Em' [Hlen [Hheap Hperm]]]]; auto; try lia.
      replace (cap - 1 + 1) with cap in * by lia.
      exists m'. rewrite (run_bind _ _ _ _ _ Em').
      split; [ reflexivity | ].
      split; [ apply mm_local_heap; exact Hheap | ].
      split; [ | lia ].
      eapply perm_trans; [ exact P1 | ].
      apply perm_skip. eapply perm_trans; [ exact P2 | exact Hperm ]. }
    exists (view m h c).
    destruct (Z.ltb_spec v (view m h 0)) as [Hlow | Hhigh].
    + (* the new value becomes the root *)
      set (m2 := set (set m1 (h + 0) (view m1 h c)) (h + c) (view m1 h 0)).
      destruct (Rest m2) as [m' [Em' [Hheap [Hperm Hlen]]]].
      * unfold m2. rewrite len_exchange. exact Hm1.
      * apply (hole_max_replace_root (view m h) cap c v); auto; try lia.
        -- unfold m2. rewrite view_exchange_l by lia. exact V1c.
        -- unfold m2. rewrite view_exchange_r by lia. apply V1o; lia.
        -- intros k Hk Hk0 Hkc. unfold m2.
           rewrite view_exchange_other by lia. apply V1o; lia.
      * apply live_exchange; lia.
      * exists m'. split; [ | auto ].
        unfold bind in *. rewrite E0.
        destruct (Z.ltb_spec v (view m h 0)) as [_ | Hn]; [ | lia ].
        rewrite (swap_ok m1 h 0 c) by lia. fold m2. exact Em'.
    + (* the root stays *)
      destruct (Rest m1) as [m' [Em' [Hheap [Hperm Hlen]]]].
      * exact Hm1.
      * apply (hole_max_replace (view m h) cap c v); auto; lia.
      * apply Permutation_refl.
      * exists m'. split; [ | auto ].
        unfold bind in *. rewrite E0.
        destruct (Z.ltb_spec v (view m h 0)) as [Hn | _]; [ lia | ].
        cbn [ret]. exact Em'.
  - (* a single element *)
    assert (cap = 1) by lia. subst cap.
    rewrite (run_bind _ _ _ _ _ (run_ret 0 m)).
    rewrite (run_bind _ _ _ _ _ (rd_ok m (h + 0) ltac:(lia))).
    rewrite (run_bind _ _ _ _ _ (wr_ok m (h + 0) v ltac:(lia))).
    rewrite (run_bind _ _ _ _ _ (run_ret tt _)). rewrite run_ret.
    exists (view m h 0), (set m (h + 0) v).
    split; [ reflexivity | ].
    split; [ | split; [ apply mm_heap_small; lia | split; [ | apply len_set ] ] ].
    + split; [ exists 0; split; [ lia | reflexivity ] | ].
      intros k Hk. assert (k = 0) by lia. subst k. lia.
    + apply perm_overwrite; lia.
Qed.

(** ** Adding below capacity *)

Lemma to_int_small (x : Z) : - 2 ^ 31 <= x < 2 ^ 31 -> to_int x = x.
Proof.
  intros H. unfold to_int. rewrite Z.mod_small by lia. lia.
Qed.

Lemma parent_is_child (i : Z) : 0 < i -> 0 <= (i - 1) / 2 /\ is_child ((i - 1) / 2) i.
Proof.
  intros H. unfold is_child.
  pose proof (Z.div_mod (i - 1) 2 ltac:(lia)).
  pose proof (Z.mod_pos_bound (i - 1) 2 ltac:(lia)).
  lia.
Qed.

Lemma gparent_is_gchild (i : Z) :
  2 < i -> 0 <= ((i - 1) / 2 - 1) / 2 /\ is_gchild (((i - 1) / 2 - 1) / 2) i.
Proof.
  intros H. unfold is_gchild.
  pose proof (Z.div_mod (i - 1) 2 ltac:(lia)).
  pose proof (Z.mod_pos_bound (i - 1) 2 ltac:(lia)).
  pose proof (Z.div_mod ((i - 1) / 2 - 1) 2 ltac:(lia)).
  pose proof (Z.mod_pos_bound ((i - 1) / 2 - 1) 2 ltac:(lia)).
  lia.
Qed.

Lemma gparent_small {S : Type} (i : Z) (s : S) :
  2 < i < 2 ^ 62 -> gparent i s = (Ret (((i - 1) / 2 - 1) / 2), s).
Proof.
  intros H. unfold gparent.
  destruct (Z.gtb_spec i 2) as [_ | Hn]; [ | lia ].
  rewrite (run_bind _ _ _ _ _ (parent_small i s ltac:(lia))).
  apply parent_small.
  pose proof (parent_is_child i ltac:(lia)) as [_ C]. arith.
Qed.

Lemma fuel_up (i g : Z) (fuel : nat) :
  0 <= g -> 4 * g + 3 <= i -> i + 1 < 4 ^ Z.of_nat (S fuel) -> g + 1 < 4 ^ Z.of_nat fuel.
Proof.
  intros Hg Hi H.
  rewrite Nat2Z.inj_succ, Z.pow_succ_r in H by lia. lia.
Qed.

Lemma loop_fuel_enough (i : Z) : i < 2 ^ 60 -> i + 1 < 4 ^ Z.of_nat LOOP_FUEL.
Proof.
  intros H. change (4 ^ Z.of_nat LOOP_FUEL) with (2 ^ 128). lia.
Qed.

Lemma restores_ret (h n : Z) (m : mem) : mm_local (view m h) n -> restores h n m (ret tt).
Proof.
  intros L. exists m. split; [ reflexivity | ]. split; [ reflexivity | ].
  split; [ exact L | apply Permutation_refl ].
Qed.

Lemma restores_step {A : Type} (h n : Z) (m : mem) (c : M mem A)
    (k : A -> M mem unit) (x : A) :
  c m = (Ret x, m) -> restores h n m (k x) -> restores h n m (bind c k).
Proof.
  intros E [m' [Em' R]]. exists m'. rewrite (run_bind _ _ _ _ _ E). auto.
Qed.

Lemma restores_swap_then (h n i j : Z) (m : mem) (k : M mem unit) :
  0 <= h -> 0 <= i < n -> 0 <= j < n -> h + n <= len m ->
  restores h n (set (set m (h + i) (view m h j)) (h + j) (view m h i)) k ->
  restores h n m (swap h i j ;; k).
Proof.
  intros Hh Hi Hj Hb [m' [Em' [Hlen [L Hperm]]]]. unfold restores.
  rewrite (run_bind _ _ _ _ _ (swap_ok m h i j ltac:(lia) ltac:(lia))).
  exists m'. split; [ exact Em' | ]. split; [ rewrite Hlen, !len_set; reflexivity | ].
  split; [ exact L | ].
  eapply perm_trans; [ apply (live_exchange m h n i j); lia | exact Hperm ].
Qed.

Section GrandparentStep.

Variables (m : mem) (h n j : Z).
Hypothesis Hh : 0 <= h.
Hypothesis Hj : 2 < j < n.
Hypothesis Hb : h + n <= len m.
Hypothesis Hole : hole_up (view m h) n j.

(** Node [j] is in order with its grandparent: nothing is left to repair. *)
Lemma grandparent_in_order :
  ordered (view m h) (((j - 1) / 2 - 1) / 2) j -> mm_local (view m h) n.
Proof.
  intros O. apply (hole_up_done _ n j); auto.
  intros g' Hg' G'.
  pose proof (gparent_is_gchild j ltac:(lia)) as [Hg G].
  assert (g' = ((j - 1) / 2 - 1) / 2) by arith. subst g'. exact O.
Qed.

(** Node [j] has been exchanged with its grandparent: the repair moves up. *)
Lemma grandparent_exchanged :
  ~ ordered (view m h) (((j - 1) / 2 - 1) / 2) j ->
  hole_up
    (view (set (set m (h + j) (view m h (((j - 1) / 2 - 1) / 2)))
               (h + ((j - 1) / 2 - 1) / 2) (view m h j)) h)
    n (((j - 1) / 2 - 1) / 2).
Proof.
  intros Hbad.
  pose proof (gparent_is_gchild j ltac:(lia)) as [Hg G].
  set (g := ((j - 1) / 2 - 1) / 2) in *.
  assert (Hgj : g < j) by arith.
  apply (hole_up_swap (view m h) _ n j g); auto; try lia.
  - apply view_exchange_r; lia.
  - apply view_exchange_l; lia.
  - intros k Hk Hkg Hkj. apply view_exchange_other; lia.
Qed.

End GrandparentStep.

Lemma bubble_up_min_loop_heap (fuel : nat) :
  forall (m : mem) (h n j : Z),
    0 <= h -> 0 <= j < n -> h + n <= len m -> n <= 2 ^ 60 ->
    j + 1 < 4 ^ Z.of_nat fuel ->
    is_min_level j = true ->
    hole_up (view m h) n j ->
    restores h n m (bubble_up_min_loop fuel h j).
Proof.
  induction fuel as [| fuel IH]; intros m h n j Hh Hj Hb Hn Hfuel Lj Hole.
  { cbn in Hfuel. lia. }
  cbn [bubble_up_min_loop]. unfold has_gparent.
  destruct (Z.gtb_spec j 2) as [Hg | Hg].
  2: { apply restores_ret. apply (hole_up_done _ n j); auto.
       intros g Hg0 G. exfalso. arith. }
  pose proof (gparent_is_gchild j Hg) as [Hg0 G].
  pose proof (grandparent_in_order m h n j) as Done.
  pose proof (grandparent_exchanged m h n j Hh ltac:(lia) Hb Hole) as Moved.
  set (g := ((j - 1) / 2 - 1) / 2) in *.
  assert (Hgj : g < j) by arith.
  assert (Lg : is_min_level g = true) by (rewrite <- (lvl_gchild g j); auto).
  eapply restores_step; [ apply gparent_small; lia | fold g ].
  eapply restores_step; [ apply lt_at_ok; lia | ].
  destruct (Z.ltb_spec (view m h j) (view m h g)) as [Hlt | Hge].
  - eapply restores_step; [ apply gparent_small; lia | fold g ].
    apply restores_swap_then; auto; try lia.
    eapply restores_step; [ apply gparent_small; lia | fold g ].
    apply IH; auto; try lia; [ rewrite !len_set; lia | apply (fuel_up j); auto; arith | ].
    apply Moved. intros O. apply ordered_min in O; auto. lia.
  - apply restores_ret. apply Done; auto; try lia.
    apply ordered_min; auto.
Qed.

Lemma bubble_up_max_loop_heap (fuel : nat) :
  forall (m : mem) (h n j : Z),
    0 <= h -> 0 <= j < n -> h + n <= len m -> n <= 2 ^ 31 ->
    j + 1 < 4 ^ Z.of_nat fuel ->
    is_min_level j = false ->
    hole_up (view m h) n j ->
    restores h n m (bubble_up_max_loop fuel h j).
Proof.
  induction fuel as [| fuel IH]; intros m h n j Hh Hj Hb Hn Hfuel Lj Hole.
  { cbn in Hfuel. lia. }
  cbn [bubble_up_max_loop]. rewrite (wrap_small j) by lia. unfold has_gparent.
  destruct (Z.gtb_spec j 2) as [Hg | Hg].
  2: { apply restores_ret. apply (hole_up_done _ n j); auto.
       intros g Hg0 G. exfalso. arith. }
  pose proof (gparent_is_gchild j Hg) as [Hg0 G].
  pose proof (grandparent_in_order m h n j) as Done.
  pose proof (grandparent_exchanged m h n j Hh ltac:(lia) Hb Hole) as Moved.
  set (g := ((j - 1) / 2 - 1) / 2) in *.
  assert (Hgj : g < j) by arith.
  assert (Lg : is_min_level g = false) by (rewrite <- (lvl_gchild g j); auto).
  eapply restores_step; [ apply gparent_small; lia | fold g ].
  eapply restores_step; [ apply gt_at_ok; lia | ].
  destruct (Z.ltb_spec (view m h g) (view m h j)) as [Hlt | Hge].
  - eapply restores_step; [ apply gparent_small; lia | fold g ].
    apply restores_swap_then; auto; try lia.
    eapply restores_step; [ apply gparent_small; lia | fold g ].
    rewrite to_int_small by lia.
    apply IH; auto; try lia; [ rewrite !len_set; lia | apply (fuel_up j); auto; arith | ].
    apply Moved. intros O. apply ordered_max in O; auto. lia.
  - apply restores_ret. apply Done; auto; try lia.
    apply ordered_max; auto.
Qed.

(** [bubble_up] on the slot just appended to a heap of [n] elements. *)
Lemma bubble_up_heap (m : mem) (h n : Z) :
  0 <= h -> 0 <= n < 2 ^ 31 -> h + n < len m ->
  mm_local (view m h) n ->
  restores h (n + 1) m (bubble_up h n).
Proof.
  intros Hh Hn Hb L. unfold bubble_up. rewrite (wrap_small n) by lia.
  rewrite min_level_spec by lia.
  unfold has_parent, and_then, bubble_up_min, bubble_up_max.
  assert (Same : (forall p, 0 <= p -> is_child p n -> ordered (view m h) p n) ->
                 forall b, is_min_level n = b ->
                 restores h (n + 1) m
                   (if b then bubble_up_min_loop LOOP_FUEL h n
                    else bubble_up_max_loop LOOP_FUEL h n)).
  { intros Hp b Lb. pose proof (hole_up_append _ n L Hp) as Hole.
    destruct b;
      [ apply bubble_up_min_loop_heap | apply bubble_up_max_loop_heap ];
      auto; try lia; apply loop_fuel_enough; lia. }
  destruct (Z.gtb_spec n 0) as [Hpos | Hzero].
  - pose proof (parent_is_child n Hpos) as [Hp0 C].
    set (p := (n - 1) / 2) in *.
    assert (Hpn : p < n) by arith.
    assert (Ep : forall m0 : mem, parent n m0 = (Ret p, m0))
      by (intros m0; apply parent_small; lia).
    pose proof (lvl_child p n Hp0 C) as Lp.
    assert (Uniq : ordered (view m h) p n ->
                   forall q, 0 <= q -> is_child q n -> ordered (view m h) q n).
    { intros O q Hq Cq. assert (q = p) by arith. subst q. exact O. }
    assert (Moved : ~ ordered (view m h) p n ->
                    hole_up
                      (view (set (set m (h + n) (view m h p)) (h + p) (view m h n)) h)
                      (n + 1) p).
    { intros Hbad.
      apply (hole_up_append_parent (view m h) _ n p); auto.
      - apply view_exchange_r; lia.
      - apply view_exchange_l; lia.
      - intros k Hk Hkp Hkn. apply view_exchange_other; lia. }
    destruct (is_min_level n) eqn:Ln.
    + assert (Lp' : is_min_level p = false)
        by (destruct (is_min_level p); [ discriminate | reflexivity ]).
      assert (E : (p0 <- parent n ;; gt_at h n p0) m = (Ret (view m h p <? view m h n), m)).
      { rewrite (run_bind _ _ _ _ _ (Ep m)). apply gt_at_ok; lia. }
      eapply restores_step; [ exact E | ].
      destruct (Z.ltb_spec (view m h p) (view m h n)) as [Hlt | Hge].
      * eapply restores_step; [ apply Ep | ].
        apply restores_swap_then; auto; try lia.
        eapply restores_step; [ apply Ep | ].
        rewrite to_int_small by lia.
        apply bubble_up_max_loop_heap; auto; try lia;
          [ rewrite !len_set; lia | apply loop_fuel_enough; lia | ].
        apply Moved. intros O. apply ordered_max in O; auto. lia.
      * apply (Same (Uniq ltac:(apply ordered_max; auto)) true eq_refl).
    + assert (Lp' : is_min_level p = true)
        by (destruct (is_min_level p); [ reflexivity | discriminate ]).
      assert (E : (p0 <- parent n ;; lt_at h n p0) m = (Ret (view m h n <? view m h p), m)).
      { rewrite (run_bind _ _ _ _ _ (Ep m)). apply lt_at_ok; lia. }
      eapply restores_step; [ exact E | ].
      destruct (Z.ltb_spec (view m h n) (view m h p)) as [Hlt | Hge].
      * eapply restores_step; [ apply Ep | ].
        apply restores_swap_then; auto; try lia.
        eapply restores_step; [ apply Ep | ].
        apply bubble_up_min_loop_heap; auto; try lia;
          [ rewrite !len_set; lia | apply loop_fuel_enough; lia | ].
        apply Moved. intros O. apply ordered_min in O; auto. lia.
      * apply (Same (Uniq ltac:(apply ordered_min; auto)) false eq_refl).
  - assert (n = 0) by lia. subst n.
    change (is_min_level 0) with true. cbv iota.
    eapply restores_step; [ apply run_ret | ]. cbv iota.
    apply (Same ltac:(intros p Hp C; exfalso; arith) true eq_refl).
Qed.

Lemma firstn_set_nth_beyond (l : mem) (n i : nat) (v : Z) :
  (n <= i)%nat -> firstn n (set_nth l i v) = firstn n l.
Proof.
  revert n i. induction l as [| x l IH]; intros [| n] [| i] H; cbn; try lia; auto.
  f_equal. apply IH. lia.
Qed.

Lemma firstn_snoc (l : mem) (n : nat) :
  (n < length l)%nat -> firstn (S n) l = firstn n l ++ [nth n l 0].
Proof.
  revert n. induction l as [| x l IH]; intros [| n] H; cbn in *; try lia; auto.
  f_equal. apply IH. lia.
Qed.

Lemma live_append (m : mem) (h n v : Z) :
  0 <= h -> 0 <= n -> h + n < len m ->
  live (set m (h + n) v) h (n + 1) = live m h n ++ [v].
Proof.
  intros Hh Hn Hb. unfold live, set.
  replace (Z.to_nat (h + n)) with (Z.to_nat h + Z.to_nat n)%nat by lia.
  rewrite skipn_set_nth.
  replace (Z.to_nat (n + 1)) with (S (Z.to_nat n)) by lia.
  rewrite firstn_snoc by (rewrite length_set_nth, length_skipn; unfold len in *; lia).
  rewrite firstn_set_nth_beyond by lia.
  rewrite nth_set_nth_eq by (rewrite length_skipn; unfold len in *; lia).
  reflexivity.
Qed.

Lemma mm_local_ext (f f' : Z -> Z) (n : Z) :
  (forall k, 0 <= k < n -> f' k = f k) -> mm_local f n -> mm_local f' n.
Proof.
  intros E L u l Hu Hl Ha.
  apply (ordered_ext f); [ apply E; arith | apply E; arith | apply L; auto ].
Qed.

Lemma mm_heap_add_ok (m : mem) (h n cap v : Z) :
  0 <= h -> 0 <= n < cap -> n < 2 ^ 31 -> h + cap <= len m ->
  mm_heap (view m h) n ->
  exists m', mm_heap_add v h n cap m = (Ret (n + 1), m') /\
             len m' = len m /\
             mm_heap (view m' h) (n + 1) /\
             Permutation (v :: live m h n) (live m' h (n + 1)).
Proof.
  intros Hh Hn Hint Hb Heap. unfold mm_heap_add.
  destruct (Z.ltb_spec n cap) as [_ | Hge]; [ | lia ].
  rewrite (run_bind _ _ _ _ _ (wr_ok m (h + n) v ltac:(lia))).
  rewrite (wrap_small (n + 1)) by lia.
  replace (n + 1 - 1) with n by lia.
  rewrite (wrap_small n) by lia. rewrite to_int_small by lia.
  destruct (bubble_up_heap (set m (h + n) v) h n) as [m' [Em' [Hlen [L Hperm]]]];
    auto; try lia; [ rewrite len_set; lia | | ].
  { apply (mm_local_ext (view m h)); [ | apply mm_heap_local; exact Heap ].
    intros k Hk. rewrite view_set by lia.
    destruct (Z.eqb_spec k n); [ lia | reflexivity ]. }
  rewrite (run_bind _ _ _ _ _ Em'). rewrite run_ret.
  exists m'. split; [ reflexivity | ]. split; [ rewrite Hlen; apply len_set | ].
  split; [ apply mm_local_heap; exact L | ].
  eapply perm_trans; [ | exact Hperm ].
  rewrite live_append by lia.
  apply Permutation_cons_append.
Qed.

(** C4: on a min-max heap of capacity at least 1, [mm_heap_ripple_add]
    below capacity is [mm_heap_add] followed by the answer "no overflow";
    as long as the index fits the [int] parameter of [bubble_up] that add
    returns with the count incremented, the new value among the old ones
    and the min-max invariant in place.  At capacity it answers
    [(true, evicted)] where [evicted] is the maximum of the heap before the
    call, leaves the count at the capacity, restores the min-max invariant,
    and the heap holds the old values with [evicted] replaced by the new
    value. *)
Theorem ripple_add_spec (m : mem) (h n cap v : Z) :
  0 <= h -> 1 <= cap <= 2 ^ 60 -> h + cap <= len m -> 0 <= n <= cap ->
  mm_heap (view m h) n ->
  (n < cap ->
     mm_heap_ripple_add v h n cap m =
       (count' <- mm_heap_add v h n cap ;; ret (count', (false, 0))) m /\
     (n < 2 ^ 31 ->
        exists m', mm_heap_add v h n cap m = (Ret (n + 1), m') /\
                   mm_heap_ripple_add v h n cap m = (Ret (n + 1, (false, 0)), m') /\
                   len m' = len m /\
                   mm_heap (view m' h) (n + 1) /\
                   Permutation (v :: live m h n) (live m' h (n + 1)))) /\
  (n = cap ->
     exists evicted m',
       mm_heap_ripple_add v h n cap m = (Ret (cap, (true, evicted)), m') /\
       is_max_of (view m h) cap evicted /\
       mm_heap (view m' h) cap /\
       Permutation (v :: live m h cap) (evicted :: live m' h cap) /\
       len m' = len m).
Proof.
  intros Hh Hcap Hb Hn Heap. split.
  - intros Hlt.
    assert (E : mm_heap_ripple_add v h n cap m =
                (count' <- mm_heap_add v h n cap ;; ret (count', (false, 0))) m).
    { unfold mm_heap_ripple_add.
      destruct (Z.eqb_spec n cap) as [Heq | _]; [ lia | reflexivity ]. }
    split; [ exact E | ].
    intros Hint.
    destruct (mm_heap_add_ok m h n cap v) as [m' [Em' [Hlen [Hheap Hperm]]]];
      auto; try lia.
    exists m'. split; [ exact Em' | ].
    split; [ | split; [ exact Hlen | split; [ exact Hheap | exact Hperm ] ] ].
    rewrite E. rewrite (run_bind _ _ _ _ _ Em'). reflexivity.
  - intros ->. apply ripple_add_full; auto.
Qed.

Lemma ripple_add_spec_witness :
  mm_heap (view [1; 9; 5] 0) 3 /\
  exists evicted m',
    mm_heap_ripple_add 4 0 3 3 [1; 9; 5] = (Ret (3, (true, evicted)), m') /\
    is_max_of (view [1; 9; 5] 0) 3 evicted /\
    mm_heap (view m' 0) 3 /\
    Permutation (4 :: live [1; 9; 5] 0 3) (evicted :: live m' 0 3) /\
    len m' = len [1; 9; 5].
Proof.
  assert (H : mm_heap (view [1; 9; 5] 0) 3).
  { apply mm_local_heap, mm_local_b_sound. vm_compute. reflexivity. }
  split; [ exact H | ].
  assert (B : 0 + 3 <= len [1; 9; 5]) by (vm_compute; discriminate).
  destruct (ripple_add_spec [1; 9; 5] 0 3 3 4 ltac:(lia) ltac:(lia) B ltac:(lia) H)
    as [_ F].
  exact (F eq_refl).
Defined.

(** The eviction of the witness, evaluated: 9 leaves, 4 enters. *)
Example ripple_add_example :
  mm_heap_ripple_add 4 0 3 3 [1; 9; 5] = (Ret (3, (true, 9)), [1; 4; 5]).
Proof.
  vm_compute. reflexivity.
Qed.

(** * Storage squareness *)

Lemma keeps_ret {A : Type} (x : A) : keeps_storage (ret x).
Proof.
  intros h r h' E. inversion E. reflexivity.
Qed.

Lemma keeps_throw {A : Type} (e : exn) : keeps_storage (throw (A := A) e).
Proof.
  intros h r h' E. inversion E. reflexivity.
Qed.

Lemma keeps_diverge {A : Type} : keeps_storage (diverge (A := A)).
Proof.
  intros h r h' E. inversion E. reflexivity.
Qed.

Lemma keeps_gets {A : Type} (f : HeapArray -> A) : keeps_storage (gets f).
Proof.
  intros h r h' E. inversion E. reflexivity.
Qed.

Lemma keeps_on_buffer {A : Type} (c : M mem A) : keeps_storage (on_buffer c).
Proof.
  intros h r h' E. unfold on_buffer in E.
  destruct (c (a h)) as [r0 m']. inversion E. reflexivity.
Qed.

Lemma keeps_set_count (f : HeapArray -> Z) :
  keeps_storage (modify (fun h => set_count h (f h))).
Proof.
  intros h r h' E. inversion E. reflexivity.
Qed.

Lemma keeps_bind {A B : Type} (c : M HeapArray A) (k : A -> M HeapArray B) :
  keeps_storage c -> (forall x, keeps_storage (k x)) -> keeps_storage (bind c k).
Proof.
  intros Hc Hk h r h' E. unfold bind in E.
  destruct (c h) as [r0 h0] eqn:E0. specialize (Hc _ _ _ E0).
  destruct r0; try (inversion E; subst; exact Hc).
  rewrite <- Hc. eapply Hk. exact E.
Qed.

Lemma keeps_fuel {A : Type} (f : HeapArray -> nat) (c : nat -> M HeapArray A) :
  (forall n, keeps_storage (c n)) -> keeps_storage (fun h => c (f h) h).
Proof.
  intros H h r h' E. eapply H. exact E.
Qed.

Ltac keeps_with known :=
  repeat first
    [ known
    | apply keeps_ret | apply keeps_throw | apply keeps_diverge | apply keeps_gets
    | apply keeps_on_buffer | apply keeps_set_count
    | apply keeps_bind; [ | intros ]
    | match goal with
      | |- keeps_storage (if ?b then _ else _) => destruct b
      | |- keeps_storage (and_then ?b _) => unfold and_then
      | |- keeps_storage (let '(_, _) := ?p in _) => destruct p
      | |- keeps_storage (match ?p with (_, _) => _ end) => destruct p
      end ].

Ltac keeps := keeps_with fail.

Lemma keeps_max_in_partition (p : Z) : keeps_storage (_max_in_partition p).
Proof.
  unfold _max_in_partition. keeps.
Qed.

Lemma keeps_range_in_partition (p : Z) : keeps_storage (_range_in_partition p).
Proof.
  unfold _range_in_partition. keeps.
Qed.

Lemma keeps_partition_matches (value : Z) (for_insert : bool) (mid : Z) (range : Z * Z) :
  keeps_storage (partition_matches value for_insert mid range).
Proof.
  unfold partition_matches. keeps_with ltac:(apply keeps_max_in_partition).
Qed.

Lemma keeps_find_partition_loop (fuel : nat) (value : Z) (for_insert : bool) :
  forall left right, keeps_storage (find_partition_loop fuel value for_insert left right).
Proof.
  induction fuel as [| fuel IH]; intros left right; cbn [find_partition_loop];
    keeps_with ltac:(first [ apply IH | apply keeps_range_in_partition
                           | apply keeps_partition_matches ]).
Qed.

Lemma keeps_find_partition (value : Z) (for_insert : bool) :
  keeps_storage (_find_partition value for_insert).
Proof.
  unfold _find_partition. keeps_with ltac:(apply keeps_find_partition_loop).
Qed.

Lemma keeps_find_loop (fuel : nat) (value p_end : Z) :
  forall i, keeps_storage (find_loop fuel value i p_end).
Proof.
  induction fuel as [| fuel IH]; intros i; cbn [find_loop]; keeps_with ltac:(apply IH).
Qed.

Lemma keeps_find (value : Z) : keeps_storage (_find value).
Proof.
  unfold _find.
  keeps_with ltac:(first
    [ apply keeps_find_partition
    | apply (keeps_fuel (fun h => (2 + length (a h))%nat)
               (fun n => find_loop n value _ _));
      intros n; apply keeps_find_loop ]).
Qed.

Lemma keeps_insert_loop (fuel : nat) :
  forall value partition, keeps_storage (insert_loop fuel value partition).
Proof.
  induction fuel as [| fuel IH]; intros value partition; cbn [insert_loop];
    keeps_with ltac:(apply IH).
Qed.

Lemma keeps_remove_loop (fuel : nat) (partition : Z) :
  forall ripple p, keeps_storage (remove_loop fuel ripple p partition).
Proof.
  induction fuel as [| fuel IH]; intros ripple p; cbn [remove_loop];
    keeps_with ltac:(apply IH).
Qed.

Lemma keeps_remove (value : Z) : keeps_storage (remove value).
Proof.
  unfold remove.
  keeps_with ltac:(first
    [ apply keeps_find
    | apply (keeps_fuel (fun h => (2 + length (a h))%nat)
               (fun n => remove_loop n _ _ _));
      intros n; apply keeps_remove_loop ]).
Qed.

Lemma keeps_square_of_keeps {A : Type} (c : M HeapArray A) :
  keeps_storage c -> keeps_square c.
Proof.
  intros H h r h' E S. rewrite (H _ _ _ E). exact S.
Qed.

Lemma keeps_square_bind {A B : Type} (c : M HeapArray A) (k : A -> M HeapArray B) :
  keeps_square c -> (forall x, keeps_square (k x)) -> keeps_square (bind c k).
Proof.
  intros Hc Hk h r h' E S. unfold bind in E.
  destruct (c h) as [r0 h0] eqn:E0. specialize (Hc _ _ _ E0 S).
  destruct r0; try (inversion E; subst; exact Hc).
  eapply Hk; eauto.
Qed.

(** ** The square root in double precision *)

Lemma to_double_exact (n : Z) : n < 2 ^ 53 -> to_double n = n.
Proof.
  intros H. unfold to_double.
  destruct (Z.ltb_spec n (2 ^ 53)); [ reflexivity | lia ].
Qed.

Lemma to_double_rounded (n : Z) :
  2 ^ 53 <= n -> 2 ^ Z.log2 n <= to_double n <= 2 ^ (Z.log2 n + 1).
Proof.
  intros H. unfold to_double.
  destruct (Z.ltb_spec n (2 ^ 53)) as [ | _ ]; [ lia | ].
  assert (Hl : 53 <= Z.log2 n) by (apply Z.log2_le_pow2; lia).
  set (s := Z.log2 n - 52).
  assert (Hs : 0 < s) by (unfold s; lia).
  pose proof (Z.log2_spec n ltac:(lia)) as [Lo Hi]. unfold Z.succ in Hi.
  assert (P : 0 < 2 ^ s) by (apply Z.pow_pos_nonneg; lia).
  assert (E1 : 2 ^ Z.log2 n = 2 ^ 52 * 2 ^ s).
  { rewrite <- Z.pow_add_r by lia. f_equal. unfold s. lia. }
  assert (E2 : 2 ^ (Z.log2 n + 1) = 2 ^ 53 * 2 ^ s).
  { rewrite <- Z.pow_add_r by lia. f_equal. unfold s. lia. }
  set (m := Z.shiftr n s).
  assert (Hm : 2 ^ 52 <= m < 2 ^ 53).
  { unfold m. rewrite Z.shiftr_div_pow2 by lia. split.
    - apply Z.div_le_lower_bound; lia.
    - apply Z.div_lt_upper_bound; lia. }
  rewrite E1, E2.
  match goal with |- context [Z.shiftl ?x s] =>
    assert (Hx : 2 ^ 52 <= x <= 2 ^ 53) by (destruct (_ || _); lia); generalize dependent x
  end.
  intros x Hx. rewrite Z.shiftl_mul_pow2 by lia. nia.
Qed.

Lemma to_double_range (n : Z) : 0 <= n < 2 ^ 64 -> 0 <= to_double n <= 2 ^ 64.
Proof.
  intros H. destruct (Z_lt_le_dec n (2 ^ 53)) as [Hs | Hl].
  - rewrite to_double_exact by exact Hs. lia.
  - pose proof (to_double_rounded n Hl) as [Lo Hi].
    assert (Z.log2 n < 64) by (apply Z.log2_lt_pow2; lia).
    assert (0 < 2 ^ Z.log2 n) by (apply Z.pow_pos_nonneg; [ lia | apply Z.log2_nonneg ]).
    assert (2 ^ (Z.log2 n + 1) <= 2 ^ 64)
      by (apply Z.pow_le_mono_r; lia).
    lia.
Qed.

Lemma to_double_large (n : Z) : 2 ^ 52 <= n -> 2 ^ 52 <= to_double n.
Proof.
  intros H. destruct (Z_lt_le_dec n (2 ^ 53)) as [Hs | Hl].
  - rewrite to_double_exact by exact Hs. exact H.
  - pose proof (to_double_rounded n Hl) as [Lo _].
    assert (53 <= Z.log2 n) by (apply Z.log2_le_pow2; lia).
    assert (2 ^ 52 <= 2 ^ Z.log2 n) by (apply Z.pow_le_mono_r; lia).
    lia.
Qed.

(** Rounding the root of [n * T * T] to the nearest integer, for a scale [T]
    above the integer root [k] of [n], gives a multiple of [1/T] within the
    unit interval of [k], at its lower end only when [n] is a square. *)
Lemma nearest_root (n k T : Z) :
  0 <= k -> k * k <= n < (k + 1) * (k + 1) -> k < T ->
  let s := n * (T * T) in
  let q := if s <=? Z.sqrt s * Z.sqrt s + Z.sqrt s then Z.sqrt s else Z.sqrt s + 1 in
  k * T <= q < (k + 1) * T /\ (k * k = n -> q = k * T) /\ (k * k < n -> k * T < q).
Proof.
  intros Hk Hn HT s q.
  assert (Hs : 0 <= s) by (unfold s; nia).
  pose proof (Z.sqrt_spec s Hs) as R. unfold Z.succ in R.
  pose proof (Z.sqrt_nonneg s) as N.
  set (r := Z.sqrt s) in *.
  assert (Lo : k * T <= r).
  { apply Z.sqrt_le_square; [ exact Hs | nia | ]. unfold s. nia. }
  assert (Hi : r < (k + 1) * T).
  { apply Z.sqrt_lt_square; [ exact Hs | nia | ]. unfold s. nia. }
  assert (Up : s <= (k + 1) * (k + 1) * (T * T) - T * T) by (unfold s; nia).
  assert (Q : q = r \/ (q = r + 1 /\ r * r + r < s)).
  { unfold q. destruct (Z.leb_spec s (r * r + r)); [ left; reflexivity | right; lia ]. }
  split; [ | split ].
  - destruct Q as [-> | [-> G]]; [ lia | ].
    split; [ lia | ].
    destruct (Z.eq_dec (r + 1) ((k + 1) * T)) as [E | E]; [ | lia ].
    exfalso. assert (r = (k + 1) * T - 1) by lia. subst r. nia.
  - intros E. assert (Es : s = k * T * (k * T)) by (unfold s; nia).
    assert (r = k * T).
    { unfold r. rewrite Es. apply Z.sqrt_square. nia. }
    destruct Q as [-> | [_ G]]; [ assumption | nia ].
  - intros L. destruct Q as [E | [E G]]; [ | lia ].
    destruct (Z.eq_dec r (k * T)) as [E' | E']; [ | lia ].
    exfalso. unfold q in E.
    destruct (Z.leb_spec s (r * r + r)) as [G | G]; [ | lia ].
    assert (k * T * (k * T) + T * T <= s) by (unfold s; nia). nia.
Qed.

(** Below 2^52 the scale of the rounded root is above the integer root. *)
Lemma sqrt_double_small (n : Z) :
  0 < n < 2 ^ 52 ->
  exists T, Z.sqrt n < T /\ 0 <= snd (sqrt_double n) /\ T = 2 ^ snd (sqrt_double n) /\
            fst (sqrt_double n) =
            (let s := n * (T * T) in
             if s <=? Z.sqrt s * Z.sqrt s + Z.sqrt s then Z.sqrt s else Z.sqrt s + 1).
Proof.
  intros H. unfold sqrt_double.
  destruct (Z.leb_spec n 0) as [ | _ ]; [ lia | ].
  assert (Hl : Z.log2 n < 52) by (apply Z.log2_lt_pow2; lia).
  pose proof (Z.log2_nonneg n) as Hl0.
  set (t := 52 - Z.log2 n / 2).
  assert (Ht : 27 <= t)
    by (assert (Z.log2 n / 2 < 26) by (apply Z.div_lt_upper_bound; lia); unfold t; lia).
  exists (2 ^ t). cbn [fst snd].
  assert (Hk : Z.sqrt n < 2 ^ 26) by (apply Z.sqrt_lt_square; lia).
  assert (2 ^ 27 <= 2 ^ t) by (apply Z.pow_le_mono_r; lia).
  split; [ lia | ]. split; [ lia | ]. split; [ reflexivity | ].
  rewrite Z.shiftl_mul_pow2 by lia.
  replace (2 ^ (2 * t)) with (2 ^ t * 2 ^ t)
    by (rewrite <- Z.pow_add_r by lia; f_equal; lia).
  reflexivity.
Qed.

Lemma floor_sqrt_exact (n : Z) : 0 <= n < 2 ^ 52 -> floor_sqrt n = Z.sqrt n.
Proof.
  intros H. unfold floor_sqrt. rewrite to_double_exact by lia.
  destruct (Z.eq_dec n 0) as [-> | Hn]; [ reflexivity | ].
  destruct (sqrt_double_small n ltac:(lia)) as (T & HT & Ht & ET & Eq).
  pose proof (Z.sqrt_spec n ltac:(lia)) as R. unfold Z.succ in R.
  pose proof (nearest_root n (Z.sqrt n) T (Z.sqrt_nonneg n) R HT) as [B _].
  cbv zeta in B, Eq. rewrite <- Eq in B.
  rewrite Z.shiftr_div_pow2 by exact Ht. rewrite <- ET.
  symmetry. apply Z.div_unique with (r := fst (sqrt_double n) - Z.sqrt n * T); lia.
Qed.

Lemma ceil_sqrt_exact (n : Z) :
  0 <= n < 2 ^ 52 ->
  ceil_sqrt n = if Z.sqrt n * Z.sqrt n =? n then Z.sqrt n else Z.sqrt n + 1.
Proof.
  intros H. unfold ceil_sqrt. rewrite to_double_exact by lia.
  destruct (Z.eq_dec n 0) as [-> | Hn]; [ reflexivity | ].
  destruct (sqrt_double_small n ltac:(lia)) as (T & HT & Ht & ET & Eq).
  pose proof (Z.sqrt_spec n ltac:(lia)) as R. unfold Z.succ in R.
  pose proof (Z.sqrt_nonneg n) as N.
  pose proof (nearest_root n (Z.sqrt n) T N R HT) as (B & Sq & Ns).
  cbv zeta in B, Sq, Ns, Eq. rewrite <- Eq in B, Sq, Ns.
  rewrite Z.shiftr_div_pow2 by exact Ht. rewrite <- ET.
  set (q := fst (sqrt_double n)) in *. set (k := Z.sqrt n) in *.
  destruct (Z.eqb_spec (k * k) n) as [E | E].
  - rewrite (Sq E). replace (- (k * T)) with (- k * T) by lia.
    rewrite Z.div_mul by lia. lia.
  - assert (L : k * T < q) by (apply Ns; lia).
    assert (- q / T = - (k + 1)); [ | lia ].
    symmetry. apply Z.div_unique with (r := (k + 1) * T - q); lia.
Qed.

Lemma ceil_sqrt_bound (n : Z) : 0 <= n < 2 ^ 64 -> 0 <= ceil_sqrt n <= 2 ^ 32.
Proof.
  intros H. pose proof (to_double_range n H) as D.
  unfold ceil_sqrt, sqrt_double.
  destruct (Z.leb_spec (to_double n) 0) as [ | Hd ]; [ cbn; lia | ].
  set (d := to_double n) in *. cbn [fst snd].
  assert (Hl : Z.log2 d <= 64).
  { pose proof (Z.log2_le_mono d (2 ^ 64) ltac:(lia)) as L.
    rewrite Z.log2_pow2 in L by lia. exact L. }
  pose proof (Z.log2_nonneg d) as Hl0.
  set (t := 52 - Z.log2 d / 2).
  assert (Ht : 0 <= t)
    by (assert (Z.log2 d / 2 < 33) by (apply Z.div_lt_upper_bound; lia); unfold t; lia).
  rewrite Z.shiftl_mul_pow2 by lia.
  replace (2 ^ (2 * t)) with (2 ^ t * 2 ^ t)
    by (rewrite <- Z.pow_add_r by lia; f_equal; lia).
  rewrite Z.shiftr_div_pow2 by exact Ht.
  assert (P : 0 < 2 ^ t) by (apply Z.pow_pos_nonneg; lia).
  set (T := 2 ^ t) in *. set (s := d * (T * T)).
  assert (Hs : 0 <= s) by (unfold s; nia).
  pose proof (Z.sqrt_spec s Hs) as R. unfold Z.succ in R.
  pose proof (Z.sqrt_nonneg s) as N.
  assert (Hr : Z.sqrt s <= 2 ^ 32 * T).
  { destruct (Z_le_gt_dec (Z.sqrt s) (2 ^ 32 * T)) as [ | G ]; [ assumption | exfalso ].
    assert (2 ^ 32 * T * (2 ^ 32 * T) < Z.sqrt s * Z.sqrt s) by nia.
    assert (s <= 2 ^ 64 * (T * T)) by (unfold s; nia). nia. }
  set (r := Z.sqrt s) in *.
  assert (Hq : 0 <= (if s <=? r * r + r then r else r + 1) <= 2 ^ 32 * T).
  { destruct (Z.leb_spec s (r * r + r)) as [G | G]; [ lia | ].
    split; [ lia | ].
    destruct (Z.eq_dec r (2 ^ 32 * T)) as [E | E]; [ exfalso | lia ].
    assert (s <= 2 ^ 64 * (T * T)) by (unfold s; nia). nia. }
  generalize dependent (if s <=? r * r + r then r else r + 1). intros q Hq.
  assert (- 2 ^ 32 <= - q / T).
  { apply Z.div_le_lower_bound; lia. }
  assert (- q / T <= 0).
  { apply Z.div_le_upper_bound; lia. }
  lia.
Qed.

(** From 2^52 on the rounded root is at least 2^26, whatever the scale. *)
Lemma floor_sqrt_large (n : Z) : 2 ^ 52 <= n -> 2 ^ 26 <= floor_sqrt n.
Proof.
  intros H. pose proof (to_double_large n H) as D.
  unfold floor_sqrt, sqrt_double.
  destruct (Z.leb_spec (to_double n) 0) as [ | Hd ]; [ lia | ].
  set (d := to_double n) in *. cbn [fst snd].
  assert (Hl : 52 <= Z.log2 d) by (apply Z.log2_le_pow2; lia).
  pose proof (Z.log2_spec d Hd) as [Lo _].
  set (t := 52 - Z.log2 d / 2).
  set (s := Z.shiftl d (2 * t)).
  assert (Hq : forall q, Z.sqrt s <= q -> 2 ^ 26 <= Z.shiftr q t).
  { intros q Hq. destruct (Z_le_gt_dec 0 t) as [Ht | Ht].
    - assert (P : 0 < 2 ^ t) by (apply Z.pow_pos_nonneg; lia).
      assert (Es : s = d * (2 ^ t * 2 ^ t)).
      { unfold s. rewrite Z.shiftl_mul_pow2 by lia. f_equal.
        rewrite <- Z.pow_add_r by lia. f_equal. lia. }
      assert (2 ^ 26 * 2 ^ t <= Z.sqrt s).
      { apply Z.sqrt_le_square; [ nia | nia | ]. rewrite Es. nia. }
      rewrite Z.shiftr_div_pow2 by exact Ht.
      apply Z.div_le_lower_bound; lia.
    - set (u := - t). assert (Hu : 0 < u) by (unfold u; lia).
      assert (Es : s = d / 2 ^ (2 * u)).
      { unfold s. replace (2 * t) with (- (2 * u)) by (unfold u; lia).
        rewrite Z.shiftl_opp_r. apply Z.shiftr_div_pow2. lia. }
      assert (P : 0 < 2 ^ (2 * u)) by (apply Z.pow_pos_nonneg; lia).
      assert (Hs : 2 ^ 52 <= s).
      { rewrite Es. apply Z.div_le_lower_bound; [ exact P | ].
        rewrite <- Z.pow_add_r by lia.
        apply Z.le_trans with (2 ^ Z.log2 d); [ | exact Lo ].
        apply Z.pow_le_mono_r; [ lia | ].
        pose proof (Z.mul_div_le (Z.log2 d) 2 ltac:(lia)). unfold u, t. lia. }
      assert (2 ^ 26 <= Z.sqrt s).
      { apply Z.sqrt_le_square; lia. }
      replace t with (- u) by (unfold u; lia).
      rewrite Z.shiftr_opp_r, Z.shiftl_mul_pow2 by lia.
      assert (1 <= 2 ^ u) by (apply (Z.pow_le_mono_r 2 0 u); lia).
      nia. }
  destruct (s <=? Z.sqrt s * Z.sqrt s + Z.sqrt s); apply Hq; lia.
Qed.

Lemma rounded_square (n : Z) :
  0 <= n < 2 ^ 64 -> perfect_square (wrap (ceil_sqrt n * ceil_sqrt n)).
Proof.
  intros H. pose proof (ceil_sqrt_bound n H) as B.
  destruct (Z.eq_dec (ceil_sqrt n) (2 ^ 32)) as [E | E].
  - rewrite E. exists 0. split; [ lia | reflexivity ].
  - exists (ceil_sqrt n). split; [ lia | ].
    apply wrap_small. nia.
Qed.

Lemma wrap_range (x : Z) : 0 <= wrap x < 2 ^ 64.
Proof.
  unfold wrap. apply Z.mod_pos_bound. lia.
Qed.

Lemma square_zero : perfect_square 0.
Proof.
  exists 0. split; [ lia | reflexivity ].
Qed.

Lemma keeps_square_resize (fresh : nat -> Z) (n : Z) :
  0 <= n < 2 ^ 64 -> keeps_square (_resize fresh n true).
Proof.
  intros Hn h r h' E S. unfold _resize in E.
  destruct (fixed h); [ inversion E; subst; exact S | ].
  destruct (n >? 0).
  - destruct (a h) as [| x l].
    + inversion E. cbn. apply rounded_square. exact Hn.
    + match type of E with
      | (if ?b then _ else _) = _ => destruct b
      end; inversion E; subst; [ cbn; apply rounded_square; exact Hn | exact S ].
  - inversion E. cbn. apply square_zero.
Qed.

Lemma keeps_square_grow (fresh : nat -> Z) : keeps_square (_grow fresh).
Proof.
  unfold _grow. apply keeps_square_bind.
  - apply keeps_square_of_keeps. apply keeps_gets.
  - intros s. apply keeps_square_resize. apply wrap_range.
Qed.

Lemma keeps_square_insert (fresh : nat -> Z) (value : Z) :
  keeps_square (insert fresh value).
Proof.
  unfold insert.
  apply keeps_square_bind; [ apply keeps_square_of_keeps, keeps_gets | intros c ].
  apply keeps_square_bind; [ apply keeps_square_of_keeps, keeps_gets | intros s ].
  apply keeps_square_bind; [ | intros _ ].
  { destruct (c =? s); [ | apply keeps_square_of_keeps, keeps_ret ].
    apply keeps_square_bind; [ apply keeps_square_of_keeps, keeps_gets | intros f ].
    destruct f; [ apply keeps_square_of_keeps, keeps_throw | apply keeps_square_grow ]. }
  apply keeps_square_of_keeps.
  apply keeps_bind; [ apply keeps_find_partition | intros partition ].
  apply keeps_bind; [ | intros _; apply keeps_set_count ].
  apply (keeps_fuel (fun h => (2 + length (a h))%nat) (fun n => insert_loop n _ _)).
  intros n. apply keeps_insert_loop.
Qed.

Lemma keeps_modify (f : HeapArray -> HeapArray) :
  (forall h, storage (f h) = storage h) -> keeps_storage (modify f).
Proof.
  intros H h r h' E. inversion E. apply H.
Qed.

Lemma keeps_init_heaps_loop (fuel : nat) : forall p, keeps_storage (init_heaps_loop fuel p).
Proof.
  induction fuel as [| fuel IH]; intros p; cbn [init_heaps_loop]; keeps_with ltac:(apply IH).
Qed.

Lemma keeps_init_heaps : keeps_storage _init_heaps.
Proof.
  unfold _init_heaps. apply keeps_bind.
  - intros h r h' E. destruct (count h <=? len (a h)); inversion E; reflexivity.
  - intros _. apply (keeps_fuel (fun h => (2 + length (a h))%nat)
                       (fun n => init_heaps_loop n 1)).
    intros n. apply keeps_init_heaps_loop.
Qed.

Lemma keeps_square_new_from_range (fresh : nat -> Z) (src : list Z) (physical : option Z) :
  keeps_square (new_from_range fresh src physical true).
Proof.
  unfold new_from_range. apply keeps_square_bind.
  - apply keeps_square_resize. apply wrap_range.
  - intros _. apply keeps_square_of_keeps.
    apply keeps_bind.
    { intros h r h' E. destruct (len src <=? len (a h)); inversion E; reflexivity. }
    intros _. apply keeps_bind; [ apply keeps_modify; reflexivity | ].
    intros _. apply keeps_bind; [ apply keeps_init_heaps | ].
    intros _. apply keeps_modify. reflexivity.
Qed.

Lemma resize_returns_square (fresh : nat -> Z) (n : Z) (h h' : HeapArray) :
  0 <= n < 2 ^ 64 -> _resize fresh n true h = (Ret tt, h') -> perfect_square (storage h').
Proof.
  intros Hn E. unfold _resize in E.
  destruct (fixed h); [ discriminate | ].
  destruct (n >? 0).
  - destruct (a h) as [| x l].
    + inversion E. cbn. apply rounded_square. exact Hn.
    + match type of E with
      | (if ?b then _ else _) = _ => destruct b
      end; inversion E. cbn. apply rounded_square. exact Hn.
  - inversion E. cbn. apply square_zero.
Qed.

(** A resize that does not return has changed nothing. *)
Lemma resize_fails_unchanged (fresh : nat -> Z) (n : Z) (round_up : bool)
    (h h' : HeapArray) (r : outcome unit) :
  _resize fresh n round_up h = (r, h') -> r = Ret tt \/ h' = h.
Proof.
  intros E. unfold _resize in E.
  destruct (fixed h); [ inversion E; auto | ].
  destruct (n >? 0); [ | inversion E; auto ].
  destruct (a h) as [| x l]; [ inversion E; auto | ].
  match type of E with
  | (if ?b then _ else _) = _ => destruct b
  end; inversion E; auto.
Qed.

Lemma grow_returns_square (fresh : nat -> Z) (h h' : HeapArray) :
  _grow fresh h = (Ret tt, h') -> perfect_square (storage h').
Proof.
  unfold _grow, bind, gets. intros E.
  eapply resize_returns_square; [ | exact E ]. apply wrap_range.
Qed.

Lemma grow_fails_unchanged (fresh : nat -> Z) (h h' : HeapArray) (r : outcome unit) :
  _grow fresh h = (r, h') -> r = Ret tt \/ h' = h.
Proof.
  unfold _grow, bind, gets. apply resize_fails_unchanged.
Qed.

(** The part of [insert] that follows the check for room. *)
Lemma keeps_insert_placement (value : Z) :
  keeps_storage
    (partition <- _find_partition value true ;;
     (fun h => insert_loop (2 + length (a h)) value partition h) ;;
     modify (fun h => set_count h (wrap (count h + 1)))).
Proof.
  apply keeps_bind; [ apply keeps_find_partition | intros partition ].
  apply keeps_bind; [ | intros _; apply keeps_set_count ].
  apply (keeps_fuel (fun h => (2 + length (a h))%nat) (fun n => insert_loop n _ _)).
  intros n. apply keeps_insert_loop.
Qed.

(** [insert] changes [storage] only by a grow that returned. *)
Lemma insert_storage (fresh : nat -> Z) (value : Z) (h h' : HeapArray) (r : outcome unit) :
  insert fresh value h = (r, h') ->
  (count h <> storage h -> storage h' = storage h) /\
  (count h = storage h ->
   perfect_square (storage h') \/ (storage h' = storage h /\ r <> Ret tt)).
Proof.
  intros E. unfold insert in E. unfold bind at 1 2 3 in E. unfold gets at 1 2 in E.
  destruct (Z.eqb_spec (count h) (storage h)) as [C | C];
    (split; intros C'; [ try contradiction | try contradiction ]).
  - unfold bind at 1 in E. unfold gets in E.
    destruct (fixed h).
    + inversion E. subst. right. split; [ reflexivity | discriminate ].
    + destruct (_grow fresh h) as [r0 h0] eqn:G.
      destruct r0 as [[] | e | | | ].
      * left. rewrite (keeps_insert_placement value _ _ _ E).
        eapply grow_returns_square. exact G.
      * destruct (grow_fails_unchanged _ _ _ _ G) as [? | ->]; [ discriminate | ].
        inversion E. subst. right. split; [ reflexivity | discriminate ].
      * destruct (grow_fails_unchanged _ _ _ _ G) as [? | ->]; [ discriminate | ].
        inversion E. subst. right. split; [ reflexivity | discriminate ].
      * destruct (grow_fails_unchanged _ _ _ _ G) as [? | ->]; [ discriminate | ].
        inversion E. subst. right. split; [ reflexivity | discriminate ].
      * destruct (grow_fails_unchanged _ _ _ _ G) as [? | ->]; [ discriminate | ].
        inversion E. subst. right. split; [ reflexivity | discriminate ].
  - unfold ret in E. apply (keeps_insert_placement value _ _ _ E).
Qed.

(** What follows the allocation in the construction from a range. *)
Lemma keeps_range_fill (src : list Z) (allow_resize : bool) :
  keeps_storage
    ((fun h =>
        if len src <=? len (a h)
        then (Ret tt, set_a h (src ++ skipn (length src) (a h)))
        else (Fault, h)) ;;
     modify (fun h => set_count h (len src)) ;;
     _init_heaps ;;
     modify (fun h => set_fixed h (negb allow_resize))).
Proof.
  apply keeps_bind.
  { intros h r h' E. destruct (len src <=? len (a h)); inversion E; reflexivity. }
  intros _. apply keeps_bind; [ apply keeps_modify; reflexivity | ].
  intros _. apply keeps_bind; [ apply keeps_init_heaps | ].
  intros _. apply keeps_modify. reflexivity.
Qed.

Lemma fixed_range_storage (fresh : nat -> Z) (src : list Z) (physical : option Z)
    (h' : HeapArray) (r : outcome unit) :
  new_from_range fresh src physical false new_empty = (r, h') ->
  storage h' = wrap (match physical with Some n => n | None => len src end).
Proof.
  intros E. unfold new_from_range in E.
  set (n := wrap (match physical with Some n => n | None => len src end)) in *.
  pose proof (wrap_range (match physical with Some n => n | None => len src end)) as R.
  fold n in R. unfold bind at 1 in E.
  assert (Er : exists h1, _resize fresh n false new_empty = (Ret tt, h1) /\ storage h1 = n).
  { unfold _resize. cbn [fixed new_empty a]. destruct (Z.gtb_spec n 0).
    - eexists. split; reflexivity.
    - eexists. split; [ reflexivity | cbn; lia ]. }
  destruct Er as (h1 & Er & Es). rewrite Er in E.
  rewrite (keeps_range_fill src false _ _ _ E). exact Es.
Qed.

(** C8, amended: [storage] is 0 in the empty container and a perfect square
    or 0 after construction from a range with resizing allowed, after every
    rounding resize and every grow that returns, whatever it was before, and
    so after every insert into a full container that returns; a resize or
    grow that does not return, an insert that did not grow, remove, copy and
    move leave [storage] as it was, and the moved-from object has storage 0;
    a fixed-size container gets exactly the storage asked for. *)
Theorem storage_square_established (fresh : nat -> Z) (h : HeapArray) :
  storage new_empty = 0 /\
  (forall src physical r h',
      new_from_range fresh src physical true new_empty = (r, h') ->
      perfect_square (storage h')) /\
  (forall n r h', 0 <= n < 2 ^ 64 -> _resize fresh n true h = (r, h') ->
                  (r = Ret tt -> perfect_square (storage h')) /\
                  (r <> Ret tt -> h' = h)) /\
  (forall r h', _grow fresh h = (r, h') ->
                (r = Ret tt -> perfect_square (storage h')) /\
                (r <> Ret tt -> h' = h)) /\
  (forall v h', count h = storage h -> insert fresh v h = (Ret tt, h') ->
                perfect_square (storage h')) /\
  (forall v r h', insert fresh v h = (r, h') ->
                  storage h' = storage h \/
                  (count h = storage h /\ perfect_square (storage h'))) /\
  (forall v r h', remove v h = (r, h') -> storage h' = storage h) /\
  (forall h', copy_from fresh h = Ret h' -> storage h' = storage h) /\
  storage (fst (move_from h)) = storage h /\
  storage (snd (move_from h)) = 0 /\
  (forall n, 0 <= n < 2 ^ 31 -> storage (new_with_reserve fresh n false) = n) /\
  (forall src physical r h',
      new_from_range fresh src physical false new_empty = (r, h') ->
      storage h' = wrap (match physical with Some n => n | None => len src end)).
Proof.
  split; [ reflexivity | ].
  split.
  { intros src physical r h' E.
    apply (keeps_square_new_from_range fresh src physical _ _ _ E). apply square_zero. }
  split.
  { intros n r h' Hn E. split.
    - intros ->. apply (resize_returns_square fresh n h h' Hn E).
    - intros Hr. destruct (resize_fails_unchanged _ _ _ _ _ _ E); [ contradiction | assumption ]. }
  split.
  { intros r h' E. split.
    - intros ->. apply (grow_returns_square fresh h h' E).
    - intros Hr. destruct (grow_fails_unchanged _ _ _ _ E); [ contradiction | assumption ]. }
  split.
  { intros v h' C E. destruct (insert_storage _ _ _ _ _ E) as [_ F].
    destruct (F C) as [S | [_ N]]; [ exact S | contradiction N; reflexivity ]. }
  split.
  { intros v r h' E. destruct (insert_storage _ _ _ _ _ E) as [N F].
    destruct (Z.eq_dec (count h) (storage h)) as [C | C].
    - destruct (F C) as [S | [S _]]; [ right; split; assumption | left; exact S ].
    - left. apply N. exact C. }
  split; [ intros v r h' E; apply (keeps_remove v _ _ _ E) | ].
  split.
  { intros h' E. unfold copy_from in E.
    destruct (count h <=? Z.min (len (a h)) (storage h)); inversion E. reflexivity. }
  split; [ reflexivity | ].
  split; [ reflexivity | ].
  split; [ intros n Hn; cbn; apply wrap_small; lia | ].
  intros src physical r h' E. apply (fixed_range_storage fresh src physical h' r E).
Qed.

Lemma storage_square_established_witness :
  count (mkHeapArray 3 3 false [1; 3; 4]) = storage (mkHeapArray 3 3 false [1; 3; 4]) /\
  exists h', insert (fun _ => 0) 2 (mkHeapArray 3 3 false [1; 3; 4]) = (Ret tt, h') /\
             perfect_square (storage h').
Proof.
  split; [ reflexivity | ].
  eexists. split; [ vm_compute; reflexivity | ].
  destruct (storage_square_established (fun _ => 0) (mkHeapArray 3 3 false [1; 3; 4]))
    as (_ & _ & _ & _ & I & _).
  apply (I 2); [ reflexivity | vm_compute; reflexivity ].
Defined.

(** * Behaviour of the container on concrete runs *)

Section ConcreteRuns.

Variable fresh : nat -> Z.

Lemma reachable_insert_all (l : list Z) (h h' : HeapArray) :
  reachable h -> insert_all fresh l h = (Ret tt, h') -> reachable h'.
Proof.
  revert h. induction l as [| v l IH]; intros h Hh Hrun.
  - cbn in Hrun. inversion Hrun. subst. exact Hh.
  - cbn [insert_all] in Hrun. unfold bind in Hrun.
    destruct (insert fresh v h) as [[[] | e | | | ] h1] eqn:E; try discriminate.
    eapply IH; [ | exact Hrun ]. eapply reach_insert; eauto.
Qed.

Lemma reachable_after_1_2 : reachable (after_1_2 fresh).
Proof.
  apply (reachable_insert_all [1; 2] new_empty); [ apply reach_empty | ].
  vm_compute; reflexivity.
Qed.

(** C1 (fails on the code): after [insert(1); insert(2)] the buffer is
    [2; 1]: partition 0 is full when 2 arrives, [_find_partition] still
    selects it, [mm_heap_ripple_add] keeps 2 there and pushes 1 into
    partition 1, so the maximum of partition 0 exceeds the first slot of
    partition 1 and the global ordering is broken in a reachable state. *)
Theorem insert_breaks_global_order :
  reachable (after_1_2 fresh) /\
  _final_partition (after_1_2 fresh) = 1 /\
  _max_in_partition 0 (after_1_2 fresh) = (Ret 2, after_1_2 fresh) /\
  get (a (after_1_2 fresh)) (_partition_start 1) = 1 /\
  ~ global_order (after_1_2 fresh).
Proof.
  split; [ apply reachable_after_1_2 | ].
  split; [ vm_compute; reflexivity | ].
  split; [ vm_compute; reflexivity | ].
  split; [ vm_compute; reflexivity | ].
  intro G.
  destruct (G 0) as [mx [Hmx Hle]]; [ lia | vm_compute; discriminate | ].
  assert (E : mx = 2) by (vm_compute in Hmx; congruence).
  subst mx. vm_compute in Hle. apply Hle. reflexivity.
Qed.

(** C3 (fails on the code): in the reachable state after
    [insert(1); insert(2)], [min()] returns 2 although 1 is stored, and
    [max()] returns 1 although 2 is stored. *)
Theorem min_max_wrong_after_inserts :
  reachable (after_1_2 fresh) /\
  elements (after_1_2 fresh) = [2; 1] /\
  min (after_1_2 fresh) = (Ret 2, after_1_2 fresh) /\
  max (after_1_2 fresh) = (Ret 1, after_1_2 fresh).
Proof.
  split; [ apply reachable_after_1_2 | ].
  repeat split; vm_compute; reflexivity.
Qed.

Lemma reachable_after_0_2_2_2 : reachable after_0_2_2_2.
Proof.
  apply (reachable_insert_all [0; 2; 2; 2] new_empty); [ apply reach_empty | ].
  vm_compute; reflexivity.
Qed.

(** C2 (fails on the code): from the reachable state holding 0, 2, 2, 2,
    [insert(1)] returns normally and the very next [contains(1)] answers
    false: 1 sits alone in partition 0 while the binary search settles on
    partition 1, whose range [0, 2] brackets it. *)
Theorem insert_then_contains_false :
  reachable after_0_2_2_2 /\
  exists h, insert fresh 1 after_0_2_2_2 = (Ret tt, h) /\
            elements h = [1; 0; 2; 2; 2] /\
            contains 1 h = (Ret false, h).
Proof.
  split; [ apply reachable_after_0_2_2_2 | ].
  exists (mkHeapArray 9 5 false
            [1; 0; 2; 2; 2; fresh 5%nat; fresh 6%nat; fresh 7%nat; fresh 8%nat]).
  repeat split; vm_compute; reflexivity.
Qed.

(** C9: a fixed container of capacity 1 accepts [insert(10)], after which
    [size()] is 1, and rejects [insert(20)] with [std::length_error],
    leaving buffer, count and storage as they were. *)
Theorem fixed_capacity_one :
  let h0 := new_with_reserve fresh 1 false in
  let h1 := mkHeapArray 1 1 true [10] in
  insert fresh 10 h0 = (Ret tt, h1) /\
  size h1 = (Ret 1, h1) /\
  insert fresh 20 h1 = (Throw length_error, h1).
Proof.
  repeat split; vm_compute; reflexivity.
Qed.

Lemma reachable_after_remove_2 : reachable after_remove_2.
Proof.
  apply (reach_remove 2 true (mkHeapArray 4 4 false [0; 1; 3; 2]));
    [ | vm_compute; reflexivity ].
  apply (reachable_insert_all [3; 2; 1; 0] new_empty); [ apply reach_empty | ].
  vm_compute; reflexivity.
Qed.

End ConcreteRuns.

(** C10: the scan of [_find] covers the whole slot range of the candidate
    partition, whatever the live count.  After inserting 3, 2, 1, 0 and
    removing 2 the live elements are 0, 1, 3, slot 3 still holds the removed
    2, and [find(2)] reports it at index 3 = count, so [contains(2)] is
    true for a value that is not stored. *)
Theorem contains_finds_stale_value :
  exists (h : HeapArray) (v index : Z),
    reachable h /\
    ~ In v (elements h) /\
    find v h = (Ret (true, index), h) /\
    count h <= index <= _partition_end (_final_partition h) /\
    contains v h = (Ret true, h).
Proof.
  exists (after_remove_2), 2, 3.
  split; [ apply (reachable_after_remove_2 (fun _ => 0)) | ].
  split.
  - cbn. intros [H | [H | [H | []]]]; discriminate.
  - repeat split; vm_compute; congruence.
Qed.

(** * Behaviour of the heap primitives on concrete heaps *)

(** C5 (fails on the code): on the heap [10; 50], [mm_heap_remove_max]
    returns 1, the index of the larger child of the root, where the maximum
    is 50 ([value = m.second] stores the index, not the element). *)
Theorem remove_max_returns_index :
  mm_local (view [10; 50] 0) 2 /\
  is_max_of (view [10; 50] 0) 2 50 /\
  mm_heap_remove_max 0 2 [10; 50] = (Ret (1, 1), [10; 50]).
Proof.
  split; [ | split ].
  - intros u l Hu Hl [[H | H] | [H | [H | [H | H]]]]; try lia.
    assert (u = 0) by lia. subst. vm_compute. discriminate.
  - split.
    + exists 1. split; [ lia | vm_compute; reflexivity ].
    + intros k Hk. assert (k = 0 \/ k = 1) as [-> | ->] by lia; vm_compute; discriminate.
  - vm_compute; reflexivity.
Qed.

(** C6 (fails on the code): the range check is [index > count], so the
    index [count] itself is let through.  On a heap of 3 live elements
    followed by a dead slot, [mm_heap_replace_at_index(9, 3)] returns
    normally and rewrites live slot 1, and [mm_heap_remove_at_index(3)]
    returns normally with count 2; when slot 3 lies outside the buffer the
    call reads past the allocation. *)
Theorem index_at_count_is_accepted :
  mm_heap_replace_at_index 9 3 0 3 [1; 5; 4; 0] = (Ret 0, [1; 9; 4; 5]) /\
  mm_heap_remove_at_index 3 0 3 [1; 5; 4; 0] = (Ret (2, 0), [1; 5; 4; 4]) /\
  mm_heap_replace_at_index 9 3 0 3 [1; 5; 4] = (Fault, [1; 5; 4]) /\
  mm_heap_replace_at_index 9 4 0 3 [1; 5; 4; 0] = (Throw range_error, [1; 5; 4; 0]).
Proof.
  repeat split; vm_compute; reflexivity.
Qed.

(** Beyond the count the range check does fire, and nothing is touched. *)
Lemma index_beyond_count_throws (m : mem) (v index h n : Z) :
  n <> 0 -> index > n ->
  mm_heap_replace_at_index v index h n m = (Throw range_error, m) /\
  mm_heap_remove_at_index index h n m = (Throw range_error, m).
Proof.
  intros Hn Hi. unfold mm_heap_replace_at_index, mm_heap_remove_at_index.
  destruct (Z.eqb_spec n 0) as [E | _]; [ contradiction | ].
  destruct (Z.gtb_spec index n) as [_ | Hle]; [ split; reflexivity | lia ].
Qed.

(** C7 (fails on the code): with one live element the count is decremented
    to 0 and [count - 1] wraps to [SIZE_MAX], so the sift-down treats every
    slot as part of the heap.  In a one-slot buffer the call reads past the
    allocation, whatever the element; in a larger buffer it reads the dead
    slots and here swaps slots 0 and 1. *)
Theorem remove_min_single_escapes_live_region :
  wrap (wrap (1 - 1) - 1) = SIZE_MAX /\
  (forall x, mm_heap_remove_min 0 1 [x] = (Fault, [x])) /\
  mm_heap_remove_min 0 1 [5; 1; 2; 9; 9; 9; 9] = (Ret (0, 5), [1; 5; 2; 9; 9; 9; 9]).
Proof.
  split; [ vm_compute; reflexivity | ].
  split; [ intros x; vm_compute; reflexivity | vm_compute; reflexivity ].
Qed.

Lemma three_not_square : ~ perfect_square 3.
Proof.
  intros [k [Hk H]].
  assert (k <= 1 \/ 2 <= k) as [Hs | Hs] by lia; nia.
Qed.

(** C8 (fails as stated): a fixed-size container built from a range of three
    values, or with a reservation of three slots, has [storage] 3, which is
    neither 0 nor a perfect square. *)
Lemma fixed_size_storage_not_square :
  (exists h', new_from_range (fun _ => 0) [3; 1; 2] None false new_empty = (Ret tt, h') /\
              fixed h' = true /\ storage h' = 3 /\ ~ perfect_square (storage h')) /\
  fixed (new_with_reserve (fun _ => 0) 3 false) = true /\
  ~ perfect_square (storage (new_with_reserve (fun _ => 0) 3 false)).
Proof.
  split.
  - eexists. split; [ vm_compute; reflexivity | ].
    split; [ reflexivity | ]. split; [ reflexivity | exact three_not_square ].
  - split; [ reflexivity | exact three_not_square ].
Qed.

(** A resizable container built with a reservation of three slots has
    [storage] 3, not a perfect square, while it fills; the insert that
    grows it makes [storage] 9. *)
Lemma reserve_then_grow_square :
  storage (new_with_reserve (fun _ => 0) 3 true) = 3 /\
  ~ perfect_square (storage (new_with_reserve (fun _ => 0) 3 true)) /\
  insert_all (fun _ => 0) [4; 1; 3] (new_with_reserve (fun _ => 0) 3 true)
  = (Ret tt, mkHeapArray 3 3 false [1; 3; 4]) /\
  insert (fun _ => 0) 2 (mkHeapArray 3 3 false [1; 3; 4])
  = (Ret tt, mkHeapArray 9 4 false [1; 2; 4; 3; 0; 0; 0; 0; 0]).
Proof.
  split; [ reflexivity | ].
  split; [ exact three_not_square | ].
  split; vm_compute; reflexivity.
Qed.

(** * Sift-down on either kind of level *)

Lemma le_lvl_total (b : bool) (p q : Z) : ~ le_lvl b p q -> le_lvl b q p.
Proof.
  unfold le_lvl. destruct b; lia.
Qed.

Lemma le_lvl_trans (b : bool) (p q r : Z) : le_lvl b p q -> le_lvl b q r -> le_lvl b p r.
Proof.
  unfold le_lvl. destruct b; lia.
Qed.

Lemma le_lvl_strict (b : bool) (p q r : Z) : ~ le_lvl b p q -> le_lvl b p r -> le_lvl b q r.
Proof.
  unfold le_lvl. destruct b; lia.
Qed.

Lemma le_lvl_flip (b : bool) (p q : Z) : le_lvl (negb b) p q <-> le_lvl b q p.
Proof.
  unfold le_lvl. destruct b; cbn; reflexivity.
Qed.

Lemma ordered_le_lvl (f : Z -> Z) (u l : Z) :
  ordered f u l = le_lvl (is_min_level u) (f u) (f l).
Proof.
  reflexivity.
Qed.

Lemma heap_from_zero (f : Z -> Z) (n : Z) : heap_from f 0 n <-> mm_local f n.
Proof.
  unfold heap_from, mm_local. reflexivity.
Qed.

Section HoleDown.

Variables (f : Z -> Z) (lo n i : Z).
Hypothesis Hlo : 0 <= lo <= i.
Hypothesis Hole : hole_down f lo n i.

Lemma hole_down_leaf : n <= 2 * i + 1 -> heap_from f lo n.
Proof.
  intros Hn u l Hu Hl Ha. destruct Hole as [H1 _].
  apply H1; auto. intros ->. arith.
Qed.

Section Extremum.

Variable x : Z.
Hypothesis Hx : above i x.
Hypothesis Hxn : x < n.
Hypothesis Hext : forall y, above i y -> y < n -> le_lvl (is_min_level i) (f x) (f y).

Lemma hole_down_done : le_lvl (is_min_level i) (f i) (f x) -> heap_from f lo n.
Proof.
  intros Hle u l Hu Hl Ha. destruct (Z.eq_dec u i) as [-> | Hne].
  - rewrite ordered_le_lvl. eapply le_lvl_trans; [ exact Hle | apply Hext; auto ].
  - destruct Hole as [H1 _]. apply H1; auto.
Qed.

(** What holds above [i] once the extreme value has been moved into it. *)
Lemma hole_down_into (f' : Z -> Z) (u : Z) :
  lo <= u -> above u i -> f' u = f u -> f' i = f x ->
  ~ le_lvl (is_min_level i) (f i) (f x) -> ordered f' u i.
Proof.
  intros Hu Ha Eu Ei Hbad. destruct Hole as [H1 H2].
  assert (Hne : u <> i) by arith.
  rewrite ordered_le_lvl, Eu, Ei.
  destruct Ha as [C | G].
  - assert (O : ordered f u i) by (apply H1; auto; [ arith | left; exact C ]).
    rewrite ordered_le_lvl in O.
    rewrite (lvl_child u i ltac:(lia) C) in Hbad.
    apply le_lvl_total in Hbad. apply (proj1 (le_lvl_flip _ _ _)) in Hbad.
    eapply le_lvl_trans; [ exact O | exact Hbad ].
  - apply (H2 u x); auto.
Qed.

Lemma hole_down_child_swap (f' : Z -> Z) :
  is_child i x -> ~ le_lvl (is_min_level i) (f i) (f x) ->
  f' i = f x -> f' x = f i -> (forall k, 0 <= k -> k <> i -> k <> x -> f' k = f k) ->
  heap_from f' lo n.
Proof.
  intros Cx Hbad Ei Ex Eo u l Hu Hl Ha.
  pose proof Hole as [H1 H2].
  pose proof (lvl_child i x ltac:(lia) Cx) as Lx.
  destruct (Z.eq_dec u i) as [-> | Hui].
  { rewrite ordered_le_lvl, Ei.
    destruct (Z.eq_dec l x) as [-> | Hlx].
    - rewrite Ex. apply le_lvl_total. exact Hbad.
    - rewrite Eo by arith. apply Hext; auto. }
  destruct (Z.eq_dec u x) as [-> | Hux].
  { assert (O : ordered f x l) by (apply H1; auto).
    rewrite ordered_le_lvl in *. rewrite Ex, (Eo l) by arith.
    rewrite Lx in *. eapply le_lvl_strict; [ | exact O ].
    rewrite le_lvl_flip. exact Hbad. }
  destruct (Z.eq_dec l i) as [-> | Hli].
  { apply hole_down_into; auto. apply Eo; arith. }
  destruct (Z.eq_dec l x) as [-> | Hlx].
  { assert (C : is_child u i) by arith.
    assert (O : ordered f u i) by (apply H1; auto; first [ left; exact C | arith ]).
    rewrite ordered_le_lvl in *. rewrite Ex, (Eo u) by arith. exact O. }
  apply (ordered_ext f); [ apply Eo; arith | apply Eo; arith | apply H1; auto ].
Qed.

Section TwoBelow.

Variable c : Z.
Hypothesis Cc : is_child i c.
Hypothesis Cx : is_child c x.
Hypothesis Hbad : ~ le_lvl (is_min_level i) (f i) (f x).

Lemma hole_down_gchild_keep (f' : Z -> Z) :
  le_lvl (negb (is_min_level i)) (f c) (f i) ->
  f' i = f x -> f' x = f i -> (forall k, 0 <= k -> k <> i -> k <> x -> f' k = f k) ->
  hole_down f' lo n x.
Proof.
  intros Hc Ei Ex Eo.
  pose proof Hole as [H1 H2].
  pose proof (lvl_child i c ltac:(lia) Cc) as Lc.
  assert (Lx : is_min_level x = is_min_level i)
    by (rewrite (lvl_child c x), Lc by arith; apply negb_involutive).
  split.
  - intros u l Hu Hl Ha Hux.
    destruct (Z.eq_dec u i) as [-> | Hui].
    { rewrite ordered_le_lvl, Ei.
      destruct (Z.eq_dec l x) as [-> | Hlx].
      - rewrite Ex. apply le_lvl_total. exact Hbad.
      - rewrite Eo by arith. apply Hext; auto. }
    destruct (Z.eq_dec l i) as [-> | Hli].
    { apply hole_down_into; auto. apply Eo; arith. }
    destruct (Z.eq_dec l x) as [-> | Hlx].
    { assert (u = c) by arith. subst u.
      rewrite ordered_le_lvl, Eo, Ex, Lc by arith. exact Hc. }
    apply (ordered_ext f); [ apply Eo; arith | apply Eo; arith | apply H1; auto ].
  - intros g l Hg Hl G Ha.
    assert (g = i) by arith. subst g.
    assert (O : ordered f x l) by (apply H1; auto; arith).
    rewrite ordered_le_lvl in *. rewrite Ei, Eo by arith.
    rewrite Lx in O. exact O.
Qed.

Lemma hole_down_gchild_push (f' : Z -> Z) :
  ~ le_lvl (negb (is_min_level i)) (f c) (f i) ->
  f' i = f x -> f' x = f c -> f' c = f i ->
  (forall k, 0 <= k -> k <> i -> k <> x -> k <> c -> f' k = f k) ->
  hole_down f' lo n x.
Proof.
  intros Hc Ei Ex Ec Eo.
  pose proof Hole as [H1 H2].
  pose proof (lvl_child i c ltac:(lia) Cc) as Lc.
  assert (Lx : is_min_level x = is_min_level i)
    by (rewrite (lvl_child c x), Lc by arith; apply negb_involutive).
  assert (Hcn : c < n) by arith.
  assert (Hcx : le_lvl (is_min_level i) (f x) (f c)) by (apply Hext; auto; left; exact Cc).
  split.
  - intros u l Hu Hl Ha Hux.
    destruct (Z.eq_dec u i) as [-> | Hui].
    { rewrite ordered_le_lvl, Ei.
      destruct (Z.eq_dec l x) as [-> | Hlx]; [ rewrite Ex; exact Hcx | ].
      destruct (Z.eq_dec l c) as [-> | Hlc];
        [ rewrite Ec; apply le_lvl_total; exact Hbad | ].
      rewrite Eo by arith. apply Hext; auto. }
    destruct (Z.eq_dec u c) as [-> | Huc].
    { rewrite ordered_le_lvl, Ec, Lc.
      destruct (Z.eq_dec l x) as [-> | Hlx];
        [ rewrite Ex; apply le_lvl_total; exact Hc | ].
      rewrite Eo by arith.
      assert (O : ordered f c l) by (apply H1; auto; arith).
      rewrite ordered_le_lvl, Lc in O.
      eapply le_lvl_strict; [ exact Hc | exact O ]. }
    destruct (Z.eq_dec l i) as [-> | Hli].
    { apply hole_down_into; auto. apply Eo; arith. }
    destruct (Z.eq_dec l x) as [-> | Hlx].
    { exfalso. arith. }
    destruct (Z.eq_dec l c) as [-> | Hlc].
    { assert (C : is_child u i) by arith.
      assert (O : ordered f u i) by (apply H1; auto; first [ left; exact C | arith ]).
      rewrite ordered_le_lvl in *. rewrite Ec, (Eo u) by arith. exact O. }
    apply (ordered_ext f); [ apply Eo; arith | apply Eo; arith | apply H1; auto ].
  - intros g l Hg Hl G Ha.
    assert (g = i) by arith. subst g.
    assert (O : ordered f x l) by (apply H1; auto; arith).
    rewrite ordered_le_lvl in *. rewrite Ei, Eo by arith.
    rewrite Lx in O. exact O.
Qed.

End TwoBelow.
End Extremum.
End HoleDown.

(** ** The smallest child or grandchild *)

Section SelectionMin.

Variables (m : mem) (h i r : Z).
Hypothesis Hh : 0 <= h.
Hypothesis Hr : h + r < len m.
Hypothesis Hi : 0 <= i < 2 ^ 60.

Lemma and_then_lt_at (b : bool) (j k : Z) :
  (b = true -> 0 <= j <= r /\ 0 <= k <= r) ->
  and_then b (lt_at h j k) m = (Ret (b && (view m h j <? view m h k)), m).
Proof.
  intros H. destruct b; cbn; [ | reflexivity ].
  apply lt_at_ok; destruct (H eq_refl); lia.
Qed.

Lemma min_child_ok :
  2 * i + 1 <= r ->
  exists c, min_child h i r m = (Ret (true, c), m) /\
            is_child i c /\ c <= r /\
            forall c', is_child i c' -> c' <= r -> view m h c <= view m h c'.
Proof.
  intros Hc. unfold min_child.
  rewrite left_small, right_small by lia.
  destruct (Z.leb_spec (2 * i + 1) r) as [_ | Hn]; [ | lia ].
  erewrite run_bind; [ | apply and_then_lt_at; rewrite Z.leb_le; lia ].
  rewrite run_ret.
  eexists. split; [ reflexivity | ].
  cases_on_tests; (split; [ arith | split; [ lia | ] ]);
    intros c' [-> | ->] Hc'; lia.
Qed.

Lemma min_gchild_ok :
  (4 * i + 3 <= r ->
   exists g, min_gchild h i r m = (Ret (true, g), m) /\
             is_gchild i g /\ g <= r /\
             forall g', is_gchild i g' -> g' <= r -> view m h g <= view m h g') /\
  (r < 4 * i + 3 -> min_gchild h i r m = (Ret (false, 0), m)).
Proof.
  assert (E1 : left (left i) = 4 * i + 3)
    by (rewrite (left_small i) by lia; rewrite left_small by lia; lia).
  assert (E2 : right (left i) = 4 * i + 4)
    by (rewrite (left_small i) by lia; rewrite right_small by lia; lia).
  assert (E3 : left (right i) = 4 * i + 5)
    by (rewrite (right_small i) by lia; rewrite left_small by lia; lia).
  assert (E4 : right (right i) = 4 * i + 6)
    by (rewrite (right_small i) by lia; rewrite right_small by lia; lia).
  unfold min_gchild. cbv zeta. rewrite E1, E2, E3, E4.
  split; intros Hg.
  - destruct (Z.leb_spec (4 * i + 3) r) as [_ | Hn]; [ | lia ].
    erewrite run_bind; [ | apply and_then_lt_at; rewrite Z.leb_le; lia ].
    cbv beta.
    erewrite run_bind;
      [ | apply and_then_lt_at; rewrite Z.leb_le; intros ?; split; [ lia | ];
          match goal with |- context [if ?b then _ else _] => destruct b end; lia ].
    cbv beta.
    erewrite run_bind;
      [ | apply and_then_lt_at; rewrite Z.leb_le; intros ?; split; [ lia | ];
          repeat match goal with |- context [if ?b then _ else _] => destruct b end;
          lia ].
    rewrite run_ret.
    eexists. split; [ reflexivity | ].
    cases_on_tests;
      (split; [ arith | split; [ lia | ] ]);
      intros g' [-> | [-> | [-> | ->]]] Hg'; lia.
  - destruct (Z.leb_spec (4 * i + 3) r) as [Hn | _]; [ lia | reflexivity ].
Qed.

Lemma min_child_or_gchild_ok :
  2 * i + 1 <= r ->
  exists x, min_child_or_gchild h i r m = (Ret (true, x), m) /\
            above i x /\ x <= r /\
            forall y, above i y -> y <= r -> view m h x <= view m h y.
Proof.
  intros Hc. unfold min_child_or_gchild.
  destruct (min_child_ok Hc) as [c [Ec [Cc [Hcr Mc]]]].
  rewrite (run_bind _ _ _ _ _ Ec). cbn [fst snd].
  destruct min_gchild_ok as [Gyes Gno].
  destruct (Z_le_gt_dec (4 * i + 3) r) as [Hg | Hg].
  - destruct (Gyes Hg) as [g [Eg [Gg [Hgr Mg]]]].
    rewrite (run_bind _ _ _ _ _ Eg). cbn [fst snd].
    erewrite run_bind; [ | apply and_then_lt_at; intros _; arith ].
    rewrite run_ret. cbn [andb].
    eexists. split; [ reflexivity | ].
    destruct (Z.ltb_spec (view m h g) (view m h c)) as [Hlt | Hge].
    + split; [ right; exact Gg | split; [ exact Hgr | ] ].
      intros y [Cy | Gy] Hy; [ specialize (Mc y Cy Hy); lia | apply Mg; auto ].
    + split; [ left; exact Cc | split; [ exact Hcr | ] ].
      intros y [Cy | Gy] Hy; [ apply Mc; auto | specialize (Mg y Gy Hy); lia ].
  - rewrite (run_bind _ _ _ _ _ (Gno ltac:(lia))). cbn [fst snd and_then].
    rewrite (run_bind _ _ _ _ _ (run_ret _ _)). rewrite run_ret.
    eexists. split; [ reflexivity | ].
    split; [ left; exact Cc | split; [ exact Hcr | ] ].
    intros y [Cy | Gy] Hy; [ apply Mc; auto | arith ].
Qed.

End SelectionMin.

(** ** Sift-down steps *)

Lemma bind_assoc {S A B C : Type} (c : M S A) (k1 : A -> M S B) (k2 : B -> M S C) (s : S) :
  bind (bind c k1) k2 s = bind c (fun x => bind (k1 x) k2) s.
Proof.
  unfold bind. destruct (c s) as [[x | e | | | ] s']; reflexivity.
Qed.

Lemma sifts_ret (h lo i r : Z) (m : mem) :
  heap_from (view m h) lo (r + 1) -> sifts h lo i r m (ret tt).
Proof.
  intros H. exists m. split; [ reflexivity | ]. split; [ reflexivity | ].
  split; [ exact H | ]. split; [ apply Permutation_refl | reflexivity ].
Qed.

Lemma sifts_step {A : Type} (h lo i r : Z) (m : mem) (c : M mem A)
    (k : A -> M mem unit) (x : A) :
  c m = (Ret x, m) -> sifts h lo i r m (k x) -> sifts h lo i r m (bind c k).
Proof.
  intros E [m' [Em' R]]. exists m'. rewrite (run_bind _ _ _ _ _ E). auto.
Qed.

Lemma sifts_from_deeper (h lo i x r : Z) (m : mem) (k : M mem unit) :
  i <= x -> sifts h lo x r m k -> sifts h lo i r m k.
Proof.
  intros Hix [m' [Em' [Hlen [Hheap [Hperm Hframe]]]]].
  exists m'. repeat split; auto. intros q Hq Hout. apply Hframe; lia.
Qed.

Section ExchangeStep.

Variables (h lo i r a b : Z) (m : mem).
Hypothesis Hh : 0 <= h.
Hypothesis Hi : 0 <= i.
Hypothesis Ha : i <= a <= r.
Hypothesis Hb : i <= b <= r.
Hypothesis Hr : h + r < len m.

Lemma get_exchange_outside (q : Z) :
  0 <= q -> q < h + i \/ h + r < q ->
  get (set (set m (h + a) (view m h b)) (h + b) (view m h a)) q = get m q.
Proof.
  intros Hq Hout. rewrite !get_set_neq by lia. reflexivity.
Qed.

Lemma sifts_exchange_then (k : M mem unit) :
  sifts h lo i r (set (set m (h + a) (view m h b)) (h + b) (view m h a)) k ->
  sifts h lo i r m (swap h a b ;; k).
Proof.
  intros [m' [Em' [Hlen [Hheap [Hperm Hframe]]]]]. unfold sifts.
  rewrite (run_bind _ _ _ _ _ (swap_ok m h a b ltac:(lia) ltac:(lia))).
  exists m'. split; [ exact Em' | ]. split; [ rewrite Hlen, !len_set; reflexivity | ].
  split; [ exact Hheap | ]. split.
  - eapply perm_trans; [ apply (live_exchange m h (r + 1) a b); lia | exact Hperm ].
  - intros q Hq Hout. rewrite (Hframe q Hq Hout). apply get_exchange_outside; auto.
Qed.

Lemma sifts_exchange :
  heap_from (view (set (set m (h + a) (view m h b)) (h + b) (view m h a)) h) lo (r + 1) ->
  sifts h lo i r m (swap h a b).
Proof.
  intros Hheap. unfold sifts.
  rewrite (swap_ok m h a b) by lia.
  eexists. split; [ reflexivity | ]. split; [ rewrite !len_set; reflexivity | ].
  split; [ exact Hheap | ]. split.
  - apply (live_exchange m h (r + 1) a b); lia.
  - intros q Hq Hout. apply get_exchange_outside; auto.
Qed.

End ExchangeStep.

(** ** The two sift-down loops *)

Ltac lvl_goal L := rewrite ?L; cbn [le_lvl negb]; try lia.

Lemma sift_down_min_loop_sifts (fuel : nat) :
  forall (m : mem) (h lo i r : Z),
    0 <= h -> h + r < len m -> 0 <= lo <= i -> i <= r -> r < 2 ^ 60 ->
    r + 1 < (i + 1) * 4 ^ Z.of_nat fuel ->
    is_min_level i = true ->
    hole_down (view m h) lo (r + 1) i ->
    sifts h lo i r m (sift_down_min_loop fuel h i r).
Proof.
  induction fuel as [| fuel IH]; intros m h lo i r Hh Hr Hlo Hi Hr60 Hfuel Li Hole.
  { cbn in Hfuel. lia. }
  cbn [sift_down_min_loop]. rewrite left_small by lia.
  destruct (Z.leb_spec (2 * i + 1) r) as [Hc | Hleaf].
  2: { apply sifts_ret. apply (hole_down_leaf _ _ _ i); auto. lia. }
  destruct (min_child_or_gchild_ok m h i r Hh Hr ltac:(lia) Hc) as [x [Ex [Ax [Hxr Mx]]]].
  eapply sifts_step; [ exact Ex | ]. cbn [snd].
  assert (Hx0 : 0 <= x) by arith.
  assert (Mx' : forall y, above i y -> y < r + 1 ->
                          le_lvl (is_min_level i) (view m h x) (view m h y))
    by (intros y Hy Hyr; rewrite Li; apply Mx; auto; lia).
  pose proof (lt_at_ok m h x i ltac:(lia) ltac:(lia)) as Elt.
  destruct (child i x) eqn:Ch; (eapply sifts_step; [ exact Elt | ]).
  - (* the smallest is a child *)
    apply child_small in Ch; [ | lia ].
    destruct (Z.ltb_spec (view m h x) (view m h i)) as [Hlt | Hge].
    + apply sifts_exchange; auto; try lia; [ arith | ].
      apply (hole_down_child_swap (view m h) lo (r + 1) i) with (x := x);
        auto; try lia.
      * lvl_goal Li.
      * apply view_exchange_r; lia.
      * apply view_exchange_l; try lia. arith.
      * intros k Hk Hki Hkx. apply view_exchange_other; lia.
    + apply sifts_ret.
      apply (hole_down_done (view m h) lo (r + 1) i) with (x := x); auto; try lia.
      lvl_goal Li.
  - (* the smallest is a grandchild *)
    assert (Gx : is_gchild i x).
    { destruct Ax as [C | G]; [ | exact G ].
      apply child_small in C; [ congruence | lia ]. }
    destruct (Z.ltb_spec (view m h x) (view m h i)) as [Hlt | Hge].
    2: { apply sifts_ret.
         apply (hole_down_done (view m h) lo (r + 1) i) with (x := x); auto; try lia.
         lvl_goal Li. }
    apply sifts_exchange_then; auto; try lia; [ arith | ].
    set (m1 := set (set m (h + x) (view m h i)) (h + i) (view m h x)).
    assert (Hm1 : len m1 = len m) by (apply len_exchange).
    set (c := (x - 1) / 2).
    assert (Cx : is_child c x).
    { unfold is_child, c.
      pose proof (Z.div_mod (x - 1) 2 ltac:(lia)).
      pose proof (Z.mod_pos_bound (x - 1) 2 ltac:(lia)). lia. }
    assert (Cc : is_child i c) by arith.
    assert (Hcr : 0 <= c <= r) by arith.
    assert (Hxi : x <> i) by arith.
    assert (V1x : view m1 h x = view m h i) by (apply view_exchange_l; lia).
    assert (V1i : view m1 h i = view m h x) by (apply view_exchange_r; lia).
    assert (V1o : forall k, 0 <= k -> k <> i -> k <> x -> view m1 h k = view m h k)
      by (intros k Hk Hki Hkx; apply view_exchange_other; lia).
    eapply sifts_step; [ apply (parent_small x m1); arith | ]. fold c.
    eapply sifts_step; [ apply (gt_at_ok m1 h x c); lia | ].
    rewrite V1x, (V1o c) by arith.
    assert (Lx : is_min_level x = true) by (rewrite (lvl_gchild i x); auto; lia).
    assert (Fx : r + 1 < (x + 1) * 4 ^ Z.of_nat fuel)
      by (apply (fuel_step i); auto; arith).
    assert (Hix : i <= x) by arith.
    destruct (Z.ltb_spec (view m h c) (view m h i)) as [Hpush | Hkeep]; cbv iota.
    + unfold sifts. rewrite bind_assoc. fold (sifts h lo i r m1
        (pm' <- parent x ;; (swap h x pm' ;; sift_down_min_loop fuel h x r))).
      eapply sifts_step; [ apply (parent_small x m1); arith | ]. fold c.
      apply sifts_exchange_then; auto; try lia; [ arith | ].
      set (m2 := set (set m1 (h + x) (view m1 h c)) (h + c) (view m1 h x)).
      assert (Hm2 : len m2 = len m1) by (apply len_exchange).
      apply (sifts_from_deeper h lo i x); [ exact Hix | ].
      apply IH; auto; try lia.
      apply (hole_down_gchild_push (view m h) lo (r + 1) i) with (c := c) (x := x);
        auto; try lia.
      * lvl_goal Li.
      * lvl_goal Li.
      * unfold m2. rewrite view_exchange_other by (lia || arith). exact V1i.
      * unfold m2. rewrite view_exchange_l by (lia || arith). apply V1o; arith.
      * unfold m2. rewrite view_exchange_r by (lia || arith). exact V1x.
      * intros k Hk Hki Hkx Hkc. unfold m2.
        rewrite view_exchange_other by (lia || arith). apply V1o; auto.
    + eapply sifts_step; [ apply run_ret | ].
      apply (sifts_from_deeper h lo i x); [ exact Hix | ].
      apply IH; auto; try lia.
      apply (hole_down_gchild_keep (view m h) lo (r + 1) i) with (c := c);
        auto; try lia.
      * lvl_goal Li.
      * lvl_goal Li.
Qed.

Lemma sift_down_max_loop_sifts (fuel : nat) :
  forall (m : mem) (h lo i r : Z),
    0 <= h -> h + r < len m -> 0 <= lo <= i -> i <= r -> r < 2 ^ 60 ->
    r + 1 < (i + 1) * 4 ^ Z.of_nat fuel ->
    is_min_level i = false ->
    hole_down (view m h) lo (r + 1) i ->
    sifts h lo i r m (sift_down_max_loop fuel h i r).
Proof.
  induction fuel as [| fuel IH]; intros m h lo i r Hh Hr Hlo Hi Hr60 Hfuel Li Hole.
  { cbn in Hfuel. lia. }
  cbn [sift_down_max_loop]. rewrite left_small by lia.
  destruct (Z.leb_spec (2 * i + 1) r) as [Hc | Hleaf].
  2: { apply sifts_ret. apply (hole_down_leaf _ _ _ i); auto. lia. }
  destruct (max_child_or_gchild_ok m h i r Hh Hr ltac:(lia) Hc) as [x [Ex [Ax [Hxr Mx]]]].
  eapply sifts_step; [ exact Ex | ]. cbn [snd].
  assert (Hx0 : 0 <= x) by arith.
  assert (Mx' : forall y, above i y -> y < r + 1 ->
                          le_lvl (is_min_level i) (view m h x) (view m h y))
    by (intros y Hy Hyr; rewrite Li; apply Mx; auto; lia).
  pose proof (gt_at_ok m h x i ltac:(lia) ltac:(lia)) as Egt.
  destruct (child i x) eqn:Ch; (eapply sifts_step; [ exact Egt | ]).
  - (* the largest is a child *)
    apply child_small in Ch; [ | lia ].
    destruct (Z.ltb_spec (view m h i) (view m h x)) as [Hlt | Hge].
    + apply sifts_exchange; auto; try lia; [ arith | ].
      apply (hole_down_child_swap (view m h) lo (r + 1) i) with (x := x);
        auto; try lia.
      * lvl_goal Li.
      * apply view_exchange_r; lia.
      * apply view_exchange_l; try lia. arith.
      * intros k Hk Hki Hkx. apply view_exchange_other; lia.
    + apply sifts_ret.
      apply (hole_down_done (view m h) lo (r + 1) i) with (x := x); auto; try lia.
      lvl_goal Li.
  - (* the largest is a grandchild *)
    assert (Gx : is_gchild i x).
    { destruct Ax as [C | G]; [ | exact G ].
      apply child_small in C; [ congruence | lia ]. }
    destruct (Z.ltb_spec (view m h i) (view m h x)) as [Hlt | Hge].
    2: { apply sifts_ret.
         apply (hole_down_done (view m h) lo (r + 1) i) with (x := x); auto; try lia.
         lvl_goal Li. }
    apply sifts_exchange_then; auto; try lia; [ arith | ].
    set (m1 := set (set m (h + x) (view m h i)) (h + i) (view m h x)).
    assert (Hm1 : len m1 = len m) by (apply len_exchange).
    set (c := (x - 1) / 2).
    assert (Cx : is_child c x).
    { unfold is_child, c.
      pose proof (Z.div_mod (x - 1) 2 ltac:(lia)).
      pose proof (Z.mod_pos_bound (x - 1) 2 ltac:(lia)). lia. }
    assert (Cc : is_child i c) by arith.
    assert (Hcr : 0 <= c <= r) by arith.
    assert (Hxi : x <> i) by arith.
    assert (V1x : view m1 h x = view m h i) by (apply view_exchange_l; lia).
    assert (V1i : view m1 h i = view m h x) by (apply view_exchange_r; lia).
    assert (V1o : forall k, 0 <= k -> k <> i -> k <> x -> view m1 h k = view m h k)
      by (intros k Hk Hki Hkx; apply view_exchange_other; lia).
    eapply sifts_step; [ apply (parent_small x m1); arith | ]. fold c.
    eapply sifts_step; [ apply (lt_at_ok m1 h x c); lia | ].
    rewrite V1x, (V1o c) by arith.
    assert (Lx : is_min_level x = false) by (rewrite (lvl_gchild i x); auto; lia).
    assert (Fx : r + 1 < (x + 1) * 4 ^ Z.of_nat fuel)
      by (apply (fuel_step i); auto; arith).
    assert (Hix : i <= x) by arith.
    destruct (Z.ltb_spec (view m h i) (view m h c)) as [Hpush | Hkeep]; cbv iota.
    + unfold sifts. rewrite bind_assoc. fold (sifts h lo i r m1
        (pm' <- parent x ;; (swap h x pm' ;; sift_down_max_loop fuel h x r))).
      eapply sifts_step; [ apply (parent_small x m1); arith | ]. fold c.
      apply sifts_exchange_then; auto; try lia; [ arith | ].
      set (m2 := set (set m1 (h + x) (view m1 h c)) (h + c) (view m1 h x)).
      assert (Hm2 : len m2 = len m1) by (apply len_exchange).
      apply (sifts_from_deeper h lo i x); [ exact Hix | ].
      apply IH; auto; try lia.
      apply (hole_down_gchild_push (view m h) lo (r + 1) i) with (c := c) (x := x);
        auto; try lia.
      * lvl_goal Li.
      * lvl_goal Li.
      * unfold m2. rewrite view_exchange_other by (lia || arith). exact V1i.
      * unfold m2. rewrite view_exchange_l by (lia || arith). apply V1o; arith.
      * unfold m2. rewrite view_exchange_r by (lia || arith). exact V1x.
      * intros k Hk Hki Hkx Hkc. unfold m2.
        rewrite view_exchange_other by (lia || arith). apply V1o; auto.
    + eapply sifts_step; [ apply run_ret | ].
      apply (sifts_from_deeper h lo i x); [ exact Hix | ].
      apply IH; auto; try lia.
      apply (hole_down_gchild_keep (view m h) lo (r + 1) i) with (c := c);
        auto; try lia.
      * lvl_goal Li.
      * lvl_goal Li.
Qed.

(** ** Sift-down on any level *)

Lemma hole_down_from_next (f : Z -> Z) (n i : Z) :
  0 <= i -> heap_from f (i + 1) n -> hole_down f i n i.
Proof.
  intros Hi H. split.
  - intros u l Hu Hl Ha Hne. apply H; auto. lia.
  - intros g l Hg Hl G Ha. exfalso. arith.
Qed.

Lemma mmheap_sift_down_sifts (m : mem) (h lo i r : Z) :
  0 <= h -> h + r < len m -> 0 <= lo <= i -> i <= r -> r < 2 ^ 60 ->
  hole_down (view m h) lo (r + 1) i ->
  sifts h lo i r m (mmheap_sift_down h i r).
Proof.
  intros Hh Hr Hlo Hi Hr60 Hole. unfold mmheap_sift_down.
  rewrite min_level_spec by lia.
  assert (F : r + 1 < (i + 1) * 4 ^ Z.of_nat LOOP_FUEL).
  { pose proof (loop_fuel_enough r Hr60) as P.
    set (w := 4 ^ Z.of_nat LOOP_FUEL) in *. clearbody w.
    assert (0 <= i * w) by (apply Z.mul_nonneg_nonneg; lia). lia. }
  destruct (is_min_level i) eqn:Li.
  - apply sift_down_min_loop_sifts; auto.
  - apply sift_down_max_loop_sifts; auto.
Qed.

(** ** Building a heap in place *)

Lemma heap_from_leaves (f : Z -> Z) (lo n : Z) :
  0 <= lo -> n <= 2 * lo + 1 -> heap_from f lo n.
Proof.
  intros Hlo H u l Hu Hl Ha. exfalso. arith.
Qed.

Lemma make_mm_heap_loop_builds (fuel : nat) :
  forall (m : mem) (h current size : Z),
    0 <= h -> h + size <= len m -> size < 2 ^ 60 ->
    -1 <= current < 2 ^ 31 -> current < size ->
    current + 1 < Z.of_nat fuel ->
    heap_from (view m h) (current + 1) size ->
    exists m', make_mm_heap_loop fuel h current size m = (Ret tt, m') /\
               len m' = len m /\
               heap_from (view m' h) 0 size /\
               Permutation (live m h size) (live m' h size) /\
               forall q, 0 <= q -> q < h \/ h + size <= q -> get m' q = get m q.
Proof.
  induction fuel as [| fuel IH]; intros m h current size Hh Hb Hs Hc Hcs Hf Heap.
  { cbn in Hf. lia. }
  cbn [make_mm_heap_loop]. rewrite Z.geb_leb.
  destruct (Z.leb_spec 0 current) as [Hpos | Hneg].
  2: { replace (current + 1) with 0 in Heap by lia.
       exists m. split; [ reflexivity | ]. split; [ reflexivity | ].
       split; [ exact Heap | ]. split; [ apply Permutation_refl | reflexivity ]. }
  rewrite (wrap_small current), (wrap_small (size - 1)) by lia.
  destruct (mmheap_sift_down_sifts m h current current (size - 1))
    as [m1 [E1 [Hlen1 [Heap1 [Hperm1 Hframe1]]]]]; auto; try lia.
  { replace (size - 1 + 1) with size by lia.
    apply hole_down_from_next; auto. }
  replace (size - 1 + 1) with size in * by lia.
  rewrite (run_bind _ _ _ _ _ E1). rewrite to_int_small by lia.
  destruct (IH m1 h (current - 1) size) as [m' [E' [Hlen' [Heap' [Hperm' Hframe']]]]];
    auto; try lia.
  { replace (current - 1 + 1) with current by lia. exact Heap1. }
  exists m'. split; [ exact E' | ]. split; [ lia | ]. split; [ exact Heap' | ].
  split; [ eapply perm_trans; [ exact Hperm1 | exact Hperm' ] | ].
  intros q Hq Hout. rewrite (Hframe' q Hq Hout). apply Hframe1; lia.
Qed.

Lemma make_mm_heap_ok (m : mem) (h size : Z) :
  0 <= h -> 0 <= size <= 2 ^ 32 -> h + size <= len m ->
  exists m', make_mm_heap h size m = (Ret tt, m') /\
             len m' = len m /\
             mm_heap (view m' h) size /\
             Permutation (live m h size) (live m' h size) /\
             forall q, 0 <= q -> q < h \/ h + size <= q -> get m' q = get m q.
Proof.
  intros Hh Hs Hb. unfold make_mm_heap.
  destruct (Z.gtb_spec size 1) as [Hbig | Hsmall].
  2: { exists m. split; [ reflexivity | ]. split; [ reflexivity | ].
       split; [ apply mm_heap_small; exact Hsmall | ].
       split; [ apply Permutation_refl | reflexivity ]. }
  rewrite (wrap_small (size - 1)) by lia.
  rewrite (run_bind _ _ _ _ _ (parent_small (size - 1) m ltac:(lia))).
  set (p := (size - 1 - 1) / 2).
  assert (Hp : size - 3 <= 2 * p <= size - 2).
  { unfold p. pose proof (Z.div_mod (size - 1 - 1) 2 ltac:(lia)).
    pose proof (Z.mod_pos_bound (size - 1 - 1) 2 ltac:(lia)). lia. }
  rewrite to_int_small by lia.
  destruct (make_mm_heap_loop_builds (2 + length m) m h p size)
    as [m' [E' [Hlen' [Heap' [Hperm' Hframe']]]]]; auto; try lia.
  { unfold len in Hb. lia. }
  { apply heap_from_leaves; lia. }
  exists m'. split; [ exact E' | ]. split; [ exact Hlen' | ].
  split; [ apply mm_local_heap, heap_from_zero; exact Heap' | ].
  split; [ exact Hperm' | exact Hframe' ].
Qed.

(** X1: [make_mm_heap] turns any run of at most 2^32 slots into a min-max
    heap: it returns, never reads or writes outside the run, keeps the
    values of the run (with their multiplicities) and leaves them in
    min-max order.  The bound on the size is that of the [int] loop
    counter. *)
Theorem make_mm_heap_builds (m : mem) (h size : Z) :
  0 <= h -> 0 <= size <= 2 ^ 32 -> h + size <= len m ->
  exists m', make_mm_heap h size m = (Ret tt, m') /\
             len m' = len m /\
             mm_heap (view m' h) size /\
             Permutation (live m h size) (live m' h size) /\
             forall q, 0 <= q -> q < h \/ h + size <= q -> get m' q = get m q.
Proof.
  exact (make_mm_heap_ok m h size).
Qed.

Lemma make_mm_heap_builds_witness :
  exists m', make_mm_heap 1 6 [7; 5; 3; 8; 1; 9; 2; 7] = (Ret tt, m') /\
             len m' = len [7; 5; 3; 8; 1; 9; 2; 7] /\
             mm_heap (view m' 1) 6 /\
             Permutation (live [7; 5; 3; 8; 1; 9; 2; 7] 1 6) (live m' 1 6) /\
             forall q, 0 <= q -> q < 1 \/ 1 + 6 <= q ->
                       get m' q = get [7; 5; 3; 8; 1; 9; 2; 7] q.
Proof.
  apply (make_mm_heap_builds [7; 5; 3; 8; 1; 9; 2; 7] 1 6); [ lia | lia | ].
  vm_compute. discriminate.
Defined.

(** ** The extremes of a heap *)

Lemma descendant_of_root (k : Z) : 0 < k -> descendant 0 k.
Proof.
  intros Hk.
  assert (G : forall x, 0 <= x -> 0 < x -> descendant 0 x); [ | apply G; lia ].
  apply (Z_lt_induction (fun x => 0 < x -> descendant 0 x)).
  intros x IH Hx.
  destruct (parent_is_child x Hx) as [Hp C].
  destruct (Z.eq_dec ((x - 1) / 2) 0) as [E | E].
  - rewrite E in C. apply desc_child. exact C.
  - apply (desc_step 0 ((x - 1) / 2) x); [ | exact C ].
    apply IH; [ arith | lia ].
Qed.

Lemma min_at_root (f : Z -> Z) (n k : Z) : mm_heap f n -> 0 <= k < n -> f 0 <= f k.
Proof.
  intros H Hk.
  destruct (Z.eq_dec k 0) as [-> | Hne]; [ lia | ].
  assert (O : ordered f 0 k) by (apply H; [ lia | lia | apply descendant_of_root; lia ]).
  exact O.
Qed.

(** X2: on a min-max heap of [n >= 1] elements inside the buffer,
    [mm_heap_min] returns the smallest of the [n] values and leaves the
    buffer as it was. *)
Theorem mm_heap_min_is_minimum (m : mem) (h n : Z) :
  0 <= h -> 1 <= n -> h + n <= len m -> mm_heap (view m h) n ->
  exists x, mm_heap_min h n m = (Ret x, m) /\ is_min_of (view m h) n x.
Proof.
  intros Hh Hn Hb Heap. unfold mm_heap_min.
  destruct (Z.ltb_spec n 1) as [Hlt | _]; [ lia | ].
  rewrite rd_ok by lia.
  eexists. split; [ reflexivity | ].
  split; [ exists 0; split; [ lia | reflexivity ] | ].
  intros k Hk. apply (min_at_root (view m h) n); auto.
Qed.

Lemma mm_heap_min_is_minimum_witness :
  exists x, mm_heap_min 0 3 [1; 9; 5] = (Ret x, [1; 9; 5]) /\
            is_min_of (view [1; 9; 5] 0) 3 x.
Proof.
  apply (mm_heap_min_is_minimum [1; 9; 5] 0 3); [ lia | lia | vm_compute; discriminate | ].
  apply mm_local_heap, mm_local_b_sound. vm_compute. reflexivity.
Defined.

Lemma mm_heap_max_ok (m : mem) (h n : Z) :
  0 <= h -> 1 <= n < 2 ^ 60 -> h + n <= len m -> mm_heap (view m h) n ->
  exists x, mm_heap_max h n m = (Ret x, m) /\ is_max_of (view m h) n x.
Proof.
  intros Hh Hn Hb Heap. unfold mm_heap_max.
  destruct (Z.ltb_spec n 1) as [Hlt | _]; [ lia | ].
  rewrite (wrap_small (n - 1)) by lia.
  destruct (Z_le_gt_dec 2 n) as [Hc | Hone].
  - destruct (max_child_ok m h 0 (n - 1) Hh ltac:(lia) ltac:(lia) ltac:(lia))
      as [c [Ec [Cc [Hcn Mc]]]].
    rewrite (run_bind _ _ _ _ _ Ec). cbn [fst snd].
    rewrite rd_ok by arith.
    eexists. split; [ reflexivity | ].
    split; [ exists c; split; [ arith | reflexivity ] | ].
    intros k Hk. apply (max_at_root_child (view m h) n c); auto; try lia.
    + apply mm_heap_local. exact Heap.
    + intros c' C' Hc'. apply Mc; auto. lia.
  - assert (n = 1) by lia. subst n.
    assert (E : max_child h 0 (1 - 1) m = (Ret (false, 0), m)) by reflexivity.
    rewrite (run_bind _ _ _ _ _ E). cbn [fst snd].
    rewrite rd_ok by lia.
    eexists. split; [ reflexivity | ].
    split; [ exists 0; split; [ lia | reflexivity ] | ].
    intros k Hk. replace k with 0 by lia. unfold view. lia.
Qed.

(** X3: on a min-max heap of [n >= 1] elements inside the buffer (of fewer
    than 2^60 elements), [mm_heap_max] returns the largest of the [n]
    values and leaves the buffer as it was. *)
Theorem mm_heap_max_is_maximum (m : mem) (h n : Z) :
  0 <= h -> 1 <= n < 2 ^ 60 -> h + n <= len m -> mm_heap (view m h) n ->
  exists x, mm_heap_max h n m = (Ret x, m) /\ is_max_of (view m h) n x.
Proof.
  exact (mm_heap_max_ok m h n).
Qed.

Lemma mm_heap_max_is_maximum_witness :
  exists x, mm_heap_max 0 3 [1; 9; 5] = (Ret x, [1; 9; 5]) /\
            is_max_of (view [1; 9; 5] 0) 3 x.
Proof.
  apply (mm_heap_max_is_maximum [1; 9; 5] 0 3); [ lia | lia | vm_compute; discriminate | ].
  apply mm_local_heap, mm_local_b_sound. vm_compute. reflexivity.
Defined.

(** ** Removing the minimum *)

Lemma live_snoc (m : mem) (h n : Z) :
  0 <= h -> 0 <= n -> h + n < len m ->
  live m h (n + 1) = live m h n ++ [view m h n].
Proof.
  intros Hh Hn Hb. unfold live, view, get.
  replace (Z.to_nat (n + 1)) with (S (Z.to_nat n)) by lia.
  rewrite firstn_snoc by (rewrite length_skipn; unfold len in *; lia).
  rewrite nth_skipn. do 3 f_equal. lia.
Qed.

(** X4: on a min-max heap of [n >= 2] elements, [mm_heap_remove_min] returns
    the new count [n - 1] and the smallest value, stays inside the [n]
    slots, and leaves a min-max heap of the other [n - 1] values. *)
Theorem mm_heap_remove_min_spec (m : mem) (h n : Z) :
  0 <= h -> 2 <= n < 2 ^ 60 -> h + n <= len m -> mm_heap (view m h) n ->
  exists x m', mm_heap_remove_min h n m = (Ret (n - 1, x), m') /\
               is_min_of (view m h) n x /\
               len m' = len m /\
               mm_heap (view m' h) (n - 1) /\
               Permutation (live m h n) (x :: live m' h (n - 1)) /\
               forall q, 0 <= q -> q < h \/ h + n <= q -> get m' q = get m q.
Proof.
  intros Hh Hn Hb Heap. unfold mm_heap_remove_min.
  destruct (Z.eqb_spec n 0) as [Hz | _]; [ lia | ].
  rewrite (run_bind _ _ _ _ _ (rd_ok m (h + 0) ltac:(lia))).
  rewrite (wrap_small (n - 1)) by lia.
  rewrite (run_bind _ _ _ _ _ (swap_ok m h 0 (n - 1) ltac:(lia) ltac:(lia))).
  set (m1 := set (set m (h + 0) (view m h (n - 1))) (h + (n - 1)) (view m h 0)).
  assert (Hm1 : len m1 = len m) by (apply len_exchange).
  assert (V1o : forall k, 0 <= k -> k <> 0 -> k <> n - 1 -> view m1 h k = view m h k)
    by (intros k Hk Hk0 Hkn; apply view_exchange_other; lia).
  assert (V1l : view m1 h (n - 1) = view m h 0) by (apply view_exchange_r; lia).
  rewrite (wrap_small (n - 1 - 1)) by lia.
  pose proof (mm_heap_local _ _ Heap) as L.
  destruct (mmheap_sift_down_sifts m1 h 0 0 (n - 1 - 1))
    as [m' [E' [Hlen' [Heap' [Hperm' Hframe']]]]]; auto; try lia.
  { split.
    - intros u l Hu Hl Ha Hne.
      apply (ordered_ext (view m h)); [ apply V1o; arith | apply V1o; arith | ].
      apply L; auto; lia.
    - intros g l Hg Hl G Ha. exfalso. arith. }
  replace (n - 1 - 1 + 1) with (n - 1) in * by lia.
  rewrite (run_bind _ _ _ _ _ E'). rewrite run_ret.
  exists (get m (h + 0)), m'. split; [ reflexivity | ].
  split.
  { split; [ exists 0; split; [ lia | reflexivity ] | ].
    intros k Hk. apply (min_at_root (view m h) n); auto. }
  split; [ lia | ].
  split; [ apply mm_local_heap, heap_from_zero; exact Heap' | ].
  split.
  - eapply perm_trans; [ apply (live_exchange m h n 0 (n - 1)); lia | ]. fold m1.
    replace n with (n - 1 + 1) at 1 by lia.
    rewrite live_snoc by lia. rewrite V1l.
    eapply perm_trans; [ apply Permutation_sym, Permutation_cons_append | ].
    apply perm_skip. exact Hperm'.
  - intros q Hq Hout. rewrite Hframe' by lia.
    unfold m1. rewrite !get_set_neq by lia. reflexivity.
Qed.

Lemma mm_heap_remove_min_spec_witness :
  exists x m', mm_heap_remove_min 0 3 [1; 9; 5] = (Ret (3 - 1, x), m') /\
               is_min_of (view [1; 9; 5] 0) 3 x /\
               len m' = len [1; 9; 5] /\
               mm_heap (view m' 0) (3 - 1) /\
               Permutation (live [1; 9; 5] 0 3) (x :: live m' 0 (3 - 1)) /\
               forall q, 0 <= q -> q < 0 \/ 0 + 3 <= q -> get m' q = get [1; 9; 5] q.
Proof.
  apply (mm_heap_remove_min_spec [1; 9; 5] 0 3); [ lia | lia | vm_compute; discriminate | ].
  apply mm_local_heap, mm_local_b_sound. vm_compute. reflexivity.
Defined.

(** * Further properties of the heap primitives *)

(** X5: [log_2] is the floor of the binary logarithm on every positive 64-bit
    number: the result [k] is below 64 and [2^k <= x < 2^(k+1)]. *)
Theorem log_2_floor (x : Z) :
  0 < x < 2 ^ 64 -> 0 <= log_2 x < 64 /\ 2 ^ log_2 x <= x < 2 ^ (log_2 x + 1).
Proof.
  intros H. rewrite log_2_spec by exact H.
  pose proof (Z.log2_spec x ltac:(lia)) as S.
  pose proof (Z.log2_nonneg x) as N.
  split; [ split; [ exact N | apply Z.log2_lt_pow2; lia ] | ].
  unfold Z.succ in S. exact S.
Qed.

Lemma log_2_floor_witness :
  0 <= log_2 1000 < 64 /\ 2 ^ log_2 1000 <= 1000 < 2 ^ (log_2 1000 + 1).
Proof.
  apply (log_2_floor 1000). lia.
Defined.

(** X6: the levels of the heap alternate as [min_level] sees them: the root
    is on a min level, and a child is on a min level exactly when its
    parent is not. *)
Theorem min_level_alternates (i c : Z) :
  0 <= i -> is_child i c -> c < 2 ^ 64 - 1 ->
  min_level 0 = true /\ min_level c = negb (min_level i).
Proof.
  intros Hi C Hc. split; [ reflexivity | ].
  rewrite !min_level_spec by arith.
  apply lvl_child; auto.
Qed.

Lemma min_level_alternates_witness :
  min_level 0 = true /\ min_level 12 = negb (min_level 5).
Proof.
  apply (min_level_alternates 5 12); [ lia | right; reflexivity | lia ].
Defined.

(** X7: [mm_heap_add] on a min-max heap of [n] values in a buffer with room
    for [cap]: below capacity it returns the new count [n + 1] and leaves
    a min-max heap of the old values and the new one; at or above capacity
    it throws [runtime_error] and leaves the buffer as it was. *)
Theorem mm_heap_add_spec (m : mem) (h n cap v : Z) :
  0 <= h -> 0 <= n < 2 ^ 31 -> h + cap <= len m -> mm_heap (view m h) n ->
  (n < cap ->
   exists m', mm_heap_add v h n cap m = (Ret (n + 1), m') /\
              len m' = len m /\
              mm_heap (view m' h) (n + 1) /\
              Permutation (v :: live m h n) (live m' h (n + 1))) /\
  (cap <= n -> mm_heap_add v h n cap m = (Throw runtime_error, m)).
Proof.
  intros Hh Hn Hb Heap. split.
  - intros Hroom. apply mm_heap_add_ok; auto; lia.
  - intros Hfull. unfold mm_heap_add.
    destruct (Z.ltb_spec n cap) as [Hlt | _]; [ lia | reflexivity ].
Qed.

Lemma mm_heap_add_spec_witness :
  (3 < 4 ->
   exists m', mm_heap_add 0 0 3 4 [1; 9; 5; 7] = (Ret (3 + 1), m') /\
              len m' = len [1; 9; 5; 7] /\
              mm_heap (view m' 0) (3 + 1) /\
              Permutation (0 :: live [1; 9; 5; 7] 0 3) (live m' 0 (3 + 1))) /\
  (4 <= 3 -> mm_heap_add 0 0 3 4 [1; 9; 5; 7] = (Throw runtime_error, [1; 9; 5; 7])).
Proof.
  apply (mm_heap_add_spec [1; 9; 5; 7] 0 3 4 0);
    [ lia | lia | vm_compute; discriminate | ].
  apply mm_local_heap, mm_local_b_sound. vm_compute. reflexivity.
Defined.

(** * Further properties of the container *)

(** ** Partition geometry *)

Lemma partition_start_small (p : Z) : 0 <= p < 2 ^ 31 -> _partition_start p = p * p.
Proof.
  intros H. unfold _partition_start. apply wrap_small. nia.
Qed.

Lemma partition_end_small (p : Z) : 0 <= p < 2 ^ 31 -> _partition_end p = p * p + 2 * p.
Proof.
  intros H. unfold _partition_end. rewrite wrap_small by nia. lia.
Qed.

Lemma partition_size_small (p : Z) : 0 <= p < 2 ^ 31 -> _partition_size p = 2 * p + 1.
Proof.
  intros H. unfold _partition_size. rewrite wrap_small by nia. lia.
Qed.

Lemma next_square_le (q p : Z) : 0 <= q < p -> q * q + 2 * q + 1 <= p * p.
Proof.
  intros H. nia.
Qed.

Lemma index_to_partition_in (p i : Z) :
  0 <= p -> p * p <= i <= p * p + 2 * p -> i < 2 ^ 52 -> _index_to_partition i = p.
Proof.
  intros Hp Hi Hs. unfold _index_to_partition.
  destruct (Z.gtb_spec i 0) as [Hpos | Hz].
  - rewrite floor_sqrt_exact by lia. apply Z.sqrt_unique. unfold Z.succ. nia.
  - nia.
Qed.

(** X8: the partitions tile the buffer: partition 0 starts at slot 0, partition
    [p] is the [2p + 1] slots from [_partition_start p] to [_partition_end p],
    and the next partition starts right after.  Up to partition 2^26 - 1,
    whose slots lie below 2^52, [_index_to_partition] maps every slot of
    partition [p] back to [p]; the square root in double precision then
    stops telling the partitions apart, and the last slot of partition 2^26
    is mapped to partition 2^26 + 1. *)
Theorem partitions_tile (p : Z) :
  0 <= p < 2 ^ 31 - 1 ->
  _partition_start 0 = 0 /\
  _partition_end p = _partition_start p + _partition_size p - 1 /\
  _partition_start (p + 1) = _partition_end p + 1 /\
  (p < 2 ^ 26 ->
   forall i, _partition_start p <= i <= _partition_end p -> _index_to_partition i = p) /\
  _index_to_partition (_partition_end (2 ^ 26)) = 2 ^ 26 + 1.
Proof.
  intros Hp.
  rewrite (partition_start_small p), (partition_start_small (p + 1)),
    partition_end_small, partition_size_small by lia.
  split; [ reflexivity | ]. split; [ lia | ]. split; [ lia | ].
  split; [ | vm_compute; reflexivity ].
  intros Hs i Hi. apply index_to_partition_in; [ lia | lia | ].
  assert (p * p + 2 * p + 1 <= 2 ^ 26 * 2 ^ 26) by (apply next_square_le; lia).
  lia.
Qed.

Lemma partitions_tile_witness :
  _partition_start 0 = 0 /\
  _partition_end 3 = _partition_start 3 + _partition_size 3 - 1 /\
  _partition_start (3 + 1) = _partition_end 3 + 1 /\
  forall i, _partition_start 3 <= i <= _partition_end 3 -> _index_to_partition i = 3.
Proof.
  destruct (partitions_tile 3) as (A & B & C & D & _); [ lia | ].
  split; [ exact A | ]. split; [ exact B | ]. split; [ exact C | ].
  apply D. lia.
Defined.

Lemma ceil_sqrt_spec (n : Z) :
  0 < n < 2 ^ 52 ->
  0 < ceil_sqrt n /\
  (ceil_sqrt n - 1) * (ceil_sqrt n - 1) < n <= ceil_sqrt n * ceil_sqrt n.
Proof.
  intros Hn. rewrite ceil_sqrt_exact by lia.
  pose proof (Z.sqrt_spec n ltac:(lia)) as S. unfold Z.succ in S.
  pose proof (Z.sqrt_nonneg n) as N.
  destruct (Z.eqb_spec (Z.sqrt n * Z.sqrt n) n) as [E | E]; nia.
Qed.

Lemma final_partition_spec (h : HeapArray) :
  0 < count h < 2 ^ 52 ->
  0 <= _final_partition h < 2 ^ 26 /\
  _final_partition h * _final_partition h < count h
    <= (_final_partition h + 1) * (_final_partition h + 1).
Proof.
  intros Hc. unfold _final_partition.
  destruct (Z.gtb_spec (count h) 0) as [_ | Hz]; [ | lia ].
  pose proof (ceil_sqrt_spec (count h) ltac:(lia)) as [P S].
  assert (B : ceil_sqrt (count h) - 1 < 2 ^ 26) by nia.
  rewrite wrap_small by lia.
  split; [ lia | ].
  replace (ceil_sqrt (count h) - 1 + 1) with (ceil_sqrt (count h)) by lia. exact S.
Qed.

Lemma count_in_partition_before (h : HeapArray) (p : Z) :
  0 <= p < _final_partition h -> _final_partition h < 2 ^ 31 ->
  _count_in_partition h p = 2 * p + 1.
Proof.
  intros Hp Hf. unfold _count_in_partition. rewrite Z.geb_leb.
  destruct (Z.leb_spec (_final_partition h) p) as [Hge | _]; [ lia | ].
  apply partition_size_small. lia.
Qed.

Lemma count_in_partition_final (h : HeapArray) :
  0 < count h < 2 ^ 52 ->
  _count_in_partition h (_final_partition h)
  = count h - _final_partition h * _final_partition h.
Proof.
  intros Hc. pose proof (final_partition_spec h Hc) as [B S].
  unfold _count_in_partition. rewrite Z.geb_leb, Z.leb_refl.
  rewrite (wrap_small (_ * _)) by nia. apply wrap_small. nia.
Qed.

(** X9: with [count] elements (fewer than 2^52) the final partition [fp] is the
    one that holds the last element: it starts below [count], is never
    empty and never over-full, every partition before it is full, and the
    full partitions and the final one account for exactly [count]
    elements. *)
Theorem final_partition_holds_last (h : HeapArray) :
  0 < count h < 2 ^ 52 ->
  0 <= _final_partition h /\
  _index_to_partition (count h - 1) = _final_partition h /\
  1 <= _count_in_partition h (_final_partition h)
    <= _partition_size (_final_partition h) /\
  _partition_start (_final_partition h)
    + _count_in_partition h (_final_partition h) = count h /\
  forall p, 0 <= p < _final_partition h ->
            _count_in_partition h p = _partition_size p.
Proof.
  intros Hc. pose proof (final_partition_spec h Hc) as [B S].
  rewrite count_in_partition_final by exact Hc.
  rewrite partition_start_small, partition_size_small by lia.
  split; [ lia | ].
  split; [ apply index_to_partition_in; lia | ].
  split; [ lia | ]. split; [ lia | ].
  intros p Hp. rewrite count_in_partition_before, partition_size_small by lia.
  reflexivity.
Qed.

Lemma final_partition_holds_last_witness :
  0 <= _final_partition (mkHeapArray 9 6 false [0; 1; 3; 2; 5; 4; 0; 0; 0]) /\
  _index_to_partition (count (mkHeapArray 9 6 false [0; 1; 3; 2; 5; 4; 0; 0; 0]) - 1)
  = _final_partition (mkHeapArray 9 6 false [0; 1; 3; 2; 5; 4; 0; 0; 0]) /\
  1 <= _count_in_partition (mkHeapArray 9 6 false [0; 1; 3; 2; 5; 4; 0; 0; 0])
         (_final_partition (mkHeapArray 9 6 false [0; 1; 3; 2; 5; 4; 0; 0; 0]))
    <= _partition_size (_final_partition (mkHeapArray 9 6 false [0; 1; 3; 2; 5; 4; 0; 0; 0])) /\
  _partition_start (_final_partition (mkHeapArray 9 6 false [0; 1; 3; 2; 5; 4; 0; 0; 0]))
    + _count_in_partition (mkHeapArray 9 6 false [0; 1; 3; 2; 5; 4; 0; 0; 0])
        (_final_partition (mkHeapArray 9 6 false [0; 1; 3; 2; 5; 4; 0; 0; 0]))
  = count (mkHeapArray 9 6 false [0; 1; 3; 2; 5; 4; 0; 0; 0]) /\
  forall p, 0 <= p < _final_partition (mkHeapArray 9 6 false [0; 1; 3; 2; 5; 4; 0; 0; 0]) ->
            _count_in_partition (mkHeapArray 9 6 false [0; 1; 3; 2; 5; 4; 0; 0; 0]) p
            = _partition_size p.
Proof.
  apply (final_partition_holds_last (mkHeapArray 9 6 false [0; 1; 3; 2; 5; 4; 0; 0; 0])).
  simpl. lia.
Defined.

(** ** Observers *)

Lemma set_a_same (h : HeapArray) : set_a h (a h) = h.
Proof.
  destruct h. reflexivity.
Qed.

Lemma ro_ret {S A : Type} (x : A) : read_only (ret (S := S) x).
Proof.
  intros s r s' E. inversion E. reflexivity.
Qed.

Lemma ro_throw {S A : Type} (e : exn) : read_only (throw (S := S) (A := A) e).
Proof.
  intros s r s' E. inversion E. reflexivity.
Qed.

Lemma ro_diverge {S A : Type} : read_only (diverge (S := S) (A := A)).
Proof.
  intros s r s' E. inversion E. reflexivity.
Qed.

Lemma ro_gets {S A : Type} (f : S -> A) : read_only (gets f).
Proof.
  intros s r s' E. inversion E. reflexivity.
Qed.

Lemma ro_rd (p : Z) : read_only (rd p).
Proof.
  intros s r s' E. unfold rd in E. destruct (in_bounds s p); inversion E; reflexivity.
Qed.

Lemma ro_bind {S A B : Type} (c : M S A) (k : A -> M S B) :
  read_only c -> (forall x, read_only (k x)) -> read_only (bind c k).
Proof.
  intros Hc Hk s r s' E. unfold bind in E.
  destruct (c s) as [r0 s0] eqn:E0. specialize (Hc _ _ _ E0). subst s0.
  destruct r0; try (inversion E; reflexivity).
  eapply Hk. exact E.
Qed.

Lemma ro_on_buffer {A : Type} (c : M mem A) : read_only c -> read_only (on_buffer c).
Proof.
  intros Hc h r h' E. unfold on_buffer in E.
  destruct (c (a h)) as [r0 m'] eqn:E0. specialize (Hc _ _ _ E0). subst m'.
  inversion E. apply set_a_same.
Qed.

Lemma ro_fuel {S A : Type} (f : S -> nat) (c : nat -> M S A) :
  (forall n, read_only (c n)) -> read_only (fun s => c (f s) s).
Proof.
  intros H s r s' E. eapply H. exact E.
Qed.

Ltac ro_with known :=
  repeat first
    [ known
    | apply ro_ret | apply ro_throw | apply ro_diverge | apply ro_gets | apply ro_rd
    | apply ro_on_buffer
    | apply ro_bind; [ | intros ]
    | match goal with
      | |- read_only (if ?b then _ else _) => destruct b
      | |- read_only (and_then ?b _) => unfold and_then
      | |- read_only (let '(_, _) := ?p in _) => destruct p
      | |- read_only (match ?p with (_, _) => _ end) => destruct p
      end ].

Lemma ro_gt_at (h i j : Z) : read_only (gt_at h i j).
Proof.
  unfold gt_at. ro_with fail.
Qed.

Lemma ro_max_child (h i r : Z) : read_only (max_child h i r).
Proof.
  unfold max_child. ro_with ltac:(apply ro_gt_at).
Qed.

Lemma ro_mm_heap_max (h n : Z) : read_only (mm_heap_max h n).
Proof.
  unfold mm_heap_max. ro_with ltac:(apply ro_max_child).
Qed.

Lemma ro_max_in_partition (p : Z) : read_only (_max_in_partition p).
Proof.
  unfold _max_in_partition. ro_with ltac:(apply ro_mm_heap_max).
Qed.

Lemma ro_range_in_partition (p : Z) : read_only (_range_in_partition p).
Proof.
  unfold _range_in_partition. ro_with ltac:(apply ro_mm_heap_max).
Qed.

Lemma ro_partition_matches (value : Z) (for_insert : bool) (mid : Z) (range : Z * Z) :
  read_only (partition_matches value for_insert mid range).
Proof.
  unfold partition_matches. ro_with ltac:(apply ro_max_in_partition).
Qed.

Lemma ro_find_partition_loop (fuel : nat) (value : Z) (for_insert : bool) :
  forall left right, read_only (find_partition_loop fuel value for_insert left right).
Proof.
  induction fuel as [| fuel IH]; intros left right; cbn [find_partition_loop];
    ro_with ltac:(first [ apply IH | apply ro_range_in_partition
                        | apply ro_partition_matches ]).
Qed.

Lemma ro_find_partition (value : Z) (for_insert : bool) :
  read_only (_find_partition value for_insert).
Proof.
  unfold _find_partition. ro_with ltac:(apply ro_find_partition_loop).
Qed.

Lemma ro_find_loop (fuel : nat) (value p_end : Z) :
  forall i, read_only (find_loop fuel value i p_end).
Proof.
  induction fuel as [| fuel IH]; intros i; cbn [find_loop]; ro_with ltac:(apply IH).
Qed.

Lemma ro_find (value : Z) : read_only (_find value).
Proof.
  unfold _find.
  ro_with ltac:(first
    [ apply ro_find_partition
    | apply (ro_fuel (fun h => (2 + length (a h))%nat)
               (fun n => find_loop n value _ _));
      intros n; apply ro_find_loop ]).
Qed.

Lemma ro_find_pair (value : Z) : read_only (find value).
Proof.
  unfold find. apply ro_bind; [ apply ro_find | ].
  intros [[[found index] p] off]. apply ro_ret.
Qed.

(** X10: the observers [size], [operator[]], [min], [max], [find] and
    [contains] leave the container, buffer included, exactly as they found
    it, whatever they return and whether or not they fail. *)
Theorem observers_read_only :
  read_only size /\
  (forall index, read_only (subscript index)) /\
  read_only min /\
  read_only max /\
  (forall value, read_only (find value)) /\
  (forall value, read_only (contains value)).
Proof.
  split; [ apply ro_gets | ].
  split; [ intros index; unfold subscript; ro_with fail | ].
  split; [ unfold min; ro_with fail | ].
  split; [ unfold max; ro_with ltac:(apply ro_mm_heap_max) | ].
  split; [ exact ro_find_pair | ].
  intros value. unfold contains. ro_with ltac:(apply ro_find_pair).
Qed.

(** X11: [operator[]] is bounds-checked against the logical size: below
    [count] it returns the slot, from [count] on it throws [out_of_range];
    either way the container is unchanged. *)
Theorem subscript_checked (h : HeapArray) (index : Z) :
  0 <= index -> count h <= len (a h) ->
  (index < count h -> subscript index h = (Ret (get (a h) index), h)) /\
  (count h <= index -> subscript index h = (Throw out_of_range, h)).
Proof.
  intros Hi Hc. unfold subscript, bind, gets. rewrite Z.geb_leb. split; intros H.
  - destruct (Z.leb_spec (count h) index) as [Hge | _]; [ lia | ].
    unfold on_buffer. rewrite rd_ok by lia. rewrite set_a_same. reflexivity.
  - destruct (Z.leb_spec (count h) index) as [_ | Hlt]; [ reflexivity | lia ].
Qed.

Lemma subscript_checked_witness :
  (1 < count (mkHeapArray 4 3 false [0; 1; 3; 2]) ->
   subscript 1 (mkHeapArray 4 3 false [0; 1; 3; 2])
   = (Ret (get (a (mkHeapArray 4 3 false [0; 1; 3; 2])) 1),
      mkHeapArray 4 3 false [0; 1; 3; 2])) /\
  (count (mkHeapArray 4 3 false [0; 1; 3; 2]) <= 1 ->
   subscript 1 (mkHeapArray 4 3 false [0; 1; 3; 2])
   = (Throw out_of_range, mkHeapArray 4 3 false [0; 1; 3; 2])).
Proof.
  apply (subscript_checked (mkHeapArray 4 3 false [0; 1; 3; 2]) 1);
    [ lia | vm_compute; discriminate ].
Defined.

(** ** What [find] reports *)

Lemma bind_ret_inv {S A B : Type} (c : M S A) (k : A -> M S B) (s s' : S) (y : B) :
  bind c k s = (Ret y, s') ->
  exists x s1, c s = (Ret x, s1) /\ k x s1 = (Ret y, s').
Proof.
  unfold bind. destruct (c s) as [[x | e | | | ] s1]; intros E; try discriminate.
  exists x, s1. split; [ reflexivity | exact E ].
Qed.

Lemma find_loop_sound (fuel : nat) (value p_end : Z) (h : HeapArray) :
  forall i0 i h',
    find_loop fuel value i0 p_end h = (Ret (true, i), h') ->
    0 <= i < len (a h) /\ get (a h) i = value.
Proof.
  induction fuel as [| fuel IH]; intros i0 i h' E; cbn [find_loop] in E;
    [ discriminate | ].
  destruct (i0 <=? p_end); [ | inversion E ].
  apply bind_ret_inv in E. destruct E as [x [h1 [E1 E2]]].
  unfold on_buffer, rd in E1.
  destruct (in_bounds (a h) i0) eqn:B; [ | discriminate ].
  inversion E1; subst x h1. clear E1. rewrite set_a_same in E2.
  destruct (Z.eqb_spec (get (a h) i0) value) as [Ev | _].
  - inversion E2; subst. split; [ | reflexivity ].
    unfold in_bounds in B. apply andb_true_iff in B. lia.
  - eapply IH. exact E2.
Qed.

(** X12: when [find] reports success, the index it returns is a slot of the
    buffer that holds the value searched for, the container is unchanged,
    and [contains] answers [true] for that value. *)
Theorem find_sound (value : Z) (h h' : HeapArray) (i : Z) :
  find value h = (Ret (true, i), h') ->
  h' = h /\ 0 <= i < len (a h) /\ get (a h) i = value /\
  contains value h = (Ret true, h).
Proof.
  intros E.
  assert (R : h' = h) by exact (ro_find_pair _ _ _ _ E).
  subst h'. split; [ reflexivity | ].
  pose proof E as E0.
  unfold find in E. apply bind_ret_inv in E.
  destruct E as [[[[found index] p] off] [h1 [E1 E2]]].
  inversion E2; subst found index h1. clear E2.
  unfold _find in E1.
  apply bind_ret_inv in E1. destruct E1 as [p' [h1 [Ep E1]]].
  pose proof (ro_find_partition _ _ _ _ _ Ep). subst h1.
  apply bind_ret_inv in E1. destruct E1 as [c [h1 [Ec E1]]].
  inversion Ec; subst c h1. clear Ec.
  apply bind_ret_inv in E1. destruct E1 as [r [h1 [Er E1]]].
  inversion E1; subst. clear E1.
  destruct (count h >? 0) eqn:Hc; [ | inversion Er; subst; discriminate ].
  destruct r as [b j]. cbn [fst snd] in *. subst b.
  destruct (find_loop_sound _ _ _ _ _ _ _ Er) as [Hi Hv].
  split; [ exact Hi | ]. split; [ exact Hv | ].
  unfold contains. rewrite (run_bind _ _ _ _ _ (eq_refl : gets count h = (Ret (count h), h))).
  rewrite Hc. rewrite (run_bind _ _ _ _ _ E0). reflexivity.
Qed.

Lemma find_sound_witness :
  mkHeapArray 4 3 false [0; 1; 3; 2] = mkHeapArray 4 3 false [0; 1; 3; 2] /\
  0 <= 2 < len (a (mkHeapArray 4 3 false [0; 1; 3; 2])) /\
  get (a (mkHeapArray 4 3 false [0; 1; 3; 2])) 2 = 3 /\
  contains 3 (mkHeapArray 4 3 false [0; 1; 3; 2])
  = (Ret true, mkHeapArray 4 3 false [0; 1; 3; 2]).
Proof.
  apply (find_sound 3 (mkHeapArray 4 3 false [0; 1; 3; 2])
           (mkHeapArray 4 3 false [0; 1; 3; 2]) 2).
  vm_compute. reflexivity.
Defined.

(** ** Resizing and copying *)

Lemma len_alloc (fresh : nat -> Z) (n : Z) : 0 <= n -> len (alloc fresh n) = n.
Proof.
  intros H. unfold len, alloc. rewrite length_map, length_seq. lia.
Qed.

Lemma len_carry_over (l fill : mem) (k : Z) :
  0 <= k <= len l -> k <= len fill ->
  len (firstn (Z.to_nat k) l ++ skipn (Z.to_nat k) fill) = len fill.
Proof.
  unfold len. intros Hl Hf. rewrite length_app, length_firstn, length_skipn. lia.
Qed.

Lemma firstn_carry_over (l fill : mem) (k : Z) :
  0 <= k <= len l ->
  firstn (Z.to_nat k) (firstn (Z.to_nat k) l ++ skipn (Z.to_nat k) fill)
  = firstn (Z.to_nat k) l.
Proof.
  unfold len. intros Hl.
  rewrite firstn_app, length_firstn.
  replace (Z.to_nat k - Nat.min (Z.to_nat k) (length l))%nat with 0%nat by lia.
  rewrite firstn_firstn, Nat.min_id. cbn. apply app_nil_r.
Qed.

Lemma ceil_sqrt_covers (n : Z) :
  0 < n < 2 ^ 52 -> n <= ceil_sqrt n * ceil_sqrt n < 2 ^ 64.
Proof.
  intros H. pose proof (ceil_sqrt_spec n H) as [P S].
  assert (ceil_sqrt n - 1 < 2 ^ 26) by nia. nia.
Qed.

(** Past 2^52 the rounded root can fall short: the square of the ceiling
    of the root of 2^52 + 1, as the code computes it, is 2^52. *)
Lemma ceil_sqrt_falls_short :
  ceil_sqrt (2 ^ 52 + 1) * ceil_sqrt (2 ^ 52 + 1) < 2 ^ 52 + 1.
Proof.
  vm_compute. reflexivity.
Qed.

Lemma resize_ok (fresh : nat -> Z) (h : HeapArray) (n : Z) (round_up : bool) :
  fixed h = false -> 0 < n < (if round_up then 2 ^ 52 else 2 ^ 62) ->
  0 <= count h <= len (a h) -> count h <= n ->
  exists h', _resize fresh n round_up h = (Ret tt, h') /\
             n <= storage h' < 2 ^ 64 /\
             storage h' = (if round_up then ceil_sqrt n * ceil_sqrt n else n) /\
             len (a h') = storage h' /\
             count h' = count h /\ fixed h' = false /\
             elements h' = elements h.
Proof.
  intros Hf Hn Hc Hcn. unfold _resize. rewrite Hf.
  destruct (Z.gtb_spec n 0) as [_ | Hz]; [ | destruct round_up; lia ].
  set (n' := if round_up then wrap (ceil_sqrt n * ceil_sqrt n) else n).
  assert (En : n' = (if round_up then ceil_sqrt n * ceil_sqrt n else n) /\
               n <= n' < 2 ^ 64).
  { unfold n'. destruct round_up; [ | lia ].
    pose proof (ceil_sqrt_covers n Hn) as Hs. rewrite wrap_small; lia. }
  destruct En as [En Hn'].
  destruct (a h) as [| x l] eqn:Ea.
  - eexists. split; [ reflexivity | ]. cbn [storage a count fixed].
    split; [ exact Hn' | ].
    split; [ exact En | ]. split; [ apply len_alloc; lia | ].
    split; [ reflexivity | ]. split; [ reflexivity | ].
    unfold elements. cbn [count a]. rewrite Ea.
    cbn in Hc. replace (count h) with 0 by lia. reflexivity.
  - rewrite Z.min_l by lia.
    destruct (Z.leb_spec (count h) (len (x :: l))) as [_ | Hgt]; [ | lia ].
    eexists. split; [ reflexivity | ]. cbn [storage a count fixed].
    split; [ exact Hn' | ].
    split; [ exact En | ].
    split; [ rewrite len_carry_over; rewrite ?len_alloc; lia | ].
    split; [ reflexivity | ]. split; [ reflexivity | ].
    unfold elements. cbn [count a]. rewrite Ea.
    apply firstn_carry_over. lia.
Qed.

(** X13: [_resize] on a container that is allowed to resize, asked for [n]
    slots with room for the current elements, [n] below 2^52 when rounding
    (where the root in double precision is exact) and below 2^62
    otherwise: it succeeds, the buffer has exactly [storage] slots,
    [storage] is [n] or, when rounding, the square of the ceiling of its
    root (at least [n]), and the elements and their count are as before.
    On a fixed-size container it throws [runtime_error] and changes
    nothing. *)
Theorem resize_keeps_elements (fresh : nat -> Z) (h : HeapArray) (n : Z) (round_up : bool) :
  0 < n < (if round_up then 2 ^ 52 else 2 ^ 62) ->
  0 <= count h <= len (a h) -> count h <= n ->
  (fixed h = true -> _resize fresh n round_up h = (Throw runtime_error, h)) /\
  (fixed h = false ->
   exists h', _resize fresh n round_up h = (Ret tt, h') /\
              n <= storage h' /\
              (if round_up then perfect_square (storage h') else storage h' = n) /\
              len (a h') = storage h' /\
              count h' = count h /\ fixed h' = false /\
              elements h' = elements h).
Proof.
  intros Hn Hc Hcn. split; intros Hf.
  - unfold _resize. rewrite Hf. reflexivity.
  - destruct (resize_ok fresh h n round_up Hf Hn Hc Hcn)
      as [h' [E [Hb [Hs [Hl [Hk [Hx He]]]]]]].
    exists h'. split; [ exact E | ].
    split; [ lia | ].
    split; [ | auto ].
    destruct round_up; [ | exact Hs ].
    pose proof (ceil_sqrt_spec n Hn) as [P _].
    exists (ceil_sqrt n). split; [ lia | exact Hs ].
Qed.

Lemma resize_keeps_elements_witness :
  (fixed (mkHeapArray 4 3 false [0; 1; 3; 2]) = true ->
   _resize (fun _ => 0) 5 true (mkHeapArray 4 3 false [0; 1; 3; 2])
   = (Throw runtime_error, mkHeapArray 4 3 false [0; 1; 3; 2])) /\
  (fixed (mkHeapArray 4 3 false [0; 1; 3; 2]) = false ->
   exists h', _resize (fun _ => 0) 5 true (mkHeapArray 4 3 false [0; 1; 3; 2])
              = (Ret tt, h') /\
              5 <= storage h' /\
              (if true then perfect_square (storage h') else storage h' = 5) /\
              len (a h') = storage h' /\
              count h' = count (mkHeapArray 4 3 false [0; 1; 3; 2]) /\
              fixed h' = false /\
              elements h' = elements (mkHeapArray 4 3 false [0; 1; 3; 2])).
Proof.
  apply (resize_keeps_elements (fun _ => 0) (mkHeapArray 4 3 false [0; 1; 3; 2]) 5 true);
    [ cbv iota; lia | vm_compute; split; discriminate | simpl; lia ].
Defined.

Lemma grow_ok (fresh : nat -> Z) (h : HeapArray) :
  fixed h = false -> 0 <= storage h < 2 ^ 30 ->
  0 <= count h <= len (a h) -> count h <= storage h ->
  exists h', _grow fresh h = (Ret tt, h') /\
             storage h < storage h' <= 6 * storage h + 4 /\
             perfect_square (storage h') /\
             len (a h') = storage h' /\
             count h' = count h /\ fixed h' = false /\
             elements h' = elements h.
Proof.
  intros Hf Hs Hc Hcs. unfold _grow.
  rewrite (run_bind _ _ _ _ _ (eq_refl : gets storage h = (Ret (storage h), h))).
  rewrite (wrap_small (storage h * 2)) by lia.
  rewrite to_int_small by lia.
  set (n := if storage h * 2 =? 0 then MIN_HEAPARRAY_ALLOCATION else storage h * 2).
  assert (Hn : storage h < n /\ 0 < n < 2 ^ 31).
  { unfold n, MIN_HEAPARRAY_ALLOCATION.
    destruct (Z.eqb_spec (storage h * 2) 0); lia. }
  rewrite (wrap_small n) by lia.
  destruct (resize_ok fresh h n true Hf ltac:(cbv iota; lia) Hc ltac:(lia))
    as [h' [E [_ [Hst [Hl [Hk [Hx He]]]]]]].
  exists h'. split; [ exact E | ].
  pose proof (ceil_sqrt_covers n ltac:(lia)) as Hq.
  pose proof (ceil_sqrt_spec n ltac:(lia)) as [P Q].
  assert (Hcn : ceil_sqrt n <= n).
  { destruct (Z_le_gt_dec (ceil_sqrt n) n) as [Hle | Hgt]; [ exact Hle | ].
    assert (n * n <= (ceil_sqrt n - 1) * (ceil_sqrt n - 1))
      by (apply Z.mul_le_mono_nonneg; lia).
    assert (n <= n * n) by nia. lia. }
  assert (Hup : ceil_sqrt n * ceil_sqrt n <= 6 * storage h + 4).
  { unfold n, MIN_HEAPARRAY_ALLOCATION in *.
    destruct (Z.eqb_spec (storage h * 2) 0) as [Ez | Enz].
    - replace (storage h) with 0 by lia. vm_compute. discriminate.
    - lia. }
  split; [ lia | ].
  split; [ exists (ceil_sqrt n); split; [ lia | exact Hst ] | auto ].
Qed.

(** X14: [_grow] on a container that is allowed to resize and holds its
    elements within its buffer: it succeeds, [storage] becomes a strictly
    larger perfect square, at most six times the old value plus four, the
    buffer has exactly [storage] slots, and the elements and their count
    are as before. *)
Theorem grow_makes_room (fresh : nat -> Z) (h : HeapArray) :
  fixed h = false -> 0 <= storage h < 2 ^ 30 ->
  0 <= count h <= len (a h) -> count h <= storage h ->
  exists h', _grow fresh h = (Ret tt, h') /\
             storage h < storage h' <= 6 * storage h + 4 /\
             perfect_square (storage h') /\
             len (a h') = storage h' /\
             count h' = count h /\ fixed h' = false /\
             elements h' = elements h.
Proof.
  exact (grow_ok fresh h).
Qed.

Lemma grow_makes_room_witness :
  exists h', _grow (fun _ => 0) (mkHeapArray 4 4 false [0; 1; 3; 2]) = (Ret tt, h') /\
             storage (mkHeapArray 4 4 false [0; 1; 3; 2]) < storage h'
               <= 6 * storage (mkHeapArray 4 4 false [0; 1; 3; 2]) + 4 /\
             perfect_square (storage h') /\
             len (a h') = storage h' /\
             count h' = count (mkHeapArray 4 4 false [0; 1; 3; 2]) /\
             fixed h' = false /\
             elements h' = elements (mkHeapArray 4 4 false [0; 1; 3; 2]).
Proof.
  apply (grow_makes_room (fun _ => 0) (mkHeapArray 4 4 false [0; 1; 3; 2]));
    [ reflexivity | simpl; lia | vm_compute; split; discriminate | simpl; lia ].
Defined.

(** X15: copying a container whose elements lie within its buffer and its
    [storage] gives a container with the same [storage], [count] and
    resize mode, a buffer of exactly [storage] slots of its own, and the
    same elements in the same order. *)
Theorem copy_from_equal (fresh : nat -> Z) (rhs : HeapArray) :
  0 <= count rhs <= len (a rhs) -> count rhs <= storage rhs ->
  exists h', copy_from fresh rhs = Ret h' /\
             storage h' = storage rhs /\ count h' = count rhs /\
             fixed h' = fixed rhs /\
             len (a h') = storage rhs /\
             elements h' = elements rhs.
Proof.
  intros Hc Hs. unfold copy_from.
  destruct (Z.leb_spec (count rhs) (Z.min (len (a rhs)) (storage rhs))) as [_ | Hgt];
    [ | lia ].
  eexists. split; [ reflexivity | ]. cbn [storage count fixed a].
  split; [ reflexivity | ]. split; [ reflexivity | ]. split; [ reflexivity | ].
  split.
  - rewrite len_carry_over; rewrite ?len_alloc; lia.
  - unfold elements. cbn [count a]. apply firstn_carry_over. lia.
Qed.

Lemma copy_from_equal_witness :
  exists h', copy_from (fun _ => 0) (mkHeapArray 4 3 true [0; 1; 3; 2]) = Ret h' /\
             storage h' = storage (mkHeapArray 4 3 true [0; 1; 3; 2]) /\
             count h' = count (mkHeapArray 4 3 true [0; 1; 3; 2]) /\
             fixed h' = fixed (mkHeapArray 4 3 true [0; 1; 3; 2]) /\
             len (a h') = storage (mkHeapArray 4 3 true [0; 1; 3; 2]) /\
             elements h' = elements (mkHeapArray 4 3 true [0; 1; 3; 2]).
Proof.
  apply (copy_from_equal (fun _ => 0) (mkHeapArray 4 3 true [0; 1; 3; 2]));
    [ vm_compute; split; discriminate | simpl; lia ].
Defined.

(** ** What insertion and removal do to the bookkeeping *)

Lemma bo_read_only {A : Type} (c : M HeapArray A) : read_only c -> buffer_only c.
Proof.
  intros H h r h' E. rewrite (H _ _ _ E). auto.
Qed.

Lemma bo_on_buffer {A : Type} (c : M mem A) : buffer_only (on_buffer c).
Proof.
  intros h r h' E. unfold on_buffer in E.
  destruct (c (a h)) as [r0 m']. inversion E. auto.
Qed.

Lemma bo_bind {A B : Type} (c : M HeapArray A) (k : A -> M HeapArray B) :
  buffer_only c -> (forall x, buffer_only (k x)) -> buffer_only (bind c k).
Proof.
  intros Hc Hk h r h' E. unfold bind in E.
  destruct (c h) as [r0 h0] eqn:E0. specialize (Hc _ _ _ E0).
  destruct r0; try (inversion E; subst; exact Hc).
  destruct Hc as [Hs [Hn Hf]]. rewrite <- Hs, <- Hn, <- Hf. eapply Hk. exact E.
Qed.

Lemma bo_fuel {A : Type} (f : HeapArray -> nat) (c : nat -> M HeapArray A) :
  (forall n, buffer_only (c n)) -> buffer_only (fun h => c (f h) h).
Proof.
  intros H h r h' E. eapply H. exact E.
Qed.

Ltac bo_with known :=
  repeat first
    [ known
    | apply bo_on_buffer
    | apply bo_read_only; first [ apply ro_ret | apply ro_throw | apply ro_diverge
                                | apply ro_gets ]
    | apply bo_bind; [ | intros ]
    | match goal with
      | |- buffer_only (if ?b then _ else _) => destruct b
      end ].

Lemma bo_insert_loop (fuel : nat) :
  forall value partition, buffer_only (insert_loop fuel value partition).
Proof.
  induction fuel as [| fuel IH]; intros value partition; cbn [insert_loop];
    bo_with ltac:(apply IH).
Qed.

Lemma bo_remove_loop (fuel : nat) (partition : Z) :
  forall ripple p, buffer_only (remove_loop fuel ripple p partition).
Proof.
  induction fuel as [| fuel IH]; intros ripple p; cbn [remove_loop];
    bo_with ltac:(apply IH).
Qed.

(** X16: [remove] answers [false] only when it has left the container exactly
    as it was; when it answers [true] the count has gone down by one (as a
    [size_t]); in both cases [storage] and the resize mode are as before. *)
Theorem remove_outcome (value : Z) (h h' : HeapArray) (b : bool) :
  remove value h = (Ret b, h') ->
  storage h' = storage h /\ fixed h' = fixed h /\
  (if b then count h' = wrap (count h - 1) else h' = h).
Proof.
  intros E. unfold remove in E.
  apply bind_ret_inv in E. destruct E as [[[[found index] partition] offset] [h1 [Ef E]]].
  pose proof (ro_find _ _ _ _ Ef). subst h1.
  destruct found.
  2: { inversion E; subst. auto. }
  apply bind_ret_inv in E. destruct E as [fp [h1 [Efp E]]].
  inversion Efp; subst fp h1. clear Efp.
  apply bind_ret_inv in E. destruct E as [[] [h2 [Ebody E]]].
  apply bind_ret_inv in E. destruct E as [[] [h3 [Emod E]]].
  inversion Emod; subst h3. inversion E; subst b h'. clear Emod E.
  assert (B : storage h2 = storage h /\ count h2 = count h /\ fixed h2 = fixed h).
  { revert Ebody. generalize tt at 2. intros u Ebody. revert Ebody.
    match goal with
    | |- ?c h = _ -> _ => assert (G : buffer_only c); [ | intros Eb; exact (G _ _ _ Eb) ]
    end.
    bo_with ltac:(first
      [ apply (bo_fuel (fun h => (2 + length (a h))%nat)
                 (fun n => remove_loop n _ _ _));
        intros n; apply bo_remove_loop ]). }
  destruct B as [Hs [Hc Hf]]. cbn [storage fixed count set_count].
  rewrite Hc. auto.
Qed.

Lemma remove_outcome_witness :
  storage (mkHeapArray 4 3 false [0; 1; 3; 2]) = storage (mkHeapArray 4 4 false [0; 1; 3; 2]) /\
  fixed (mkHeapArray 4 3 false [0; 1; 3; 2]) = fixed (mkHeapArray 4 4 false [0; 1; 3; 2]) /\
  (if true
   then count (mkHeapArray 4 3 false [0; 1; 3; 2])
        = wrap (count (mkHeapArray 4 4 false [0; 1; 3; 2]) - 1)
   else mkHeapArray 4 3 false [0; 1; 3; 2] = mkHeapArray 4 4 false [0; 1; 3; 2]).
Proof.
  apply (remove_outcome 2 (mkHeapArray 4 4 false [0; 1; 3; 2])
           (mkHeapArray 4 3 false [0; 1; 3; 2]) true).
  vm_compute. reflexivity.
Defined.

Lemma grow_keeps_count (fresh : nat -> Z) (h h' : HeapArray) :
  _grow fresh h = (Ret tt, h') -> count h' = count h /\ fixed h' = fixed h.
Proof.
  unfold _grow. intros E.
  apply bind_ret_inv in E. destruct E as [s [h1 [Es E]]].
  inversion Es; subst s h1. clear Es.
  set (next := to_int (wrap (storage h * 2))) in *.
  assert (R : - 2 ^ 31 <= next < 2 ^ 31).
  { unfold next, to_int.
    pose proof (Z.mod_pos_bound (wrap (storage h * 2) + 2 ^ 31) (2 ^ 32) ltac:(lia)).
    lia. }
  set (n := if next =? 0 then MIN_HEAPARRAY_ALLOCATION else next) in *.
  assert (Hn : 0 < wrap n).
  { unfold n, MIN_HEAPARRAY_ALLOCATION.
    destruct (Z.eqb_spec next 0) as [Ez | Ez]; [ reflexivity | ].
    destruct (Z_lt_le_dec next 0) as [Hneg | Hpos].
    - unfold wrap. replace next with (next + 1 * 2 ^ 64 - 2 ^ 64) by lia.
      replace (next + 1 * 2 ^ 64 - 2 ^ 64) with ((next + 2 ^ 64) + (-1) * 2 ^ 64) by lia.
      rewrite Z.mod_add by lia. rewrite Z.mod_small by lia. lia.
    - rewrite wrap_small by lia. lia. }
  unfold _resize in E.
  destruct (fixed h); [ discriminate | ].
  destruct (Z.gtb_spec (wrap n) 0) as [_ | Hz]; [ | lia ].
  destruct (a h) as [| x l].
  - inversion E; subst. auto.
  - match type of E with
    | (if ?b then _ else _) = _ => destruct b
    end; inversion E; subst; auto.
Qed.

(** X17: [insert] on a full fixed-size container throws [length_error] and
    changes nothing.  Whenever [insert] returns, the count has gone up by
    one (as a [size_t]), the resize mode is as before, and [storage] is as
    before unless the container was full. *)
Theorem insert_outcome (fresh : nat -> Z) (value : Z) (h : HeapArray) :
  (count h = storage h -> fixed h = true ->
   insert fresh value h = (Throw length_error, h)) /\
  (forall h', insert fresh value h = (Ret tt, h') ->
              count h' = wrap (count h + 1) /\ fixed h' = fixed h /\
              (count h <> storage h -> storage h' = storage h)).
Proof.
  split.
  - intros Hfull Hfix. unfold insert, bind, gets.
    rewrite Hfull, Z.eqb_refl, Hfix. reflexivity.
  - intros h' E. unfold insert in E.
    apply bind_ret_inv in E. destruct E as [c [h1 [Ec E]]].
    inversion Ec; subst c h1. clear Ec.
    apply bind_ret_inv in E. destruct E as [s [h1 [Es E]]].
    inversion Es; subst s h1. clear Es.
    apply bind_ret_inv in E. destruct E as [[] [h1 [Eroom E]]].
    assert (R : count h1 = count h /\ fixed h1 = fixed h /\
                (count h <> storage h -> storage h1 = storage h)).
    { destruct (Z.eqb_spec (count h) (storage h)) as [Efull | Ene].
      - apply bind_ret_inv in Eroom. destruct Eroom as [f [h2 [Ef Eroom]]].
        inversion Ef; subst f h2. clear Ef.
        destruct (fixed h) eqn:Hfix; [ discriminate | ].
        destruct (grow_keeps_count _ _ _ Eroom) as [Hc Hf].
        split; [ exact Hc | ]. split; [ congruence | ]. intros Hne. contradiction.
      - inversion Eroom; subst. auto. }
    destruct R as [Hc [Hf Hs]].
    apply bind_ret_inv in E. destruct E as [partition [h2 [Ep E]]].
    pose proof (ro_find_partition _ _ _ _ _ Ep). subst h2.
    apply bind_ret_inv in E. destruct E as [[] [h3 [Eloop E]]].
    inversion E; subst h'. clear E.
    destruct (bo_insert_loop _ _ _ _ _ _ Eloop) as [Hs3 [Hc3 Hf3]].
    cbn [count fixed storage set_count].
    rewrite Hc3, Hc, Hf3, Hf, Hs3. auto.
Qed.

(** * The container invariant *)

(** ** Sorting *)

Lemma insert_sorted_perm (x : Z) (l : list Z) : Permutation (insert_sorted x l) (x :: l).
Proof.
  induction l as [| y l IH]; cbn; [ apply Permutation_refl | ].
  destruct (x <=? y); [ apply Permutation_refl | ].
  eapply perm_trans; [ apply perm_skip; exact IH | apply perm_swap ].
Qed.

Lemma sort_perm (l : list Z) : Permutation (sort l) l.
Proof.
  induction l as [| x l IH]; cbn; [ apply perm_nil | ].
  eapply perm_trans; [ apply insert_sorted_perm | apply perm_skip; exact IH ].
Qed.

Lemma insert_sorted_ascending (x : Z) (l : list Z) :
  ascending l -> ascending (insert_sorted x l).
Proof.
  induction l as [| y l IH]; intros A; cbn.
  - split; [ constructor | exact I ].
  - destruct A as [Fy Al].
    destruct (Z.leb_spec x y) as [Hle | Hgt]; cbn.
    + split; [ | split; assumption ].
      constructor; [ exact Hle | ].
      eapply Forall_impl; [ | exact Fy ]. cbv beta. intros z Hz. lia.
    + split; [ | apply IH; exact Al ].
      eapply Permutation_Forall; [ apply Permutation_sym, insert_sorted_perm | ].
      constructor; [ lia | exact Fy ].
Qed.

Lemma sort_ascending (l : list Z) : ascending (sort l).
Proof.
  induction l as [| x l IH]; cbn; [ exact I | ].
  apply insert_sorted_ascending. exact IH.
Qed.

Lemma ascending_nth (l : list Z) :
  ascending l ->
  forall i j, (i <= j < length l)%nat -> nth i l 0 <= nth j l 0.
Proof.
  induction l as [| x l IH]; intros A i j H; cbn in H; [ lia | ].
  destruct A as [Fx Al].
  destruct i as [| i], j as [| j]; cbn; try lia.
  - rewrite Forall_forall in Fx. apply Fx. apply nth_In. lia.
  - apply IH; [ exact Al | lia ].
Qed.

(** ** Runs of the buffer *)

Lemma length_live_gen (m : mem) (h n : Z) :
  length (live m h n) = Nat.min (Z.to_nat n) (length m - Z.to_nat h).
Proof.
  unfold live. rewrite length_firstn, length_skipn. reflexivity.
Qed.

Lemma live_ext (m m' : mem) (h n : Z) :
  0 <= h -> len m' = len m ->
  (forall k, 0 <= k < n -> view m' h k = view m h k) ->
  live m' h n = live m h n.
Proof.
  intros Hh Hl E.
  assert (L : length (live m' h n) = length (live m h n)).
  { rewrite !length_live_gen. unfold len in Hl. lia. }
  apply (nth_ext _ _ 0 0 L).
  intros i Hi. rewrite length_live_gen in Hi.
  replace i with (Z.to_nat (Z.of_nat i)) by lia.
  rewrite !nth_live by lia. apply E. lia.
Qed.

Lemma firstn_plus (l : mem) (n k : nat) :
  firstn (n + k) l = firstn n l ++ firstn k (skipn n l).
Proof.
  revert l. induction n as [| n IH]; intros l; [ reflexivity | ].
  destruct l as [| x l]; cbn; [ rewrite firstn_nil; reflexivity | ].
  f_equal. apply IH.
Qed.

Lemma skipn_plus (l : mem) (n k : nat) : skipn k (skipn n l) = skipn (n + k) l.
Proof.
  revert l. induction n as [| n IH]; intros l; [ reflexivity | ].
  destruct l as [| x l]; cbn; [ apply skipn_nil | apply IH ].
Qed.

Lemma live_split (m : mem) (h n k : Z) :
  0 <= h -> 0 <= n -> 0 <= k ->
  live m h (n + k) = live m h n ++ live m (h + n) k.
Proof.
  intros Hh Hn Hk. unfold live.
  rewrite !Z2Nat.inj_add by lia.
  rewrite firstn_plus, skipn_plus. reflexivity.
Qed.

Lemma in_live (m : mem) (h n x : Z) :
  0 <= h -> 0 <= n -> h + n <= len m ->
  In x (live m h n) <-> exists d, 0 <= d < n /\ view m h d = x.
Proof.
  intros Hh Hn Hb. split.
  - intros Hin. destruct (In_nth _ _ 0 Hin) as [i [Hi E]].
    rewrite length_live in Hi by lia.
    exists (Z.of_nat i). split; [ lia | ].
    rewrite <- E. rewrite <- (nth_live m h n) by lia.
    f_equal. lia.
  - intros [d [Hd E]]. rewrite <- E, <- (nth_live m h n) by lia.
    apply nth_In. rewrite length_live by lia. lia.
Qed.

Lemma perm_within (m m' : mem) (s c n : Z) :
  0 <= s -> 0 <= c -> s + c <= n -> len m' = len m ->
  Permutation (live m s c) (live m' s c) ->
  (forall q, 0 <= q -> q < s \/ s + c <= q -> get m' q = get m q) ->
  Permutation (live m 0 n) (live m' 0 n).
Proof.
  intros Hs Hc Hn Hl P F.
  replace n with (s + (c + (n - s - c))) by lia.
  rewrite !(live_split _ 0 s) by lia.
  rewrite !(live_split _ (0 + s) c) by lia.
  replace (0 + s) with s by lia.
  rewrite (live_ext m m' 0 s) by (auto; lia || (intros k Hk; apply F; lia)).
  rewrite (live_ext m m' (s + c)) by (auto; lia || (intros k Hk; apply F; lia)).
  apply Permutation_app_head, Permutation_app_tail. exact P.
Qed.

(** ** Where the partitions lie *)

Lemma final_partition_zero (h : HeapArray) : count h <= 1 -> _final_partition h = 0.
Proof.
  intros H. unfold _final_partition.
  destruct (Z.gtb_spec (count h) 0) as [Hpos | _]; [ | reflexivity ].
  replace (count h) with 1 by lia. reflexivity.
Qed.

Lemma final_partition_same (h h' : HeapArray) :
  count h' = count h -> _final_partition h' = _final_partition h.
Proof.
  intros E. unfold _final_partition. rewrite E. reflexivity.
Qed.

Lemma count_in_partition_same (h h' : HeapArray) (p : Z) :
  count h' = count h -> _count_in_partition h' p = _count_in_partition h p.
Proof.
  intros E. unfold _count_in_partition.
  rewrite (final_partition_same h h' E), E. reflexivity.
Qed.

Lemma partition_inside (h : HeapArray) (q : Z) :
  0 <= count h < 2 ^ 52 -> 0 <= q <= _final_partition h ->
  q < 2 ^ 26 /\
  _partition_start q = q * q /\
  0 <= _count_in_partition h q <= 2 * q + 1 /\
  q * q + _count_in_partition h q <= count h /\
  (0 < count h -> 1 <= _count_in_partition h q) /\
  (q < _final_partition h -> _count_in_partition h q = 2 * q + 1).
Proof.
  intros Hc Hq.
  destruct (Z.eq_dec (count h) 0) as [Ez | Enz].
  - rewrite final_partition_zero in Hq by lia.
    assert (q = 0) by lia. subst q.
    unfold _count_in_partition. rewrite final_partition_zero by lia.
    rewrite Ez. cbn. lia.
  - pose proof (final_partition_spec h ltac:(lia)) as [B S].
    rewrite partition_start_small by lia.
    split; [ lia | ]. split; [ reflexivity | ].
    destruct (Z.eq_dec q (_final_partition h)) as [-> | Hne].
    + rewrite count_in_partition_final by lia. lia.
    + rewrite count_in_partition_before by lia. nia.
Qed.

Lemma slot_in_partition (h : HeapArray) (i : Z) :
  0 <= count h < 2 ^ 52 -> 0 <= i < count h ->
  0 <= _index_to_partition i <= _final_partition h /\
  0 <= i - _partition_start (_index_to_partition i)
    < _count_in_partition h (_index_to_partition i).
Proof.
  intros Hc Hi.
  pose proof (final_partition_spec h ltac:(lia)) as [B S].
  set (q := _index_to_partition i).
  assert (Q : 0 <= q /\ q * q <= i < (q + 1) * (q + 1)).
  { unfold q, _index_to_partition.
    destruct (Z.gtb_spec i 0) as [Hpos | Hz].
    - rewrite floor_sqrt_exact by lia.
      pose proof (Z.sqrt_spec i ltac:(lia)) as R. unfold Z.succ in R.
      pose proof (Z.sqrt_nonneg i). lia.
    - replace i with 0 by lia. lia. }
  assert (Hq : q <= _final_partition h) by nia.
  split; [ lia | ].
  destruct (partition_inside h q ltac:(lia) ltac:(lia)) as [_ [Es [_ [_ [_ Hfull]]]]].
  rewrite Es. clearbody q.
  destruct (Z.eq_dec q (_final_partition h)) as [E | Hne].
  - subst q. rewrite count_in_partition_final by lia. lia.
  - rewrite Hfull by lia. lia.
Qed.

(** ** Heapifying the partitions *)

Lemma init_heaps_loop_builds (m0 : mem) (fuel : nat) :
  forall (h : HeapArray) (p : Z),
    0 <= count h < 2 ^ 31 -> count h <= len (a h) -> len (a h) = len m0 ->
    1 <= p <= _final_partition h + 1 ->
    _final_partition h + 1 - p < Z.of_nat fuel ->
    (forall q, 0 <= q < p -> q <= _final_partition h ->
       mm_heap (view (a h) (_partition_start q)) (_count_in_partition h q)) ->
    (forall q, 0 <= q <= _final_partition h ->
       Permutation (live m0 (_partition_start q) (_count_in_partition h q))
                   (live (a h) (_partition_start q) (_count_in_partition h q))) ->
    Permutation (live m0 0 (count h)) (live (a h) 0 (count h)) ->
    (forall k, count h <= k -> get (a h) k = get m0 k) ->
    exists m', init_heaps_loop fuel p h = (Ret tt, set_a h m') /\
               len m' = len m0 /\
               (forall q, 0 <= q <= _final_partition h ->
                  mm_heap (view m' (_partition_start q)) (_count_in_partition h q)) /\
               (forall q, 0 <= q <= _final_partition h ->
                  Permutation (live m0 (_partition_start q) (_count_in_partition h q))
                              (live m' (_partition_start q) (_count_in_partition h q))) /\
               Permutation (live m0 0 (count h)) (live m' 0 (count h)) /\
               (forall k, count h <= k -> get m' k = get m0 k).
Proof.
  induction fuel as [| fuel IH]; intros h p Hc Hb Hl Hp Hf H1 H2 H4 H5.
  { cbn in Hf. lia. }
  cbn [init_heaps_loop].
  rewrite (run_bind _ _ _ _ _
             (eq_refl : gets _final_partition h = (Ret (_final_partition h), h))).
  destruct (Z.leb_spec p (_final_partition h)) as [Hin | Hout].
  2: { exists (a h). rewrite set_a_same. split; [ reflexivity | ].
       split; [ exact Hl | ]. split; [ | auto ].
       intros q Hq. apply H1; lia. }
  rewrite (run_bind _ _ _ _ _
             (eq_refl : gets (fun h => _count_in_partition h p) h
                        = (Ret (_count_in_partition h p), h))).
  destruct (partition_inside h p ltac:(lia) ltac:(lia)) as [Bp [Es [Cp [Ip _]]]].
  destruct (make_mm_heap_ok (a h) (_partition_start p) (_count_in_partition h p))
    as [m1 [E1 [Hl1 [Heap1 [Perm1 Frame1]]]]]; try lia.
  assert (Eb : on_buffer (make_mm_heap (_partition_start p) (_count_in_partition h p)) h
               = (Ret tt, set_a h m1))
    by (unfold on_buffer; rewrite E1; reflexivity).
  rewrite (run_bind _ _ _ _ _ Eb).
  rewrite (wrap_small (p + 1)) by lia.
  assert (Sep : forall q, 0 <= q <= _final_partition h -> q <> p ->
                forall k, 0 <= k < _count_in_partition h q ->
                          view m1 (_partition_start q) k = view (a h) (_partition_start q) k).
  { intros q Hq Hne k Hk.
    destruct (partition_inside h q ltac:(lia) Hq) as [Bq [Esq [Cq [Iq _]]]].
    unfold view. apply Frame1; [ lia | ]. rewrite Es, Esq.
    destruct (Z_lt_le_dec q p) as [Hlt | Hge].
    - pose proof (next_square_le q p ltac:(lia)). lia.
    - pose proof (next_square_le p q ltac:(lia)). lia. }
  destruct (IH (set_a h m1) (p + 1)) as [m' [E' [Hl' [Heap' [Perm' [P4 P5]]]]]];
    try (cbn [count a set_a]; lia).
  - change (_final_partition (set_a h m1)) with (_final_partition h). lia.
  - change (_final_partition (set_a h m1)) with (_final_partition h). lia.
  - intros q Hq Hqf.
    change (_count_in_partition (set_a h m1) q) with (_count_in_partition h q).
    change (_final_partition (set_a h m1)) with (_final_partition h) in Hqf.
    cbn [a set_a].
    destruct (Z.eq_dec q p) as [-> | Hne]; [ exact Heap1 | ].
    destruct (partition_inside h q ltac:(lia) ltac:(lia)) as [Bq [Esq [Cq _]]].
    apply mm_local_heap.
    apply (mm_local_ext (view (a h) (_partition_start q)));
      [ intros k Hk; apply Sep; lia | ].
    apply mm_heap_local, H1; lia.
  - intros q Hq.
    change (_count_in_partition (set_a h m1) q) with (_count_in_partition h q).
    change (_final_partition (set_a h m1)) with (_final_partition h) in Hq.
    cbn [a set_a].
    destruct (Z.eq_dec q p) as [-> | Hne].
    + eapply perm_trans; [ apply H2; lia | exact Perm1 ].
    + destruct (partition_inside h q ltac:(lia) ltac:(lia)) as [Bq [Esq [Cq _]]].
      rewrite (live_ext (a h) m1) by (try lia; intros k Hk; apply Sep; lia).
      apply H2. lia.
  - cbn [a set_a count].
    eapply perm_trans; [ exact H4 | ].
    apply (perm_within (a h) m1 (_partition_start p) (_count_in_partition h p));
      auto; lia.
  - cbn [a set_a count]. intros k Hk. rewrite Frame1 by lia. apply H5. exact Hk.
  - exists m'. split; [ exact E' | ]. split; [ exact Hl' | ].
    split; [ exact Heap' | ]. split; [ exact Perm' | ]. split; [ exact P4 | exact P5 ].
Qed.

(** ** Building the container from a range *)

Lemma firstn_prefix (src rest : mem) : firstn (Z.to_nat (len src)) (src ++ rest) = src.
Proof.
  unfold len. rewrite Nat2Z.id, firstn_app, Nat.sub_diag, firstn_all. cbn.
  apply app_nil_r.
Qed.

Lemma skipn_prefix (src rest : mem) : skipn (Z.to_nat (len src)) (src ++ rest) = rest.
Proof.
  unfold len. rewrite Nat2Z.id, skipn_app, Nat.sub_diag, skipn_all. reflexivity.
Qed.

Lemma len_prefix (src l : mem) : len src <= len l -> len (src ++ skipn (length src) l) = len l.
Proof.
  unfold len. intros H. rewrite length_app, length_skipn. lia.
Qed.

Lemma final_partition_bounds (h : HeapArray) :
  0 <= count h < 2 ^ 52 -> 0 <= _final_partition h <= count h.
Proof.
  intros Hc. destruct (Z.eq_dec (count h) 0) as [Ez | Enz].
  - rewrite final_partition_zero by lia. lia.
  - pose proof (final_partition_spec h ltac:(lia)) as [B S]. nia.
Qed.

Lemma index_to_partition_nonneg (i : Z) : 0 <= _index_to_partition i.
Proof.
  unfold _index_to_partition.
  destruct (Z.gtb_spec i 0) as [Hi | Hi]; [ | lia ].
  destruct (Z_lt_le_dec i (2 ^ 52)) as [Hs | Hl].
  - rewrite floor_sqrt_exact by lia. apply Z.sqrt_nonneg.
  - pose proof (floor_sqrt_large i Hl). lia.
Qed.

Lemma index_to_partition_mono (i j : Z) :
  j < 2 ^ 52 -> _index_to_partition i < _index_to_partition j -> i < j /\ 0 < j.
Proof.
  intros Hs H. pose proof (index_to_partition_nonneg i) as N.
  unfold _index_to_partition in *.
  destruct (Z.gtb_spec j 0) as [Hj | Hj]; [ | lia ].
  split; [ | exact Hj ].
  destruct (Z.gtb_spec i 0) as [Hi | Hi]; [ | lia ].
  destruct (Z_lt_le_dec i j) as [Hlt | Hge]; [ exact Hlt | ].
  rewrite (floor_sqrt_exact j) in H by lia.
  destruct (Z_lt_le_dec i (2 ^ 52)) as [Hi' | Hl].
  - rewrite floor_sqrt_exact in H by lia.
    pose proof (Z.sqrt_le_mono j i Hge). lia.
  - pose proof (floor_sqrt_large i Hl).
    assert (Z.sqrt j < 2 ^ 26) by (apply Z.sqrt_lt_square; lia). lia.
Qed.

Lemma ordered_across (m0 m' : mem) (h : HeapArray) :
  0 <= count h < 2 ^ 52 -> count h <= len m0 -> len m' = len m0 ->
  (forall i j, 0 <= i -> i <= j -> j < count h -> get m0 i <= get m0 j) ->
  (forall q, 0 <= q <= _final_partition h ->
     Permutation (live m0 (_partition_start q) (_count_in_partition h q))
                 (live m' (_partition_start q) (_count_in_partition h q))) ->
  forall i j, 0 <= i -> j < count h ->
              _index_to_partition i < _index_to_partition j -> get m' i <= get m' j.
Proof.
  intros Hc Hb Hl Asc Perm i j Hi Hj Hlt.
  destruct (index_to_partition_mono i j ltac:(lia) Hlt) as [Hij Hj0].
  assert (Moved : forall k, 0 <= k < count h ->
            exists k', _partition_start (_index_to_partition k) <= k'
                       /\ k' < _partition_start (_index_to_partition k)
                               + _count_in_partition h (_index_to_partition k)
                       /\ get m0 k' = get m' k).
  { intros k Hk.
    destruct (slot_in_partition h k Hc Hk) as [Hq Hd].
    destruct (partition_inside h _ Hc Hq) as [Bq [Es [Cq [Iq _]]]].
    set (q := _index_to_partition k) in *.
    assert (In (get m' k) (live m' (_partition_start q) (_count_in_partition h q))).
    { apply in_live; try lia.
      exists (k - _partition_start q). split; [ lia | ].
      unfold view. f_equal. lia. }
    assert (Hin : In (get m' k) (live m0 (_partition_start q) (_count_in_partition h q))).
    { eapply Permutation_in; [ apply Permutation_sym, Perm; exact Hq | assumption ]. }
    apply in_live in Hin; try lia.
    destruct Hin as [d [Hd' E]].
    exists (_partition_start q + d). split; [ lia | ]. split; [ lia | exact E ]. }
  destruct (Moved i ltac:(lia)) as [i' [Li [Ui Ei]]].
  destruct (Moved j ltac:(lia)) as [j' [Lj [Uj Ej]]].
  destruct (slot_in_partition h i Hc ltac:(lia)) as [Hqi _].
  destruct (slot_in_partition h j Hc ltac:(lia)) as [Hqj _].
  destruct (partition_inside h _ Hc Hqi) as [Bi [Esi [Ci [Ii _]]]].
  destruct (partition_inside h _ Hc Hqj) as [Bj [Esj [Cj [Ij _]]]].
  pose proof (next_square_le _ _ (conj (proj1 Hqi) Hlt)) as Apart.
  pose proof (Z.square_nonneg (_index_to_partition i)) as Sq.
  rewrite <- Ei, <- Ej. apply Asc; lia.
Qed.

Lemma new_from_range_ok (fresh : nat -> Z) (src : list Z) (physical : option Z)
    (allow_resize : bool) :
  len src <= match physical with Some k => k | None => len src end < 2 ^ 31 ->
  exists h', new_from_range fresh src physical allow_resize new_empty = (Ret tt, h') /\
             count h' = len src /\ fixed h' = negb allow_resize /\
             match physical with Some k => k | None => len src end <= storage h' /\
             len (a h') = storage h' /\
             Permutation (elements h') src /\
             well_formed h'.
Proof.
  set (new_size := match physical with Some k => k | None => len src end).
  intros Hn. unfold new_from_range. fold new_size.
  assert (Hsrc : 0 <= len src) by (unfold len; lia).
  rewrite (wrap_small new_size) by lia.
  assert (R : exists h1, _resize fresh new_size allow_resize new_empty = (Ret tt, h1) /\
                         new_size <= storage h1 /\ len (a h1) = storage h1).
  { destruct (Z.eq_dec new_size 0) as [Ez | Enz].
    - rewrite Ez. exists (mkHeapArray 0 0 false []).
      split; [ reflexivity | ]. cbn. lia.
    - destruct (resize_ok fresh new_empty new_size allow_resize)
        as [h1 [E1 [Hb [_ [Hl _]]]]]; try reflexivity; try (cbn; lia).
      { destruct allow_resize; lia. }
      exists h1. split; [ exact E1 | ]. split; [ lia | exact Hl ]. }
  destruct R as [h1 [E1 [Hs1 Hl1]]].
  rewrite (run_bind _ _ _ _ _ E1).
  unfold bind at 1.
  destruct (Z.leb_spec (len src) (len (a h1))) as [_ | Hbad]; [ | lia ].
  set (rest := skipn (length src) (a h1)).
  assert (Hl2 : len (src ++ rest) = len (a h1)) by (apply len_prefix; lia).
  unfold bind at 1, modify at 1.
  unfold _init_heaps. unfold bind at 2. unfold bind at 1.
  cbn [count a set_a set_count].
  destruct (Z.leb_spec (len src) (len (src ++ rest))) as [_ | Hbad]; [ | lia ].
  rewrite firstn_prefix, skipn_prefix.
  set (m0 := sort src ++ rest).
  assert (Hls : len (sort src) = len src)
    by (unfold len; rewrite (Permutation_length (sort_perm src)); reflexivity).
  assert (Hl0 : len m0 = len (a h1)).
  { unfold m0, len in *. rewrite length_app in *. lia. }
  set (h4 := set_a (set_count (set_a h1 (src ++ rest)) (len src)) m0).
  assert (Hc4 : count h4 = len src) by reflexivity.
  pose proof (final_partition_bounds h4 ltac:(rewrite Hc4; lia)) as Hfp.
  destruct (init_heaps_loop_builds m0 (2 + length (a h4)) h4 1)
    as [m' [E' [Hl' [Heap' [Perm' [P4 P5]]]]]];
    try (rewrite ?Hc4; cbn [a h4 set_a]; lia).
  { cbn [a h4 set_a]. unfold len in *. lia. }
  { intros q Hq _. assert (q = 0) by lia. subst q.
    apply mm_heap_small.
    destruct (partition_inside h4 0 ltac:(rewrite Hc4; lia) ltac:(lia))
      as [_ [_ [C _]]]. lia. }
  { intros q Hq. apply Permutation_refl. }
  { apply Permutation_refl. }
  eexists. split; [ rewrite E'; reflexivity | ].
  cbn [count fixed storage a set_a set_fixed set_count h4].
  split; [ reflexivity | ]. split; [ reflexivity | ]. split; [ exact Hs1 | ].
  split; [ lia | ].
  assert (Lm0 : live m0 0 (len src) = sort src).
  { unfold live. cbn [skipn Z.to_nat]. rewrite <- Hls. apply firstn_prefix. }
  split.
  { unfold elements. cbn [count a].
    change (firstn (Z.to_nat (len src)) m') with (live m' 0 (len src)).
    eapply perm_trans; [ apply Permutation_sym; exact P4 | ].
    rewrite Hc4, Lm0. apply sort_perm. }
  set (h' := set_fixed (set_a h4 m') (negb allow_resize)).
  assert (Hc' : count h' = len src) by reflexivity.
  assert (Ha' : a h' = m') by reflexivity.
  unfold well_formed. rewrite Hc', Ha'.
  split; [ lia | ].
  split.
  { intros p Hp. exact (Heap' p Hp). }
  apply (ordered_across m0 m' h4); try (rewrite ?Hc4; lia); auto.
  intros i j Hi Hij Hj. rewrite Hc4 in Hj.
  unfold get, m0.
  rewrite !app_nth1 by (unfold len in *; lia).
  apply ascending_nth; [ apply sort_ascending | ]. unfold len in *. lia.
Qed.

(** X18: construction from a range of fewer than 2^31 values (into a buffer at
    least as large): the constructor returns; the container holds exactly
    the values of the range, with their multiplicities; its buffer has
    [storage] slots, enough for the requested size; the resize mode is the
    one asked for; and the container invariant holds: every partition is a
    min-max heap and the partitions are ordered among themselves. *)
Theorem new_from_range_builds (fresh : nat -> Z) (src : list Z) (physical : option Z)
    (allow_resize : bool) :
  len src <= match physical with Some k => k | None => len src end < 2 ^ 31 ->
  exists h', new_from_range fresh src physical allow_resize new_empty = (Ret tt, h') /\
             count h' = len src /\ fixed h' = negb allow_resize /\
             match physical with Some k => k | None => len src end <= storage h' /\
             len (a h') = storage h' /\
             Permutation (elements h') src /\
             well_formed h'.
Proof.
  exact (new_from_range_ok fresh src physical allow_resize).
Qed.

Lemma new_from_range_builds_witness :
  exists h', new_from_range (fun _ => 0) [5; 3; 8; 1; 9; 2] (Some 7) false new_empty
             = (Ret tt, h') /\
             count h' = len [5; 3; 8; 1; 9; 2] /\ fixed h' = negb false /\
             7 <= storage h' /\
             len (a h') = storage h' /\
             Permutation (elements h') [5; 3; 8; 1; 9; 2] /\
             well_formed h'.
Proof.
  apply (new_from_range_builds (fun _ => 0) [5; 3; 8; 1; 9; 2] (Some 7) false).
  vm_compute. split; [ discriminate | reflexivity ].
Defined.

(** A container built from the range 5, 3, 8, 1, 9, 2. *)
Lemma built_example_well_formed :
  well_formed (mkHeapArray 9 6 false [1; 2; 3; 5; 8; 9; 0; 0; 0]).
Proof.
  destruct (new_from_range_ok (fun _ => 0) [5; 3; 8; 1; 9; 2] None true)
    as [h' [E [_ [_ [_ [_ [_ W]]]]]]].
  { vm_compute. split; [ discriminate | reflexivity ]. }
  assert (X : new_from_range (fun _ => 0) [5; 3; 8; 1; 9; 2] None true new_empty
              = (Ret tt, mkHeapArray 9 6 false [1; 2; 3; 5; 8; 9; 0; 0; 0]))
    by (vm_compute; reflexivity).
  rewrite X in E. inversion E; subst h'. exact W.
Qed.

(** ** Extremes of a well-formed container *)

Lemma partition_of_slot (h : HeapArray) (q d : Z) :
  0 <= count h < 2 ^ 52 -> 0 <= q <= _final_partition h ->
  0 <= d < _count_in_partition h q ->
  _index_to_partition (_partition_start q + d) = q /\
  0 <= _partition_start q + d < count h.
Proof.
  intros Hc Hq Hd.
  destruct (partition_inside h q Hc Hq) as [Bq [Es [Cq [Iq _]]]].
  rewrite Es. split; [ apply index_to_partition_in; lia | ].
  pose proof (Z.square_nonneg q). lia.
Qed.

(** X19: on a well-formed container with at least one element, [min] returns
    the smallest element and [max] the largest, and neither changes the
    container. *)
Theorem min_max_of_well_formed (h : HeapArray) :
  well_formed h -> 0 < count h < 2 ^ 52 ->
  exists lo hi, min h = (Ret lo, h) /\ max h = (Ret hi, h) /\
                is_min_of (get (a h)) (count h) lo /\
                is_max_of (get (a h)) (count h) hi.
Proof.
  intros [Hb [Heaps Cross]] Hc.
  pose proof (final_partition_bounds h ltac:(lia)) as Hfp.
  destruct (partition_inside h (_final_partition h) ltac:(lia) ltac:(lia))
    as [Bq [Es [Cq [Iq [Nq _]]]]].
  pose proof (Z.square_nonneg (_final_partition h)) as Sq.
  specialize (Nq ltac:(lia)). rewrite <- Es in Sq, Iq.
  destruct (mm_heap_max_ok (a h) (_partition_start (_final_partition h))
              (_count_in_partition h (_final_partition h)))
    as [hi [Ehi [[k [Hk Ek]] Mhi]]]; try lia; try (apply Heaps; lia).
  exists (get (a h) 0), hi.
  split.
  { unfold min, on_buffer. rewrite rd_ok by lia. rewrite set_a_same. reflexivity. }
  split.
  { unfold max.
    rewrite (run_bind _ _ _ _ _
               (eq_refl : gets _final_partition h = (Ret (_final_partition h), h))).
    rewrite (run_bind _ _ _ _ _
               (eq_refl : gets (fun h0 => _count_in_partition h0 (_final_partition h)) h
                          = (Ret (_count_in_partition h (_final_partition h)), h))).
    unfold on_buffer. rewrite Ehi, set_a_same. reflexivity. }
  split.
  - split; [ exists 0; split; [ lia | reflexivity ] | ].
    intros j Hj. destruct (Z.eq_dec j 0) as [-> | Hne]; [ lia | ].
    apply Cross; try lia.
    destruct (slot_in_partition h j ltac:(lia) Hj) as [_ Hd].
    destruct (Z.eq_dec (_index_to_partition j) 0) as [E0 | E0].
    + rewrite E0 in Hd.
      destruct (partition_inside h 0 ltac:(lia) ltac:(lia)) as [_ [Es0 [C0 _]]].
      rewrite Es0 in Hd. lia.
    + destruct (slot_in_partition h j ltac:(lia) Hj) as [Hq _].
      change (_index_to_partition 0) with 0. lia.
  - destruct (partition_of_slot h (_final_partition h) k ltac:(lia) ltac:(lia) Hk)
      as [Pk Bk].
    split; [ exists (_partition_start (_final_partition h) + k); split;
             [ exact Bk | exact Ek ] | ].
    intros j Hj.
    destruct (slot_in_partition h j ltac:(lia) Hj) as [Hq Hd].
    destruct (Z.eq_dec (_index_to_partition j) (_final_partition h)) as [E | Hne].
    + rewrite E in Hd.
      replace j with (_partition_start (_final_partition h)
                      + (j - _partition_start (_final_partition h))) by lia.
      apply Mhi. exact Hd.
    + rewrite <- Ek. apply Cross; lia.
Qed.

Lemma min_max_of_well_formed_witness :
  exists lo hi,
    min (mkHeapArray 9 6 false [1; 2; 3; 5; 8; 9; 0; 0; 0])
    = (Ret lo, mkHeapArray 9 6 false [1; 2; 3; 5; 8; 9; 0; 0; 0]) /\
    max (mkHeapArray 9 6 false [1; 2; 3; 5; 8; 9; 0; 0; 0])
    = (Ret hi, mkHeapArray 9 6 false [1; 2; 3; 5; 8; 9; 0; 0; 0]) /\
    is_min_of (get (a (mkHeapArray 9 6 false [1; 2; 3; 5; 8; 9; 0; 0; 0])))
      (count (mkHeapArray 9 6 false [1; 2; 3; 5; 8; 9; 0; 0; 0])) lo /\
    is_max_of (get (a (mkHeapArray 9 6 false [1; 2; 3; 5; 8; 9; 0; 0; 0])))
      (count (mkHeapArray 9 6 false [1; 2; 3; 5; 8; 9; 0; 0; 0])) hi.
Proof.
  apply (min_max_of_well_formed (mkHeapArray 9 6 false [1; 2; 3; 5; 8; 9; 0; 0; 0]));
    [ exact built_example_well_formed | simpl; lia ].
Defined.

(** ** Searching a well-formed container *)

Section Search.

Variables (h : HeapArray) (value i : Z).
Hypothesis WF : well_formed h.
Hypothesis Hc : 0 < count h < 2 ^ 52.
Hypothesis Hi : 0 <= i < count h.
Hypothesis Hv : get (a h) i = value.

Lemma range_in_partition_ok (q : Z) :
  0 <= q <= _final_partition h ->
  exists hi, _range_in_partition q h = (Ret (view (a h) (_partition_start q) 0, hi), h) /\
             is_max_of (view (a h) (_partition_start q)) (_count_in_partition h q) hi.
Proof.
  intros Hq. destruct WF as [Hb [Heaps Cross]].
  destruct (partition_inside h q ltac:(lia) Hq) as [Bq [Es [Cq [Iq [Nq _]]]]].
  specialize (Nq ltac:(lia)).
  pose proof (Z.square_nonneg q) as Sq. rewrite <- Es in Sq, Iq.
  destruct (mm_heap_max_ok (a h) (_partition_start q) (_count_in_partition h q))
    as [hi [Ehi Mhi]]; try lia; try (apply Heaps; lia).
  exists hi. split; [ | exact Mhi ].
  unfold _range_in_partition.
  assert (E1 : on_buffer (rd (_partition_start q)) h
               = (Ret (view (a h) (_partition_start q) 0), h)).
  { unfold on_buffer. rewrite rd_ok by lia. rewrite set_a_same.
    unfold view. rewrite Z.add_0_r. reflexivity. }
  rewrite (run_bind _ _ _ _ _ E1).
  rewrite (run_bind _ _ _ _ _
             (eq_refl : gets (fun h0 => _count_in_partition h0 q) h
                        = (Ret (_count_in_partition h q), h))).
  assert (E2 : on_buffer (mm_heap_max (_partition_start q) (_count_in_partition h q)) h
               = (Ret hi, h)).
  { unfold on_buffer. rewrite Ehi, set_a_same. reflexivity. }
  rewrite (run_bind _ _ _ _ _ E2). reflexivity.
Qed.

Lemma earlier_partition_below (q d : Z) :
  0 <= q < _index_to_partition i -> 0 <= d < _count_in_partition h q ->
  view (a h) (_partition_start q) d <= value.
Proof.
  intros Hq Hd. destruct WF as [Hb [Heaps Cross]].
  destruct (slot_in_partition h i ltac:(lia) Hi) as [Hqi _].
  destruct (partition_of_slot h q d ltac:(lia) ltac:(lia) Hd) as [Pk Bk].
  rewrite <- Hv. apply Cross; lia.
Qed.

Lemma later_partition_above (q d : Z) :
  _index_to_partition i < q <= _final_partition h ->
  0 <= d < _count_in_partition h q ->
  value <= view (a h) (_partition_start q) d.
Proof.
  intros Hq Hd. destruct WF as [Hb [Heaps Cross]].
  destruct (slot_in_partition h i ltac:(lia) Hi) as [Hqi _].
  destruct (partition_of_slot h q d ltac:(lia) ltac:(lia) Hd) as [Pk Bk].
  rewrite <- Hv. apply Cross; lia.
Qed.

Lemma own_partition_brackets (hi : Z) :
  is_max_of (view (a h) (_partition_start (_index_to_partition i)))
    (_count_in_partition h (_index_to_partition i)) hi ->
  view (a h) (_partition_start (_index_to_partition i)) 0 <= value <= hi.
Proof.
  intros [_ Mhi]. destruct WF as [Hb [Heaps Cross]].
  destruct (slot_in_partition h i ltac:(lia) Hi) as [Hqi Hd].
  assert (E : value = view (a h) (_partition_start (_index_to_partition i))
                        (i - _partition_start (_index_to_partition i))).
  { rewrite <- Hv. unfold view. f_equal. lia. }
  split.
  - rewrite E. apply (min_at_root _ (_count_in_partition h (_index_to_partition i)));
      [ apply Heaps; lia | lia ].
  - rewrite E. apply Mhi. lia.
Qed.

Lemma half_between (l r : Z) :
  l <= r -> l <= (l + r) / 2 <= r /\ 2 * ((l + r) / 2) <= l + r <= 2 * ((l + r) / 2) + 1.
Proof.
  intros H. pose proof (Z.div_mod (l + r) 2 ltac:(lia)).
  pose proof (Z.mod_pos_bound (l + r) 2 ltac:(lia)). lia.
Qed.

Lemma find_partition_loop_finds (fuel : nat) :
  forall left right,
    0 <= left <= _index_to_partition i ->
    _index_to_partition i <= right <= _final_partition h ->
    right - left + 1 < 2 ^ Z.of_nat fuel ->
    exists p, find_partition_loop fuel value false left right h = (Ret p, h) /\
              0 <= p <= _final_partition h /\
              exists d, 0 <= d < _count_in_partition h p /\
                        view (a h) (_partition_start p) d = value.
Proof.
  induction fuel as [| fuel IH]; intros left right Hl Hr Hf.
  { cbn in Hf. lia. }
  rewrite Nat2Z.inj_succ, Z.pow_succ_r in Hf by lia.
  destruct (partition_inside h (_final_partition h) ltac:(lia)
              ltac:(pose proof (final_partition_bounds h ltac:(lia)); lia))
    as [Bfp _].
  cbn [find_partition_loop].
  destruct (Z.leb_spec left right) as [_ | Hbad]; [ | lia ].
  rewrite (wrap_small (left + right)) by lia.
  pose proof (half_between left right ltac:(lia)) as [Hmid Hhalf].
  set (mid := (left + right) / 2) in *.
  destruct (range_in_partition_ok mid ltac:(lia)) as [hi [Er Mhi]].
  rewrite (run_bind _ _ _ _ _ Er).
  unfold partition_matches. cbn [fst snd].
  set (lo := view (a h) (_partition_start mid) 0) in *.
  destruct (partition_inside h mid ltac:(lia) ltac:(lia)) as [_ [_ [Cm [_ [Nm _]]]]].
  specialize (Nm ltac:(lia)).
  assert (Hlohi : lo <= hi) by (destruct Mhi as [_ M]; apply M; lia).
  assert (Below : mid < _index_to_partition i -> hi <= value).
  { intros Hlt. destruct Mhi as [[k [Hk Ek]] _]. rewrite <- Ek.
    apply earlier_partition_below; lia. }
  assert (Above : _index_to_partition i < mid -> value <= lo).
  { intros Hgt. apply later_partition_above; lia. }
  assert (Own : mid = _index_to_partition i -> lo <= value <= hi).
  { intros E. unfold lo. revert Mhi. rewrite E. apply own_partition_brackets. }
  destruct (Z.leb_spec lo value) as [Hlo | Hlo];
    destruct (Z.leb_spec value hi) as [Hhi | Hhi]; cbn [andb].
  - (* the range of [mid] brackets the value *)
    rewrite (run_bind _ _ _ _ _ (run_ret _ _)).
    exists mid. split; [ reflexivity | ]. split; [ lia | ].
    destruct (Z.compare_spec mid (_index_to_partition i)) as [E | Hlt | Hgt].
    + destruct (slot_in_partition h i ltac:(lia) Hi) as [_ Hd].
      exists (i - _partition_start mid). rewrite E. split; [ exact Hd | ].
      rewrite <- Hv. unfold view. f_equal. lia.
    + destruct Mhi as [[k [Hk Ek]] _]. exists k. split; [ exact Hk | ].
      specialize (Below Hlt). lia.
    + exists 0. split; [ lia | ]. specialize (Above Hgt). fold lo. lia.
  - (* the value is above the range: search the later partitions *)
    rewrite (run_bind _ _ _ _ _ (run_ret _ _)).
    destruct (Z.ltb_spec hi value) as [_ | Hn]; [ | lia ].
    rewrite (wrap_small (mid + 1)) by lia.
    assert (mid < _index_to_partition i).
    { destruct (Z.compare_spec mid (_index_to_partition i)) as [E | Hlt | Hgt];
        [ specialize (Own E) | exact Hlt | specialize (Above Hgt) ]; lia. }
    apply IH; lia.
  - (* the value is below the range: search the earlier partitions *)
    rewrite (run_bind _ _ _ _ _ (run_ret _ _)).
    destruct (Z.ltb_spec hi value) as [Hn | _]; [ lia | ].
    assert (_index_to_partition i < mid).
    { destruct (Z.compare_spec mid (_index_to_partition i)) as [E | Hlt | Hgt];
        [ specialize (Own E) | specialize (Below Hlt) | exact Hgt ]; lia. }
    destruct (Z.eqb_spec mid 0) as [Ez | _]; [ lia | ].
    rewrite (wrap_small (mid - 1)) by lia.
    apply IH; lia.
  - lia.
Qed.

End Search.

Lemma find_loop_finds (h : HeapArray) (value i p_end : Z) (fuel : nat) :
  get (a h) i = value -> i < 2 ^ 62 ->
  forall i0, 0 <= i0 <= i -> i <= p_end -> i < len (a h) ->
             i - i0 < Z.of_nat fuel ->
             exists i', i0 <= i' <= i /\
                        find_loop fuel value i0 p_end h = (Ret (true, i'), h) /\
                        get (a h) i' = value.
Proof.
  intros Hv Hi.
  induction fuel as [| fuel IH]; intros i0 H0 He Hb Hf; [ lia | ].
  cbn [find_loop].
  destruct (Z.leb_spec i0 p_end) as [_ | Hbad]; [ | lia ].
  assert (E : on_buffer (rd i0) h = (Ret (get (a h) i0), h)).
  { unfold on_buffer. rewrite rd_ok by lia. rewrite set_a_same. reflexivity. }
  rewrite (run_bind _ _ _ _ _ E).
  destruct (Z.eqb_spec (get (a h) i0) value) as [Ev | Hne].
  - exists i0. split; [ lia | ]. split; [ reflexivity | exact Ev ].
  - assert (i0 <> i) by congruence.
    rewrite (wrap_small (i0 + 1)) by lia.
    destruct (IH (i0 + 1)) as [i' [Hi' [E' V']]]; try lia.
    exists i'. split; [ lia | ]. split; [ exact E' | exact V' ].
Qed.


Lemma find_finds (h : HeapArray) (value i : Z) :
  well_formed h -> count h < 2 ^ 52 -> 0 <= i < count h -> get (a h) i = value ->
  exists i', find value h = (Ret (true, i'), h) /\
             0 <= i' < count h /\ get (a h) i' = value /\
             contains value h = (Ret true, h).
Proof.
  intros WF Hc Hi Hv.
  pose proof WF as [Hb _].
  pose proof (final_partition_bounds h ltac:(lia)) as Hfp.
  destruct (slot_in_partition h i ltac:(lia) Hi) as [Hq _].
  destruct (partition_inside h (_final_partition h) ltac:(lia) ltac:(lia)) as [Bfp _].
  destruct (find_partition_loop_finds h value i WF ltac:(lia) Hi Hv SEARCH_FUEL
              0 (_final_partition h))
    as [p [Ep [Hp [d [Hd Ed]]]]]; try lia.
  { change (2 ^ Z.of_nat SEARCH_FUEL) with (2 ^ 66). lia. }
  destruct (partition_inside h p ltac:(lia) Hp) as [Bp [Es [Cp [Ip _]]]].
  pose proof (Z.square_nonneg p) as Sq.
  assert (Efp : _find_partition value false h = (Ret p, h)).
  { unfold _find_partition.
    rewrite (run_bind _ _ _ _ _ (eq_refl : gets count h = (Ret (count h), h))).
    destruct (Z.gtb_spec (count h) 0) as [_ | Hz]; [ | lia ].
    rewrite (run_bind _ _ _ _ _
               (eq_refl : gets _final_partition h = (Ret (_final_partition h), h))).
    exact Ep. }
  destruct (find_loop_finds h value (_partition_start p + d) (_partition_end p)
              (2 + length (a h)) Ed ltac:(lia) (_partition_start p))
    as [i' [Hi' [Ei' Vi']]]; try lia.
  { rewrite partition_end_small by lia. lia. }
  { unfold len in *. lia. }
  assert (Ef : _find value h
               = (Ret (true, i', p, wrap (i' - _partition_start p)), h)).
  { unfold _find. rewrite (run_bind _ _ _ _ _ Efp).
    rewrite (run_bind _ _ _ _ _ (eq_refl : gets count h = (Ret (count h), h))).
    destruct (Z.gtb_spec (count h) 0) as [_ | Hz]; [ | lia ].
    assert (Ei2 : (fun h0 => find_loop (2 + length (a h0)) value (_partition_start p)
                               (_partition_end p) h0) h = (Ret (true, i'), h))
      by exact Ei'.
    rewrite (run_bind _ _ _ _ _ Ei2). reflexivity. }
  assert (Efind : find value h = (Ret (true, i'), h)).
  { unfold find. rewrite (run_bind _ _ _ _ _ Ef). reflexivity. }
  exists i'. split; [ exact Efind | ]. split; [ lia | ]. split; [ exact Vi' | ].
  unfold contains.
  rewrite (run_bind _ _ _ _ _ (eq_refl : gets count h = (Ret (count h), h))).
  destruct (Z.gtb_spec (count h) 0) as [_ | Hz]; [ | lia ].
  rewrite (run_bind _ _ _ _ _ Efind). reflexivity.
Qed.

(** X20: on a well-formed container every element is found: for a value among
    the elements, [find] reports success with the index of an element
    equal to it, [contains] answers [true], and the container is
    unchanged. *)
Theorem contains_complete (h : HeapArray) (value : Z) :
  well_formed h -> count h < 2 ^ 52 -> In value (elements h) ->
  exists i, find value h = (Ret (true, i), h) /\
            0 <= i < count h /\ get (a h) i = value /\
            contains value h = (Ret true, h).
Proof.
  intros WF Hc Hin. pose proof WF as [Hb _].
  assert (Hl : In value (live (a h) 0 (count h))) by exact Hin.
  apply in_live in Hl; try lia.
  destruct Hl as [d [Hd Ed]].
  apply (find_finds h value d); auto.
Qed.

Lemma contains_complete_witness :
  exists i, find 8 (mkHeapArray 9 6 false [1; 2; 3; 5; 8; 9; 0; 0; 0])
            = (Ret (true, i), mkHeapArray 9 6 false [1; 2; 3; 5; 8; 9; 0; 0; 0]) /\
            0 <= i < count (mkHeapArray 9 6 false [1; 2; 3; 5; 8; 9; 0; 0; 0]) /\
            get (a (mkHeapArray 9 6 false [1; 2; 3; 5; 8; 9; 0; 0; 0])) i = 8 /\
            contains 8 (mkHeapArray 9 6 false [1; 2; 3; 5; 8; 9; 0; 0; 0])
            = (Ret true, mkHeapArray 9 6 false [1; 2; 3; 5; 8; 9; 0; 0; 0]).
Proof.
  apply (contains_complete (mkHeapArray 9 6 false [1; 2; 3; 5; 8; 9; 0; 0; 0]) 8);
    [ exact built_example_well_formed | simpl; lia | ].
  simpl. tauto.
Defined.

(** * Replacing the root of a heap *)

(** X21: [mm_heap_replace_at_index] at index 0, the step [remove] uses to
    ripple a value through a partition: on a min-max heap of [n >= 1]
    values it returns the old root, which is the minimum, and leaves a
    min-max heap of the other values and the new one, without touching a
    slot outside the heap. *)
Theorem replace_root_spec (m : mem) (h n v : Z) :
  0 <= h -> 1 <= n < 2 ^ 60 -> h + n <= len m -> mm_heap (view m h) n ->
  exists m', mm_heap_replace_at_index v 0 h n m = (Ret (view m h 0), m') /\
             is_min_of (view m h) n (view m h 0) /\
             len m' = len m /\
             mm_heap (view m' h) n /\
             Permutation (v :: live m h n) (view m h 0 :: live m' h n) /\
             forall q, 0 <= q -> q < h \/ h + n <= q -> get m' q = get m q.
Proof.
  intros Hh Hn Hb Heap. unfold mm_heap_replace_at_index.
  destruct (Z.eqb_spec n 0) as [Hz | _]; [ lia | ].
  destruct (Z.gtb_spec 0 n) as [Hgt | _]; [ lia | ].
  rewrite (run_bind _ _ _ _ _ (rd_ok m (h + 0) ltac:(lia))).
  rewrite (run_bind _ _ _ _ _ (wr_ok m (h + 0) v ltac:(lia))).
  change (min_level 0) with true. cbv iota.
  set (m1 := set m (h + 0) v).
  assert (Hm1 : len m1 = len m) by apply len_set.
  assert (V0 : view m1 h 0 = v).
  { unfold m1. rewrite view_set by lia. reflexivity. }
  assert (Vo : forall k, 0 <= k -> k <> 0 -> view m1 h k = view m h k).
  { intros k Hk Hne. unfold m1. rewrite view_set by lia.
    destruct (Z.eqb_spec k 0); [ contradiction | reflexivity ]. }
  assert (F1 : forall q, 0 <= q -> q < h \/ h + n <= q -> get m1 q = get m q).
  { intros q Hq Hout. unfold m1. apply get_set_neq; lia. }
  pose proof (mm_heap_local _ _ Heap) as L.
  assert (Hmin : is_min_of (view m h) n (view m h 0)).
  { split; [ exists 0; split; [ lia | reflexivity ] | ].
    intros k Hk. apply (min_at_root (view m h) n); auto. }
  assert (P1 : Permutation (v :: live m h n) (view m h 0 :: live m1 h n))
    by (apply perm_overwrite; lia).
  change (get m (h + 0)) with (view m h 0).
  destruct (Z.ltb_spec v (view m h 0)) as [Hlt | Hge].
  - (* a smaller root: nothing moves *)
    assert (Eb : bubble_up_min h 0 m1 = (Ret tt, m1)) by reflexivity.
    rewrite (run_bind _ _ _ _ _ Eb). rewrite run_ret.
    exists m1. split; [ reflexivity | ]. split; [ exact Hmin | ].
    split; [ exact Hm1 | ]. split; [ | split; [ exact P1 | exact F1 ] ].
    apply mm_local_heap. intros u l Hu Hl Ha.
    destruct (Z.eq_dec u 0) as [-> | Hne].
    + specialize (L 0 l ltac:(lia) Hl Ha).
      change (view m h 0 <= view m h l) in L.
      change (view m1 h 0 <= view m1 h l).
      rewrite V0, Vo by arith. lia.
    + apply (ordered_ext (view m h)); [ apply Vo; arith | apply Vo; arith | ].
      apply L; auto.
  - (* otherwise the new root sinks *)
    change (has_parent 0) with false. unfold and_then.
    rewrite (wrap_small (n - 1)) by lia.
    destruct (sift_down_min_loop_sifts LOOP_FUEL m1 h 0 0 (n - 1))
      as [m' [E' [Hlen' [Heap' [Perm' Frame']]]]]; auto; try lia.
    { pose proof (loop_fuel_enough (n - 1) ltac:(lia)). lia. }
    { split.
      - intros u l Hu Hl Ha Hne.
        apply (ordered_ext (view m h)); [ apply Vo; arith | apply Vo; arith | ].
        apply L; auto; lia.
      - intros g l Hg Hl G Ha. exfalso. arith. }
    replace (n - 1 + 1) with n in * by lia.
    assert (Es : (c <- ret false ;;
                  (if c then p <- parent 0 ;; swap h p 0 else ret tt) ;;
                  mmheap_sift_down_min h 0 (n - 1)) m1 = (Ret tt, m')).
    { rewrite (run_bind _ _ _ _ _ (run_ret _ _)).
      rewrite (run_bind _ _ _ _ _ (run_ret _ _)). exact E'. }
    rewrite (run_bind _ _ _ _ _ Es). rewrite run_ret.
    exists m'. split; [ reflexivity | ]. split; [ exact Hmin | ].
    split; [ lia | ].
    split; [ apply mm_local_heap, heap_from_zero; exact Heap' | ].
    split.
    + eapply perm_trans; [ exact P1 | ]. apply perm_skip. exact Perm'.
    + intros q Hq Hout. rewrite Frame' by lia. apply F1; auto.
Qed.

Lemma replace_root_spec_witness :
  exists m', mm_heap_replace_at_index 7 0 0 3 [1; 9; 5] = (Ret (view [1; 9; 5] 0 0), m') /\
             is_min_of (view [1; 9; 5] 0) 3 (view [1; 9; 5] 0 0) /\
             len m' = len [1; 9; 5] /\
             mm_heap (view m' 0) 3 /\
             Permutation (7 :: live [1; 9; 5] 0 3) (view [1; 9; 5] 0 0 :: live m' 0 3) /\
             forall q, 0 <= q -> q < 0 \/ 0 + 3 <= q -> get m' q = get [1; 9; 5] q.
Proof.
  apply (replace_root_spec [1; 9; 5] 0 3 7); [ lia | lia | vm_compute; discriminate | ].
  apply mm_local_heap, mm_local_b_sound. vm_compute. reflexivity.
Defined.

(** * Exceptions of the heap primitives *)

Lemma nt_ret {S A : Type} (x : A) : no_throw (ret (S := S) x).
Proof.
  intros s e s' E. discriminate.
Qed.

Lemma nt_abort {S A : Type} : no_throw (abort (S := S) (A := A)).
Proof.
  intros s e s' E. discriminate.
Qed.

Lemma nt_diverge {S A : Type} : no_throw (diverge (S := S) (A := A)).
Proof.
  intros s e s' E. discriminate.
Qed.

Lemma nt_rd (p : Z) : no_throw (rd p).
Proof.
  intros s e s' E. unfold rd in E. destruct (in_bounds s p); discriminate.
Qed.

Lemma nt_wr (p v : Z) : no_throw (wr p v).
Proof.
  intros s e s' E. unfold wr in E. destruct (in_bounds s p); discriminate.
Qed.

Lemma nt_bind {S A B : Type} (c : M S A) (k : A -> M S B) :
  no_throw c -> (forall x, no_throw (k x)) -> no_throw (bind c k).
Proof.
  intros Hc Hk s e s' E. unfold bind in E.
  destruct (c s) as [[x | e0 | | | ] s0] eqn:E0; try discriminate.
  - exact (Hk x _ _ _ E).
  - exact (Hc _ _ _ E0).
Qed.

Lemma nt_fuel {S A : Type} (f : S -> nat) (c : nat -> M S A) :
  (forall n, no_throw (c n)) -> no_throw (fun s => c (f s) s).
Proof.
  intros H s e s' E. exact (H _ _ _ _ E).
Qed.

Ltac nt_with known :=
  cbv zeta;
  repeat first
    [ known
    | apply nt_ret | apply nt_abort | apply nt_diverge | apply nt_rd | apply nt_wr
    | apply nt_bind; [ | intros ]
    | match goal with
      | |- no_throw (if ?b then _ else _) => destruct b
      | |- no_throw (and_then ?b _) => unfold and_then
      end ].

Lemma nt_parent (i : Z) : no_throw (parent (S := mem) i).
Proof.
  unfold parent. nt_with fail.
Qed.

Lemma nt_gparent (i : Z) : no_throw (gparent (S := mem) i).
Proof.
  unfold gparent. nt_with ltac:(apply nt_parent).
Qed.

Lemma nt_lt_at (h i j : Z) : no_throw (lt_at h i j).
Proof.
  unfold lt_at. nt_with fail.
Qed.

Lemma nt_gt_at (h i j : Z) : no_throw (gt_at h i j).
Proof.
  unfold gt_at. nt_with fail.
Qed.

Lemma nt_swap (h i j : Z) : no_throw (swap h i j).
Proof.
  unfold swap. nt_with fail.
Qed.

Ltac nt_basic :=
  first [ apply nt_parent | apply nt_gparent | apply nt_lt_at | apply nt_gt_at
        | apply nt_swap ].

Lemma nt_min_child_or_gchild (h i r : Z) : no_throw (min_child_or_gchild h i r).
Proof.
  unfold min_child_or_gchild, min_child, min_gchild. nt_with nt_basic.
Qed.

Lemma nt_max_child (h i r : Z) : no_throw (max_child h i r).
Proof.
  unfold max_child. nt_with nt_basic.
Qed.

Lemma nt_max_child_or_gchild (h i r : Z) : no_throw (max_child_or_gchild h i r).
Proof.
  unfold max_child_or_gchild, max_child, max_gchild. nt_with nt_basic.
Qed.

Lemma nt_sift_down_min_loop (fuel : nat) (h r : Z) :
  forall i, no_throw (sift_down_min_loop fuel h i r).
Proof.
  induction fuel as [| fuel IH]; intros i; cbn [sift_down_min_loop];
    nt_with ltac:(first [ apply IH | apply nt_min_child_or_gchild | nt_basic ]).
Qed.

Lemma nt_sift_down_max_loop (fuel : nat) (h r : Z) :
  forall i, no_throw (sift_down_max_loop fuel h i r).
Proof.
  induction fuel as [| fuel IH]; intros i; cbn [sift_down_max_loop];
    nt_with ltac:(first [ apply IH | apply nt_max_child_or_gchild | nt_basic ]).
Qed.

Lemma nt_sift_down (h i r : Z) : no_throw (mmheap_sift_down h i r).
Proof.
  unfold mmheap_sift_down, mmheap_sift_down_min, mmheap_sift_down_max.
  destruct (min_level i); [ apply nt_sift_down_min_loop | apply nt_sift_down_max_loop ].
Qed.

Lemma nt_bubble_up_min_loop (fuel : nat) (h : Z) :
  forall i, no_throw (bubble_up_min_loop fuel h i).
Proof.
  induction fuel as [| fuel IH]; intros i; cbn [bubble_up_min_loop];
    nt_with ltac:(first [ apply IH | nt_basic ]).
Qed.

Lemma nt_bubble_up_max_loop (fuel : nat) (h : Z) :
  forall i, no_throw (bubble_up_max_loop fuel h i).
Proof.
  induction fuel as [| fuel IH]; intros i; cbn [bubble_up_max_loop];
    nt_with ltac:(first [ apply IH | nt_basic ]).
Qed.

Lemma nt_bubble_up (h i : Z) : no_throw (bubble_up h i).
Proof.
  unfold bubble_up, bubble_up_min, bubble_up_max.
  nt_with ltac:(first [ apply nt_bubble_up_min_loop | apply nt_bubble_up_max_loop
                      | nt_basic ]).
Qed.

Lemma nt_make_mm_heap_loop (fuel : nat) (h size : Z) :
  forall current, no_throw (make_mm_heap_loop fuel h current size).
Proof.
  induction fuel as [| fuel IH]; intros current; cbn [make_mm_heap_loop];
    nt_with ltac:(first [ apply IH | apply nt_sift_down ]).
Qed.

Lemma nt_make_mm_heap (h size : Z) : no_throw (make_mm_heap h size).
Proof.
  unfold make_mm_heap.
  nt_with ltac:(first
    [ nt_basic
    | apply (nt_fuel (fun m => (2 + length m)%nat)
               (fun n => make_mm_heap_loop n _ _ _));
      intros n; apply nt_make_mm_heap_loop ]).
Qed.

Lemma te_throw {S A : Type} (e : exn) :
  e = runtime_error \/ e = range_error -> throws_early (throw (S := S) (A := A) e).
Proof.
  intros He s e' s' E. inversion E; subst. auto.
Qed.

Lemma te_no_throw {S A : Type} (c : M S A) : no_throw c -> throws_early c.
Proof.
  intros H s e s' E. destruct (H _ _ _ E).
Qed.

Lemma te_bind_read {S A B : Type} (c : M S A) (k : A -> M S B) :
  read_only c -> no_throw c -> (forall x, throws_early (k x)) ->
  throws_early (bind c k).
Proof.
  intros Hr Hn Hk s e s' E. unfold bind in E.
  destruct (c s) as [[x | e0 | | | ] s0] eqn:E0; try discriminate.
  - rewrite (Hr _ _ _ E0) in E. exact (Hk x _ _ _ E).
  - destruct (Hn _ _ _ E0).
Qed.

Lemma te_bind_then {S A B : Type} (c : M S A) (k : A -> M S B) :
  throws_early c -> (forall x, no_throw (k x)) -> throws_early (bind c k).
Proof.
  intros Hc Hk s e s' E. unfold bind in E.
  destruct (c s) as [[x | e0 | | | ] s0] eqn:E0; try discriminate.
  - destruct (Hk x _ _ _ E).
  - inversion E; subst. exact (Hc _ _ _ E0).
Qed.

Lemma te_mm_heap_add (v h n cap : Z) : throws_early (mm_heap_add v h n cap).
Proof.
  unfold mm_heap_add. destruct (n <? cap).
  - apply te_no_throw. nt_with ltac:(apply nt_bubble_up).
  - apply te_throw. auto.
Qed.

Lemma te_replace_at_index (v i h n : Z) : throws_early (mm_heap_replace_at_index v i h n).
Proof.
  unfold mm_heap_replace_at_index, mmheap_sift_down_min, mmheap_sift_down_max,
    bubble_up_min, bubble_up_max.
  destruct (n =? 0); [ apply te_throw; auto | ].
  destruct (i >? n); [ apply te_throw; auto | ].
  apply te_no_throw.
  nt_with ltac:(first
    [ apply nt_bubble_up_min_loop | apply nt_bubble_up_max_loop
    | apply nt_sift_down_min_loop | apply nt_sift_down_max_loop | nt_basic ]).
Qed.

Lemma te_remove_at_index (i h n : Z) : throws_early (mm_heap_remove_at_index i h n).
Proof.
  unfold mm_heap_remove_at_index.
  destruct (n =? 0); [ apply te_throw; auto | ].
  destruct (i >? n); [ apply te_throw; auto | ].
  apply te_bind_read; [ apply ro_rd | apply nt_rd | intros last ].
  apply te_bind_then; [ apply te_replace_at_index | intros old; apply nt_ret ].
Qed.

(** X22: the heap primitives throw nothing but [runtime_error] and
    [range_error], and whenever one of them throws the buffer is exactly
    as it was before the call; [make_mm_heap] and the sift-down never
    throw. *)
Theorem heap_primitives_throw_early :
  (forall v h n cap, throws_early (mm_heap_add v h n cap)) /\
  (forall h n, throws_early (mm_heap_max h n)) /\
  (forall h n, throws_early (mm_heap_min h n)) /\
  (forall v h n cap, throws_early (mm_heap_ripple_add v h n cap)) /\
  (forall v i h n, throws_early (mm_heap_replace_at_index v i h n)) /\
  (forall i h n, throws_early (mm_heap_remove_at_index i h n)) /\
  (forall h n, throws_early (mm_heap_remove_min h n)) /\
  (forall h n, throws_early (mm_heap_remove_max h n)) /\
  (forall h n, no_throw (make_mm_heap h n)) /\
  (forall h i r, no_throw (mmheap_sift_down h i r)).
Proof.
  split; [ exact te_mm_heap_add | ].
  split.
  { intros h n. unfold mm_heap_max.
    destruct (n <? 1); [ apply te_throw; auto | ].
    apply te_no_throw. nt_with ltac:(apply nt_max_child). }
  split.
  { intros h n. unfold mm_heap_min.
    destruct (n <? 1); [ apply te_throw; auto | apply te_no_throw, nt_rd ]. }
  split.
  { intros v h n cap. unfold mm_heap_ripple_add. cbv zeta.
    destruct (n =? cap); cbn [negb].
    - apply te_no_throw.
      nt_with ltac:(first [ apply nt_max_child | apply nt_sift_down | nt_basic ]).
    - apply te_bind_then; [ apply te_mm_heap_add | intros c; apply nt_ret ]. }
  split; [ exact te_replace_at_index | ].
  split; [ exact te_remove_at_index | ].
  split.
  { intros h n. unfold mm_heap_remove_min.
    destruct (n =? 0); [ apply te_throw; auto | ].
    apply te_no_throw. nt_with ltac:(first [ apply nt_sift_down | nt_basic ]). }
  split.
  { intros h n. unfold mm_heap_remove_max.
    destruct (n =? 0); [ apply te_throw; auto | ].
    apply te_bind_read; [ apply ro_rd | apply nt_rd | intros value ].
    apply te_bind_read; [ apply ro_max_child | apply nt_max_child | intros m ].
    cbv zeta.
    apply te_bind_then; [ apply te_remove_at_index | intros r; apply nt_ret ]. }
  split; [ exact nt_make_mm_heap | exact nt_sift_down ].
Qed.

(** * Where the heap primitives write *)

Lemma ro_lt_at (h i j : Z) : read_only (lt_at h i j).
Proof.
  unfold lt_at. ro_with fail.
Qed.

Lemma ro_parent (i : Z) : read_only (parent (S := mem) i).
Proof.
  unfold parent. destruct (i >? 0); [ apply ro_ret | ].
  intros s r s' E. inversion E. reflexivity.
Qed.

Lemma ro_gparent (i : Z) : read_only (gparent (S := mem) i).
Proof.
  unfold gparent. destruct (i >? 2).
  - apply ro_bind; [ apply ro_parent | intros p; apply ro_parent ].
  - intros s r s' E. inversion E. reflexivity.
Qed.

Ltac ro_basic :=
  first [ apply ro_lt_at | apply ro_gt_at | apply ro_parent | apply ro_gparent ].

Lemma ro_min_child_or_gchild (h i r : Z) : read_only (min_child_or_gchild h i r).
Proof.
  unfold min_child_or_gchild, min_child, min_gchild. cbv zeta. ro_with ro_basic.
Qed.

Lemma ro_max_child_or_gchild (h i r : Z) : read_only (max_child_or_gchild h i r).
Proof.
  unfold max_child_or_gchild, max_child, max_gchild. cbv zeta. ro_with ro_basic.
Qed.

(** ** What the selections return *)

Lemma ret_inv {S A : Type} (x y : A) (s s' : S) :
  ret x s = (Ret y, s') -> x = y /\ s = s'.
Proof.
  intros E. inversion E. auto.
Qed.

Lemma ret_pair_inv {S A B : Type} (x y : A) (u v : B) (s s' : S) :
  ret (x, u) s = (Ret (y, v), s') -> x = y /\ u = v /\ s = s'.
Proof.
  intros E. inversion E. auto.
Qed.

Lemma and_then_true {S : Type} (b : bool) (c : M S bool) (s s' : S) :
  and_then b c s = (Ret true, s') -> b = true.
Proof.
  destruct b; [ reflexivity | ]. cbn. intros E. inversion E.
Qed.

Lemma parent_post {S : Type} (i p : Z) (s s' : S) :
  parent i s = (Ret p, s') -> i < 2 ^ 62 -> 0 < i /\ p = (i - 1) / 2.
Proof.
  unfold parent. destruct (Z.gtb_spec i 0) as [Hpos | Hz]; intros E Hi.
  - inversion E. rewrite wrap_small by lia. auto.
  - inversion E.
Qed.

Lemma gparent_post {S : Type} (i g : Z) (s s' : S) :
  gparent i s = (Ret g, s') -> i < 2 ^ 62 -> 2 < i /\ g = ((i - 1) / 2 - 1) / 2.
Proof.
  unfold gparent. destruct (Z.gtb_spec i 2) as [Hpos | Hz]; intros E Hi.
  - apply bind_ret_inv in E. destruct E as [p [s1 [E1 E2]]].
    apply parent_post in E1; [ | lia ]. destruct E1 as [_ ->].
    assert (0 < (i - 1) / 2 < 2 ^ 62).
    { pose proof (Z.div_mod (i - 1) 2 ltac:(lia)).
      pose proof (Z.mod_pos_bound (i - 1) 2 ltac:(lia)). lia. }
    apply parent_post in E2; [ | lia ]. destruct E2 as [_ ->]. auto.
  - inversion E.
Qed.

Lemma gchildren_small (i : Z) :
  0 <= i < 2 ^ 60 ->
  left (left i) = 4 * i + 3 /\ right (left i) = 4 * i + 4 /\
  left (right i) = 4 * i + 5 /\ right (right i) = 4 * i + 6.
Proof.
  intros Hi.
  rewrite (left_small i), (right_small i) by lia.
  rewrite !left_small, !right_small by lia. lia.
Qed.

Section SelectionPost.

Variables (h i r : Z).
Hypothesis Hi : 0 <= i < 2 ^ 60.

Ltac child_post E :=
  rewrite left_small, right_small in E by lia;
  match type of E with
  | (if ?t then _ else _) _ = _ => destruct (Z.leb_spec (2 * i + 1) r) as [Hc | Hn]
  end;
  [ let c := fresh "c" in
    let m1 := fresh "m" in
    let Ea := fresh "Ea" in
    let Eb := fresh "Eb" in
    apply bind_ret_inv in E; destruct E as [c [m1 [Ea Eb]]];
    apply ret_pair_inv in Eb; destruct Eb as [? [? ?]]; subst;
    split; [ tauto | ]; intros _;
    destruct c;
    [ apply and_then_true in Ea; apply Z.leb_le in Ea;
      split; [ right; reflexivity | lia ]
    | split; [ left; reflexivity | lia ] ]
  | apply ret_pair_inv in E; destruct E as [? [? ?]]; subst;
    split; [ split; [ discriminate | lia ] | discriminate ] ].

Lemma min_child_post (m m' : mem) (b : bool) (x : Z) :
  min_child h i r m = (Ret (b, x), m') ->
  (b = true <-> 2 * i + 1 <= r) /\ (b = true -> is_child i x /\ x <= r).
Proof.
  intros E. unfold min_child in E. cbv zeta in E. child_post E.
Qed.

Lemma max_child_post (m m' : mem) (b : bool) (x : Z) :
  max_child h i r m = (Ret (b, x), m') ->
  (b = true <-> 2 * i + 1 <= r) /\ (b = true -> is_child i x /\ x <= r).
Proof.
  intros E. unfold max_child in E. cbv zeta in E. child_post E.
Qed.

Ltac gchild_post E :=
  destruct (gchildren_small i Hi) as [G1 [G2 [G3 G4]]];
  rewrite G1, G2, G3, G4 in E;
  destruct (Z.leb_spec (4 * i + 3) r) as [Hc | Hn];
  [ let c1 := fresh "c" in
    let c2 := fresh "c" in
    let c3 := fresh "c" in
    let Ea := fresh "Ea" in
    let Eb := fresh "Eb" in
    let Ec := fresh "Ec" in
    apply bind_ret_inv in E; destruct E as [c1 [? [Ea E]]];
    apply bind_ret_inv in E; destruct E as [c2 [? [Eb E]]];
    apply bind_ret_inv in E; destruct E as [c3 [? [Ec E]]];
    apply ret_pair_inv in E; destruct E as [? [? ?]]; subst; intros _;
    destruct c3;
    [ apply and_then_true in Ec; apply Z.leb_le in Ec; unfold is_gchild; lia | ];
    destruct c2;
    [ apply and_then_true in Eb; apply Z.leb_le in Eb; unfold is_gchild; lia | ];
    destruct c1;
    [ apply and_then_true in Ea; apply Z.leb_le in Ea; unfold is_gchild; lia | ];
    unfold is_gchild; lia
  | apply ret_pair_inv in E; destruct E as [? [? ?]]; subst; discriminate ].

Lemma min_gchild_post (m m' : mem) (b : bool) (x : Z) :
  min_gchild h i r m = (Ret (b, x), m') -> b = true -> is_gchild i x /\ x <= r.
Proof.
  intros E. unfold min_gchild in E. cbv zeta in E. gchild_post E.
Qed.

Lemma max_gchild_post (m m' : mem) (b : bool) (x : Z) :
  max_gchild h i r m = (Ret (b, x), m') -> b = true -> is_gchild i x /\ x <= r.
Proof.
  intros E. unfold max_gchild in E. cbv zeta in E. gchild_post E.
Qed.

Lemma min_child_or_gchild_post (m m' : mem) (b : bool) (x : Z) :
  min_child_or_gchild h i r m = (Ret (b, x), m') ->
  2 * i + 1 <= r -> above i x /\ x <= r.
Proof.
  intros E Hc. unfold min_child_or_gchild in E.
  apply bind_ret_inv in E. destruct E as [[bc xc] [m1 [Ea E]]].
  destruct (min_child_post _ _ _ _ Ea) as [Hb Hx]. cbn [fst snd] in E.
  assert (bc = true) by (apply Hb; exact Hc). subst bc.
  destruct (Hx eq_refl) as [Cx Hxr].
  apply bind_ret_inv in E. destruct E as [[bg xg] [m2 [Eb E]]].
  apply bind_ret_inv in E. destruct E as [c [m3 [Ec E]]].
  apply ret_pair_inv in E. destruct E as [? [? ?]]. subst. cbn [fst snd] in *.
  destruct c.
  - apply and_then_true in Ec. subst bg.
    destruct (min_gchild_post _ _ _ _ Eb eq_refl) as [Gx Hgr].
    split; [ right; exact Gx | exact Hgr ].
  - split; [ left; exact Cx | exact Hxr ].
Qed.

Lemma max_child_or_gchild_post (m m' : mem) (b : bool) (x : Z) :
  max_child_or_gchild h i r m = (Ret (b, x), m') ->
  2 * i + 1 <= r -> above i x /\ x <= r.
Proof.
  intros E Hc. unfold max_child_or_gchild in E.
  apply bind_ret_inv in E. destruct E as [[bc xc] [m1 [Ea E]]].
  destruct (max_child_post _ _ _ _ Ea) as [Hb Hx]. cbn [fst snd] in E.
  assert (bc = true) by (apply Hb; exact Hc). subst bc.
  destruct (Hx eq_refl) as [Cx Hxr].
  apply bind_ret_inv in E. destruct E as [[bg xg] [m2 [Eb E]]].
  apply bind_ret_inv in E. destruct E as [c [m3 [Ec E]]].
  apply ret_pair_inv in E. destruct E as [? [? ?]]. subst. cbn [fst snd] in *.
  destruct c.
  - apply and_then_true in Ec. subst bg.
    destruct (max_gchild_post _ _ _ _ Eb eq_refl) as [Gx Hgr].
    split; [ right; exact Gx | exact Hgr ].
  - split; [ left; exact Cx | exact Hxr ].
Qed.

End SelectionPost.

(** ** Confinement of the writes *)

Lemma cf_read_only {A : Type} (lo hi : Z) (c : M mem A) :
  read_only c -> confined lo hi c.
Proof.
  intros H m r m' E. rewrite (H _ _ _ E). auto.
Qed.

Lemma cf_weaken {A : Type} (lo hi lo' hi' : Z) (c : M mem A) :
  lo' <= lo -> hi <= hi' -> confined lo hi c -> confined lo' hi' c.
Proof.
  intros Hlo Hhi H m r m' E. destruct (H _ _ _ E) as [Hl Hf].
  split; [ exact Hl | ]. intros q Hq Hout. apply Hf; lia.
Qed.

Lemma cf_wr (lo hi p v : Z) : 0 <= lo <= p -> p < hi -> confined lo hi (wr p v).
Proof.
  intros Hlo Hhi m r m' E. unfold wr in E.
  destruct (in_bounds m p); inversion E; subst; [ | auto ].
  split; [ apply len_set | ].
  intros q Hq Hout. apply get_set_neq; lia.
Qed.

Lemma cf_bind_post {A B : Type} (lo hi : Z) (P : A -> Prop)
    (c : M mem A) (k : A -> M mem B) :
  confined lo hi c ->
  (forall m x m', c m = (Ret x, m') -> P x) ->
  (forall x, P x -> confined lo hi (k x)) ->
  confined lo hi (bind c k).
Proof.
  intros Hc Hp Hk m r m' E. unfold bind in E.
  destruct (c m) as [[x | e | | | ] m0] eqn:E0;
    try (inversion E; subst; exact (Hc _ _ _ E0)).
  destruct (Hc _ _ _ E0) as [Hl0 Hf0].
  destruct (Hk x (Hp _ _ _ E0) _ _ _ E) as [Hl1 Hf1].
  split; [ lia | ]. intros q Hq Hout. rewrite Hf1, Hf0; auto.
Qed.

Lemma cf_bind {A B : Type} (lo hi : Z) (c : M mem A) (k : A -> M mem B) :
  confined lo hi c -> (forall x, confined lo hi (k x)) -> confined lo hi (bind c k).
Proof.
  intros Hc Hk. apply (cf_bind_post lo hi (fun _ => True)); auto.
Qed.

Lemma cf_ret {A : Type} (lo hi : Z) (x : A) : confined lo hi (ret x).
Proof.
  apply cf_read_only, ro_ret.
Qed.

Lemma cf_swap (lo hi h i j : Z) :
  0 <= lo -> lo <= h + i < hi -> lo <= h + j < hi -> confined lo hi (swap h i j).
Proof.
  intros Hlo Hi Hj. unfold swap.
  apply cf_bind; [ apply cf_read_only, ro_rd | intros x ].
  apply cf_bind; [ apply cf_read_only, ro_rd | intros y ].
  apply cf_bind; [ apply cf_wr; lia | intros _ ].
  apply cf_wr; lia.
Qed.

Lemma half_above (i x : Z) : 0 <= i -> above i x -> i <= (x - 1) / 2 <= x.
Proof.
  intros Hi Ha.
  pose proof (Z.div_mod (x - 1) 2 ltac:(lia)).
  pose proof (Z.mod_pos_bound (x - 1) 2 ltac:(lia)). arith.
Qed.

Lemma cf_sift_down_min_loop (fuel : nat) (h r : Z) :
  0 <= h -> r < 2 ^ 60 ->
  forall i, 0 <= i < 2 ^ 60 ->
            confined (h + i) (h + r + 1) (sift_down_min_loop fuel h i r).
Proof.
  intros Hh Hr. induction fuel as [| fuel IH]; intros i Hi; cbn [sift_down_min_loop].
  { apply cf_read_only, ro_diverge. }
  rewrite left_small by lia.
  destruct (Z.leb_spec (2 * i + 1) r) as [Hc | Hleaf]; [ | apply cf_ret ].
  apply (cf_bind_post _ _ (fun mp => above i (snd mp) /\ snd mp <= r)).
  { apply cf_read_only, ro_min_child_or_gchild. }
  { intros m [b x] m' E. apply (min_child_or_gchild_post h i r Hi m m' b x E Hc). }
  intros [b x] [Ax Hx]. cbn [snd] in *.
  pose proof (half_above i x ltac:(lia) Ax) as Hp.
  assert (Hix : i <= x) by lia.
  destruct (child i x).
  - apply cf_bind; [ apply cf_read_only, ro_lt_at | intros c ].
    destruct c; [ apply cf_swap; lia | apply cf_ret ].
  - apply cf_bind; [ apply cf_read_only, ro_lt_at | intros c ].
    destruct c; [ | apply cf_ret ].
    apply cf_bind; [ apply cf_swap; lia | intros _ ].
    apply cf_bind; [ apply cf_read_only, ro_parent | intros pm ].
    apply cf_bind; [ apply cf_read_only, ro_gt_at | intros c' ].
    apply cf_bind.
    + destruct c'; [ | apply cf_ret ].
      apply (cf_bind_post _ _ (fun p => p = (x - 1) / 2)).
      * apply cf_read_only, ro_parent.
      * intros m p m' E. apply parent_post in E; [ tauto | lia ].
      * intros p ->. apply cf_swap; lia.
    + intros _. apply (cf_weaken (h + x) (h + r + 1)); try lia.
      apply IH. lia.
Qed.

Lemma cf_sift_down_max_loop (fuel : nat) (h r : Z) :
  0 <= h -> r < 2 ^ 60 ->
  forall i, 0 <= i < 2 ^ 60 ->
            confined (h + i) (h + r + 1) (sift_down_max_loop fuel h i r).
Proof.
  intros Hh Hr. induction fuel as [| fuel IH]; intros i Hi; cbn [sift_down_max_loop].
  { apply cf_read_only, ro_diverge. }
  rewrite left_small by lia.
  destruct (Z.leb_spec (2 * i + 1) r) as [Hc | Hleaf]; [ | apply cf_ret ].
  apply (cf_bind_post _ _ (fun mp => above i (snd mp) /\ snd mp <= r)).
  { apply cf_read_only, ro_max_child_or_gchild. }
  { intros m [b x] m' E. apply (max_child_or_gchild_post h i r Hi m m' b x E Hc). }
  intros [b x] [Ax Hx]. cbn [snd] in *.
  pose proof (half_above i x ltac:(lia) Ax) as Hp.
  assert (Hix : i <= x) by lia.
  destruct (child i x).
  - apply cf_bind; [ apply cf_read_only, ro_gt_at | intros c ].
    destruct c; [ apply cf_swap; lia | apply cf_ret ].
  - apply cf_bind; [ apply cf_read_only, ro_gt_at | intros c ].
    destruct c; [ | apply cf_ret ].
    apply cf_bind; [ apply cf_swap; lia | intros _ ].
    apply cf_bind; [ apply cf_read_only, ro_parent | intros pm ].
    apply cf_bind; [ apply cf_read_only, ro_lt_at | intros c' ].
    apply cf_bind.
    + destruct c'; [ | apply cf_ret ].
      apply (cf_bind_post _ _ (fun p => p = (x - 1) / 2)).
      * apply cf_read_only, ro_parent.
      * intros m p m' E. apply parent_post in E; [ tauto | lia ].
      * intros p ->. apply cf_swap; lia.
    + intros _. apply (cf_weaken (h + x) (h + r + 1)); try lia.
      apply IH. lia.
Qed.

Lemma cf_sift_down (h i r : Z) :
  0 <= h -> 0 <= i < 2 ^ 60 -> r < 2 ^ 60 ->
  confined (h + i) (h + r + 1) (mmheap_sift_down h i r).
Proof.
  intros Hh Hi Hr. unfold mmheap_sift_down, mmheap_sift_down_min, mmheap_sift_down_max.
  destruct (min_level i);
    [ apply cf_sift_down_min_loop | apply cf_sift_down_max_loop ]; auto.
Qed.

Lemma gparent_below (i : Z) : 2 < i -> 0 <= ((i - 1) / 2 - 1) / 2 < i.
Proof.
  intros Hi.
  pose proof (Z.div_mod (i - 1) 2 ltac:(lia)).
  pose proof (Z.mod_pos_bound (i - 1) 2 ltac:(lia)).
  pose proof (Z.div_mod ((i - 1) / 2 - 1) 2 ltac:(lia)).
  pose proof (Z.mod_pos_bound ((i - 1) / 2 - 1) 2 ltac:(lia)). lia.
Qed.

Lemma parent_below (i : Z) : 0 < i -> 0 <= (i - 1) / 2 < i.
Proof.
  intros Hi.
  pose proof (Z.div_mod (i - 1) 2 ltac:(lia)).
  pose proof (Z.mod_pos_bound (i - 1) 2 ltac:(lia)). lia.
Qed.

Lemma cf_bubble_up_min_loop (fuel : nat) (h : Z) :
  0 <= h ->
  forall i, 0 <= i < 2 ^ 62 -> confined h (h + i + 1) (bubble_up_min_loop fuel h i).
Proof.
  intros Hh. induction fuel as [| fuel IH]; intros i Hi; cbn [bubble_up_min_loop].
  { apply cf_read_only, ro_diverge. }
  destruct (has_gparent i); [ | apply cf_ret ].
  apply cf_bind; [ apply cf_read_only, ro_gparent | intros g ].
  apply cf_bind; [ apply cf_read_only, ro_lt_at | intros c ].
  destruct c; [ | apply cf_ret ].
  apply (cf_bind_post _ _ (fun g1 => 2 < i /\ g1 = ((i - 1) / 2 - 1) / 2)).
  { apply cf_read_only, ro_gparent. }
  { intros m g1 m' E. apply gparent_post in E; [ exact E | lia ]. }
  intros g1 [Hi2 ->]. pose proof (gparent_below i Hi2) as Hg.
  apply cf_bind; [ apply cf_swap; lia | intros _ ].
  apply (cf_bind_post _ _ (fun g2 => g2 = ((i - 1) / 2 - 1) / 2)).
  { apply cf_read_only, ro_gparent. }
  { intros m g2 m' E. apply gparent_post in E; [ tauto | lia ]. }
  intros g2 ->.
  apply (cf_weaken h (h + ((i - 1) / 2 - 1) / 2 + 1)); try lia.
  apply IH. lia.
Qed.

Lemma cf_bubble_up_max_loop (fuel : nat) (h : Z) :
  0 <= h ->
  forall i, 0 <= i < 2 ^ 31 -> confined h (h + i + 1) (bubble_up_max_loop fuel h i).
Proof.
  intros Hh. induction fuel as [| fuel IH]; intros i Hi; cbn [bubble_up_max_loop].
  { apply cf_read_only, ro_diverge. }
  rewrite (wrap_small i) by lia.
  destruct (has_gparent i); [ | apply cf_ret ].
  apply cf_bind; [ apply cf_read_only, ro_gparent | intros g ].
  apply cf_bind; [ apply cf_read_only, ro_gt_at | intros c ].
  destruct c; [ | apply cf_ret ].
  apply (cf_bind_post _ _ (fun g1 => 2 < i /\ g1 = ((i - 1) / 2 - 1) / 2)).
  { apply cf_read_only, ro_gparent. }
  { intros m g1 m' E. apply gparent_post in E; [ exact E | lia ]. }
  intros g1 [Hi2 ->]. pose proof (gparent_below i Hi2) as Hg.
  apply cf_bind; [ apply cf_swap; lia | intros _ ].
  apply (cf_bind_post _ _ (fun g2 => g2 = ((i - 1) / 2 - 1) / 2)).
  { apply cf_read_only, ro_gparent. }
  { intros m g2 m' E. apply gparent_post in E; [ tauto | lia ]. }
  intros g2 ->. rewrite to_int_small by lia.
  apply (cf_weaken h (h + ((i - 1) / 2 - 1) / 2 + 1)); try lia.
  apply IH. lia.
Qed.

Lemma cf_bubble_up (h i : Z) :
  0 <= h -> 0 <= i < 2 ^ 31 -> confined h (h + i + 1) (bubble_up h i).
Proof.
  intros Hh Hi. unfold bubble_up, bubble_up_min, bubble_up_max.
  rewrite (wrap_small i) by lia.
  assert (Step : forall (test : Z -> M mem bool) (up : Z -> M mem unit) (stay : M mem unit),
             (forall p, read_only (test p)) ->
             (forall p, 0 <= p < i -> confined h (h + i + 1) (up p)) ->
             confined h (h + i + 1) stay ->
             confined h (h + i + 1)
               (c <- and_then (has_parent i) (p <- parent i ;; test p) ;;
                if c then
                  p <- parent i ;; swap h i p ;; p' <- parent i ;; up p'
                else stay)).
  { intros test up stay Ht Hup Hstay.
    apply cf_bind.
    { apply cf_read_only. unfold and_then. destruct (has_parent i); [ | apply ro_ret ].
      apply ro_bind; [ apply ro_parent | intros p; apply Ht ]. }
    intros c. destruct c; [ | exact Hstay ].
    apply (cf_bind_post _ _ (fun p => 0 < i /\ p = (i - 1) / 2)).
    { apply cf_read_only, ro_parent. }
    { intros m p m' E. apply parent_post in E; [ exact E | lia ]. }
    intros p [Hpos ->]. pose proof (parent_below i Hpos) as Hp.
    apply cf_bind; [ apply cf_swap; lia | intros _ ].
    apply (cf_bind_post _ _ (fun p => p = (i - 1) / 2)).
    { apply cf_read_only, ro_parent. }
    { intros m p m' E. apply parent_post in E; [ tauto | lia ]. }
    intros p ->. apply Hup. lia. }
  destruct (min_level i).
  - apply (Step (fun p => gt_at h i p)
             (fun p' => bubble_up_max_loop LOOP_FUEL h (to_int p'))
             (bubble_up_min_loop LOOP_FUEL h i)).
    + intros p. apply ro_gt_at.
    + intros p Hp. rewrite to_int_small by lia.
      apply (cf_weaken h (h + p + 1)); try lia.
      apply cf_bubble_up_max_loop; lia.
    + apply cf_bubble_up_min_loop; lia.
  - apply (Step (fun p => lt_at h i p)
             (fun p' => bubble_up_min_loop LOOP_FUEL h p')
             (bubble_up_max_loop LOOP_FUEL h i)).
    + intros p. apply ro_lt_at.
    + intros p Hp.
      apply (cf_weaken h (h + p + 1)); try lia.
      apply cf_bubble_up_min_loop; lia.
    + apply cf_bubble_up_max_loop; lia.
Qed.

Lemma cf_mm_heap_add (v h n cap : Z) :
  0 <= h -> 0 <= n < 2 ^ 31 -> confined h (h + n + 1) (mm_heap_add v h n cap).
Proof.
  intros Hh Hn. unfold mm_heap_add.
  destruct (n <? cap); [ | apply cf_read_only, ro_throw ].
  apply cf_bind; [ apply cf_wr; lia | intros _ ].
  rewrite (wrap_small (n + 1)) by lia.
  replace (n + 1 - 1) with n by lia.
  rewrite (wrap_small n) by lia. rewrite to_int_small by lia.
  apply cf_bind; [ apply cf_bubble_up; lia | intros _; apply cf_ret ].
Qed.

Lemma cf_mm_heap_ripple_add (v h n cap : Z) :
  0 <= h -> 0 <= n <= cap -> 1 <= cap < 2 ^ 31 ->
  confined h (h + cap) (mm_heap_ripple_add v h n cap).
Proof.
  intros Hh Hn Hcap. unfold mm_heap_ripple_add. cbv zeta.
  destruct (Z.eqb_spec n cap) as [-> | Hne]; cbn [negb].
  - apply (cf_bind_post _ _ (fun m => 0 <= m <= cap - 1)).
    { apply cf_read_only. destruct (cap >? 1); [ | apply ro_ret ].
      apply ro_bind; [ apply ro_max_child | intros mc; apply ro_ret ]. }
    { intros m x m' E.
      destruct (Z.gtb_spec cap 1) as [Hbig | Hone].
      - apply bind_ret_inv in E. destruct E as [[b c] [m1 [Ea Eb]]].
        apply ret_inv in Eb. destruct Eb as [<- _]. cbn [snd].
        rewrite (wrap_small (cap - 1)) in Ea by lia.
        destruct (max_child_post h 0 (cap - 1) ltac:(lia) _ _ _ _ Ea) as [Hb Hx].
        assert (b = true) by (apply Hb; lia). subst b.
        destruct (Hx eq_refl) as [Cx Hxr]. arith.
      - apply ret_inv in E. destruct E as [<- _]. lia. }
    intros m Hm.
    apply cf_bind; [ apply cf_read_only, ro_rd | intros max_value ].
    apply cf_bind; [ apply cf_wr; lia | intros _ ].
    apply cf_bind; [ | intros _; apply cf_ret ].
    destruct (cap >? 1); [ | apply cf_ret ].
    apply cf_bind.
    { apply cf_read_only.
      apply ro_bind; [ apply ro_rd | intros h0; apply ro_ret ]. }
    intros c.
    apply cf_bind; [ destruct c; [ apply cf_swap; lia | apply cf_ret ] | intros _ ].
    rewrite (wrap_small (cap - 1)) by lia.
    apply (cf_weaken (h + m) (h + (cap - 1) + 1)); try lia.
    apply cf_sift_down; lia.
  - apply cf_bind; [ | intros c; apply cf_ret ].
    apply (cf_weaken h (h + n + 1)); try lia.
    apply cf_mm_heap_add; lia.
Qed.

Lemma cf_make_mm_heap_loop (fuel : nat) (h size : Z) :
  0 <= h -> 0 <= size < 2 ^ 60 ->
  forall current, current < 2 ^ 31 -> current < size ->
                  confined h (h + size) (make_mm_heap_loop fuel h current size).
Proof.
  intros Hh Hs. induction fuel as [| fuel IH]; intros current Hc Hcs;
    cbn [make_mm_heap_loop].
  { apply cf_read_only, ro_diverge. }
  rewrite Z.geb_leb.
  destruct (Z.leb_spec 0 current) as [Hpos | Hneg]; [ | apply cf_ret ].
  rewrite (wrap_small current), (wrap_small (size - 1)) by lia.
  apply cf_bind.
  - apply (cf_weaken (h + current) (h + (size - 1) + 1)); try lia.
    apply cf_sift_down; lia.
  - intros _. rewrite to_int_small by lia. apply IH; lia.
Qed.

(** X23: the heap primitives keep the size of the buffer and write only into
    the slots of the heap they are given, whatever the buffer holds and
    whether or not they fail: sift-down from [i] with right index [r]
    stays within [i .. r], bubble-up from [i] within [0 .. i], an add to
    [n] elements within [0 .. n], a ripple-add within the capacity, a
    make-heap within the size, and a remove-min from two or more elements
    within the heap. *)
Theorem heap_writes_confined (h : Z) :
  0 <= h ->
  (forall i r, 0 <= i < 2 ^ 60 -> r < 2 ^ 60 ->
               confined (h + i) (h + r + 1) (mmheap_sift_down h i r)) /\
  (forall i, 0 <= i < 2 ^ 31 -> confined h (h + i + 1) (bubble_up h i)) /\
  (forall v n cap, 0 <= n < 2 ^ 31 -> confined h (h + n + 1) (mm_heap_add v h n cap)) /\
  (forall v n cap, 0 <= n <= cap -> 1 <= cap < 2 ^ 31 ->
                   confined h (h + cap) (mm_heap_ripple_add v h n cap)) /\
  (forall size, 0 <= size <= 2 ^ 32 -> confined h (h + size) (make_mm_heap h size)) /\
  (forall n, 2 <= n < 2 ^ 60 -> confined h (h + n) (mm_heap_remove_min h n)).
Proof.
  intros Hh.
  split; [ intros i r Hi Hr; apply cf_sift_down; auto | ].
  split; [ intros i Hi; apply cf_bubble_up; auto | ].
  split; [ intros v n cap Hn; apply cf_mm_heap_add; auto | ].
  split; [ intros v n cap Hn Hcap; apply cf_mm_heap_ripple_add; auto | ].
  split.
  - intros size Hs. unfold make_mm_heap.
    destruct (Z.gtb_spec size 1) as [Hbig | Hsmall]; [ | apply cf_ret ].
    rewrite (wrap_small (size - 1)) by lia.
    apply (cf_bind_post _ _ (fun p => p = (size - 1 - 1) / 2)).
    { apply cf_read_only, ro_parent. }
    { intros m p m' E. apply parent_post in E; [ tauto | lia ]. }
    intros p ->. pose proof (parent_below (size - 1) ltac:(lia)) as Hp.
    assert (Hp31 : (size - 1 - 1) / 2 < 2 ^ 31).
    { apply Z.div_lt_upper_bound; lia. }
    rewrite to_int_small by lia.
    intros m r m' E. eapply (cf_make_mm_heap_loop _ h size); eauto; lia.
  - intros n Hn. unfold mm_heap_remove_min.
    destruct (Z.eqb_spec n 0) as [Hz | _]; [ lia | ].
    apply cf_bind; [ apply cf_read_only, ro_rd | intros value ].
    rewrite (wrap_small (n - 1)) by lia.
    apply cf_bind; [ apply cf_swap; lia | intros _ ].
    rewrite (wrap_small (n - 1 - 1)) by lia.
    apply cf_bind; [ | intros _; apply cf_ret ].
    apply (cf_weaken (h + 0) (h + (n - 1 - 1) + 1)); try lia.
    apply cf_sift_down; lia.
Qed.

Lemma heap_writes_confined_witness :
  (forall i r, 0 <= i < 2 ^ 60 -> r < 2 ^ 60 ->
               confined (3 + i) (3 + r + 1) (mmheap_sift_down 3 i r)) /\
  (forall i, 0 <= i < 2 ^ 31 -> confined 3 (3 + i + 1) (bubble_up 3 i)) /\
  (forall v n cap, 0 <= n < 2 ^ 31 -> confined 3 (3 + n + 1) (mm_heap_add v 3 n cap)) /\
  (forall v n cap, 0 <= n <= cap -> 1 <= cap < 2 ^ 31 ->
                   confined 3 (3 + cap) (mm_heap_ripple_add v 3 n cap)) /\
  (forall size, 0 <= size <= 2 ^ 32 -> confined 3 (3 + size) (make_mm_heap 3 size)) /\
  (forall n, 2 <= n < 2 ^ 60 -> confined 3 (3 + n) (mm_heap_remove_min 3 n)).
Proof.
  apply (heap_writes_confined 3). lia.
Defined.

(** * Insertion *)

(** ** Counting after the insertion *)

Lemma final_partition_unique (h : HeapArray) (t : Z) :
  0 < count h < 2 ^ 52 -> 0 <= t ->
  t * t < count h <= t * t + 2 * t + 1 ->
  _final_partition h = t.
Proof.
  intros Hc Ht Hb. pose proof (final_partition_spec h Hc) as [B S].
  destruct (Z.lt_trichotomy (_final_partition h) t) as [Hlt | [E | Hgt]]; [ | exact E | ].
  - pose proof (next_square_le (_final_partition h) t ltac:(lia)). lia.
  - pose proof (next_square_le t (_final_partition h) ltac:(lia)). lia.
Qed.

Lemma count_in_partition_beyond (h : HeapArray) (p : Z) :
  0 <= count h < 2 ^ 52 -> p = _final_partition h + 1 -> count h = p * p ->
  _count_in_partition h p = 0.
Proof.
  intros Hc Hp Hn. unfold _count_in_partition. rewrite Z.geb_leb.
  destruct (Z.leb_spec (_final_partition h) p) as [_ | Hbad]; [ | lia ].
  pose proof (final_partition_bounds h Hc).
  rewrite (wrap_small (p * p)) by lia.
  rewrite Hn. replace (p * p - p * p) with 0 by lia. reflexivity.
Qed.

(** ** Lifting a step on one partition to the whole run *)

Lemma perm_within_cons (m m' : mem) (s c n x e : Z) :
  0 <= s -> 0 <= c -> s + c <= n -> len m' = len m ->
  Permutation (x :: live m s c) (e :: live m' s c) ->
  (forall q, 0 <= q -> q < s \/ s + c <= q -> get m' q = get m q) ->
  Permutation (x :: live m 0 n) (e :: live m' 0 n).
Proof.
  intros Hs Hc Hn Hl P F.
  replace n with (s + (c + (n - s - c))) by lia.
  rewrite !(live_split _ 0 s) by lia.
  rewrite !(live_split _ (0 + s) c) by lia.
  replace (0 + s) with s by lia.
  rewrite (live_ext m m' 0 s) by (auto; lia || (intros k Hk; apply F; lia)).
  rewrite (live_ext m m' (s + c)) by (auto; lia || (intros k Hk; apply F; lia)).
  eapply perm_trans; [ apply Permutation_middle | ].
  eapply perm_trans; [ | apply Permutation_sym, Permutation_middle ].
  apply Permutation_app_head.
  change (Permutation ((x :: live m s c) ++ live m (s + c) (n - s - c))
                      ((e :: live m' s c) ++ live m (s + c) (n - s - c))).
  apply Permutation_app_tail. exact P.
Qed.

Lemma perm_within_grow (m m' : mem) (s c n x : Z) :
  0 <= s -> 0 <= c -> s + c = n -> len m' = len m ->
  Permutation (x :: live m s c) (live m' s (c + 1)) ->
  (forall q, 0 <= q -> q < s \/ s + c + 1 <= q -> get m' q = get m q) ->
  Permutation (x :: live m 0 n) (live m' 0 (n + 1)).
Proof.
  intros Hs Hc Hn Hl P F.
  replace n with (s + c) by lia. replace (s + c + 1) with (s + (c + 1)) in * by lia.
  rewrite !(live_split _ 0 s) by lia.
  replace (0 + s) with s by lia.
  rewrite (live_ext m m' 0 s) by (auto; lia || (intros k Hk; apply F; lia)).
  eapply perm_trans; [ apply Permutation_middle | ].
  apply Permutation_app_head. exact P.
Qed.

Lemma mm_heap_add_room (m : mem) (h n cap v : Z) :
  0 <= h -> 0 <= n < cap -> n < 2 ^ 31 -> h + n < len m ->
  mm_heap (view m h) n ->
  exists m', mm_heap_ripple_add v h n cap m = (Ret (n + 1, (false, 0)), m') /\
             len m' = len m /\
             mm_heap (view m' h) (n + 1) /\
             Permutation (v :: live m h n) (live m' h (n + 1)) /\
             forall q, 0 <= q -> q < h \/ h + n + 1 <= q -> get m' q = get m q.
Proof.
  intros Hh Hn Hint Hb Heap.
  destruct (mm_heap_add_ok m h n (n + 1) v) as [m' [E [Hl [Hheap Hperm]]]];
    auto; try lia.
  assert (E' : mm_heap_add v h n cap m = (Ret (n + 1), m')).
  { rewrite <- E. unfold mm_heap_add.
    destruct (Z.ltb_spec n cap) as [_ | Hbad]; [ | lia ].
    destruct (Z.ltb_spec n (n + 1)) as [_ | Hbad]; [ | lia ]. reflexivity. }
  exists m'. split.
  { unfold mm_heap_ripple_add. cbv zeta.
    destruct (Z.eqb_spec n cap) as [Hbad | _]; [ lia | ]. cbn [negb].
    rewrite (run_bind _ _ _ _ _ E'). reflexivity. }
  split; [ exact Hl | ]. split; [ exact Hheap | ]. split; [ exact Hperm | ].
  exact (proj2 (cf_mm_heap_add v h n cap Hh ltac:(lia) _ _ _ E')).
Qed.

Lemma ripple_add_evicts (m : mem) (h cap v : Z) :
  0 <= h -> 1 <= cap < 2 ^ 31 -> h + cap <= len m ->
  mm_heap (view m h) cap ->
  exists evicted m',
    mm_heap_ripple_add v h cap cap m = (Ret (cap, (true, evicted)), m') /\
    len m' = len m /\
    mm_heap (view m' h) cap /\
    Permutation (v :: live m h cap) (evicted :: live m' h cap) /\
    forall q, 0 <= q -> q < h \/ h + cap <= q -> get m' q = get m q.
Proof.
  intros Hh Hcap Hb Heap.
  destruct (ripple_add_full m h cap v) as [e [m' [E [_ [Hheap [Hperm Hl]]]]]];
    auto; try lia.
  exists e, m'. split; [ exact E | ]. split; [ exact Hl | ].
  split; [ exact Hheap | ]. split; [ exact Hperm | ].
  exact (proj2 (cf_mm_heap_ripple_add v h cap cap Hh ltac:(lia) ltac:(lia) _ _ _ E)).
Qed.

(** ** Choosing the partition *)

Section ChoosePartition.

Variable h : HeapArray.
Hypothesis Hc : 0 < count h < 2 ^ 52.
Hypothesis Hb : count h <= len (a h).
Hypothesis Heaps : forall p, 0 <= p <= _final_partition h ->
  mm_heap (view (a h) (_partition_start p)) (_count_in_partition h p).

Lemma max_in_partition_returns (q : Z) :
  0 <= q <= _final_partition h -> exists x, _max_in_partition q h = (Ret x, h).
Proof.
  intros Hq.
  destruct (partition_inside h q ltac:(lia) Hq) as [Bq [Es [Cq [Iq [Nq _]]]]].
  specialize (Nq ltac:(lia)).
  pose proof (Z.square_nonneg q) as Sq. rewrite <- Es in Sq, Iq.
  destruct (mm_heap_max_ok (a h) (_partition_start q) (_count_in_partition h q))
    as [x [Ex _]]; try lia; try (apply Heaps; lia).
  exists x. unfold _max_in_partition.
  rewrite (run_bind _ _ _ _ _
             (eq_refl : gets (fun h0 => _count_in_partition h0 q) h
                        = (Ret (_count_in_partition h q), h))).
  unfold on_buffer. rewrite Ex, set_a_same. reflexivity.
Qed.

Lemma range_in_partition_returns (q : Z) :
  0 <= q <= _final_partition h -> exists range, _range_in_partition q h = (Ret range, h).
Proof.
  intros Hq.
  destruct (partition_inside h q ltac:(lia) Hq) as [Bq [Es [Cq [Iq [Nq _]]]]].
  specialize (Nq ltac:(lia)).
  pose proof (Z.square_nonneg q) as Sq. rewrite <- Es in Sq, Iq.
  destruct (mm_heap_max_ok (a h) (_partition_start q) (_count_in_partition h q))
    as [x [Ex _]]; try lia; try (apply Heaps; lia).
  unfold _range_in_partition.
  assert (E1 : on_buffer (rd (_partition_start q)) h
               = (Ret (get (a h) (_partition_start q)), h)).
  { unfold on_buffer. rewrite rd_ok by lia. rewrite set_a_same. reflexivity. }
  rewrite (run_bind _ _ _ _ _ E1).
  rewrite (run_bind _ _ _ _ _
             (eq_refl : gets (fun h0 => _count_in_partition h0 q) h
                        = (Ret (_count_in_partition h q), h))).
  assert (E2 : on_buffer (mm_heap_max (_partition_start q) (_count_in_partition h q)) h
               = (Ret x, h)).
  { unfold on_buffer. rewrite Ex, set_a_same. reflexivity. }
  rewrite (run_bind _ _ _ _ _ E2). eexists. reflexivity.
Qed.

Lemma partition_matches_returns (value mid : Z) (range : Z * Z) :
  0 <= mid <= _final_partition h ->
  exists b, partition_matches value true mid range h = (Ret b, h).
Proof.
  intros Hm. unfold partition_matches.
  destruct ((fst range <=? value) && (value <=? snd range));
    [ eexists; reflexivity | ].
  assert (Tail : forall c : bool, exists b,
             (if c then ret true
              else if (mid =? 0) && (value <=? snd range) then ret true
                   else fp <- gets _final_partition ;;
                        ret ((mid =? fp) && (fst range <=? value))) h = (Ret b, h)).
  { intros c. destruct c; [ eexists; reflexivity | ].
    destruct ((mid =? 0) && (value <=? snd range)); eexists; reflexivity. }
  destruct ((mid >? 0) && (value <=? snd range)) eqn:C; cbn [and_then].
  - apply andb_true_iff in C. destruct C as [Hpos _].
    apply Z.gtb_lt in Hpos.
    rewrite (wrap_small (mid - 1))
      by (pose proof (final_partition_bounds h ltac:(lia)); lia).
    destruct (max_in_partition_returns (mid - 1) ltac:(lia)) as [mx Emx].
    assert (E : (mx0 <- _max_in_partition (mid - 1) ;; ret (mx0 <=? value)) h
                = (Ret (mx <=? value), h))
      by (rewrite (run_bind _ _ _ _ _ Emx); reflexivity).
    rewrite (run_bind _ _ _ _ _ E). exact (Tail (mx <=? value)).
  - rewrite (run_bind _ _ _ _ _ (run_ret _ _)). exact (Tail false).
Qed.

Lemma find_partition_loop_in_range (value : Z) (fuel : nat) :
  forall left right,
    0 <= left -> right <= _final_partition h ->
    Z.max 0 (right - left + 1) < 2 ^ Z.of_nat fuel ->
    exists p, find_partition_loop (S fuel) value true left right h = (Ret p, h) /\
              0 <= p <= _final_partition h.
Proof.
  pose proof (final_partition_bounds h ltac:(lia)) as Hfp.
  induction fuel as [| fuel IH]; intros left right Hl Hr Hf.
  - cbn in Hf. cbn [find_partition_loop].
    destruct (Z.leb_spec left right) as [Hle | _]; [ lia | ].
    exists 0. split; [ reflexivity | lia ].
  - rewrite Nat2Z.inj_succ, Z.pow_succ_r in Hf by lia.
    remember (S fuel) as fuel' eqn:Ef.
    cbn [find_partition_loop]. subst fuel'.
    destruct (Z.leb_spec left right) as [Hle | _];
      [ | exists 0; split; [ reflexivity | lia ] ].
    rewrite (wrap_small (left + right)) by lia.
    pose proof (half_between left right Hle) as [Hmid Hhalf].
    set (mid := (left + right) / 2) in *.
    destruct (range_in_partition_returns mid ltac:(lia)) as [range Er].
    rewrite (run_bind _ _ _ _ _ Er).
    destruct (partition_matches_returns value mid range ltac:(lia)) as [b Eb].
    rewrite (run_bind _ _ _ _ _ Eb).
    destruct b; [ exists mid; split; [ reflexivity | lia ] | ].
    destruct (snd range <? value).
    + rewrite (wrap_small (mid + 1)) by lia. apply IH; lia.
    + destruct (Z.eqb_spec mid 0) as [Ez | Hnz];
        [ exists 0; split; [ reflexivity | lia ] | ].
      rewrite (wrap_small (mid - 1)) by lia. apply IH; lia.
Qed.

End ChoosePartition.

Lemma find_partition_in_range (h : HeapArray) (value : Z) :
  0 <= count h < 2 ^ 52 -> count h <= len (a h) ->
  (forall p, 0 <= p <= _final_partition h ->
     mm_heap (view (a h) (_partition_start p)) (_count_in_partition h p)) ->
  exists p, _find_partition value true h = (Ret p, h) /\
            0 <= p <= _final_partition h.
Proof.
  intros Hc Hb Heaps. unfold _find_partition.
  rewrite (run_bind _ _ _ _ _ (eq_refl : gets count h = (Ret (count h), h))).
  pose proof (final_partition_bounds h Hc) as Hfp.
  destruct (Z.gtb_spec (count h) 0) as [Hpos | Hz].
  - rewrite (run_bind _ _ _ _ _
               (eq_refl : gets _final_partition h = (Ret (_final_partition h), h))).
    destruct (partition_inside h (_final_partition h) Hc ltac:(lia)) as [Bfp _].
    apply (find_partition_loop_in_range h ltac:(lia) Hb Heaps value 65); lia.
  - exists 0. split; [ reflexivity | lia ].
Qed.

(** ** Rippling through the partitions *)

Section InsertLoop.

Variable h : HeapArray.
Hypothesis Hc : 0 <= count h < 2 ^ 30.

Lemma partition_fill (p : Z) :
  0 <= p <= _final_partition h + 1 ->
  (p = _final_partition h + 1 -> count h = p * p) ->
  p < 2 ^ 27 /\
  _partition_start p = p * p /\ _partition_size p = 2 * p + 1 /\
  0 <= _count_in_partition h p <= 2 * p + 1 /\
  p * p + _count_in_partition h p <= count h /\
  (_count_in_partition h p < 2 * p + 1 -> p * p + _count_in_partition h p = count h) /\
  (_count_in_partition h p = 2 * p + 1 ->
   p <= _final_partition h /\
   (p = _final_partition h -> count h = (p + 1) * (p + 1))).
Proof.
  intros Hp Hlast.
  pose proof (final_partition_bounds h ltac:(lia)) as Hfp.
  destruct (partition_inside h (_final_partition h) ltac:(lia) ltac:(lia))
    as [Bfp [_ [Cf [If [Nf _]]]]].
  rewrite partition_start_small, partition_size_small by lia.
  split; [ lia | ]. split; [ reflexivity | ]. split; [ reflexivity | ].
  destruct (Z.eq_dec p (_final_partition h + 1)) as [E | Hne].
  - rewrite (count_in_partition_beyond h p) by (auto; lia).
    specialize (Hlast E). lia.
  - destruct (partition_inside h p ltac:(lia) ltac:(lia)) as [_ [_ [Cp [Ip [Np Fp]]]]].
    split; [ exact Cp | ]. split; [ exact Ip | ].
    destruct (Z.eq_dec p (_final_partition h)) as [E | Hlt].
    + destruct (Z.eq_dec (count h) 0) as [Ez | Enz].
      * split; [ lia | ]. intros Hfull. lia.
      * pose proof (count_in_partition_final h ltac:(lia)) as Ef. rewrite <- E in Ef.
        split; [ lia | ]. intros Hfull. split; [ lia | ]. intros _. lia.
    + rewrite Fp by lia. split; [ lia | ]. intros _. split; lia.
Qed.

Lemma partitions_apart (p q : Z) :
  0 <= p -> 0 <= q <= _final_partition h -> q <> p ->
  forall k, 0 <= k < _count_in_partition h q ->
            _partition_start q + k < p * p \/
            p * p + 2 * p + 1 <= _partition_start q + k.
Proof.
  intros Hp Hq Hne k Hk.
  destruct (partition_inside h q ltac:(lia) Hq) as [Bq [Esq [Cq _]]].
  rewrite Esq.
  destruct (Z_lt_le_dec q p) as [Hlt | Hge].
  - pose proof (next_square_le q p ltac:(lia)). lia.
  - pose proof (next_square_le p q ltac:(lia)). lia.
Qed.

Lemma insert_loop_ok (fuel : nat) :
  forall (p x : Z) (m : mem),
    count h < len m ->
    0 <= p <= _final_partition h + 1 ->
    (p = _final_partition h + 1 -> count h = p * p) ->
    _final_partition h + 1 - p < Z.of_nat fuel ->
    (forall q, 0 <= q <= _final_partition h ->
       mm_heap (view m (_partition_start q)) (_count_in_partition h q)) ->
    exists m' t,
      insert_loop fuel x p (set_a h m) = (Ret tt, set_a h m') /\
      len m' = len m /\
      0 <= t <= _final_partition h + 1 /\
      0 <= _count_in_partition h t < 2 * t + 1 /\
      t * t + _count_in_partition h t = count h /\
      (forall q, 0 <= q <= _final_partition h -> q <> t ->
         mm_heap (view m' (_partition_start q)) (_count_in_partition h q)) /\
      mm_heap (view m' (t * t)) (_count_in_partition h t + 1) /\
      Permutation (x :: live m 0 (count h)) (live m' 0 (count h + 1)).
Proof.
  induction fuel as [| fuel IH]; intros p x m Hb Hp Hlast Hf Heaps.
  { cbn in Hf. lia. }
  cbn [insert_loop].
  rewrite (run_bind _ _ _ _ _
             (eq_refl : gets (fun h0 => _count_in_partition h0 p) (set_a h m)
                        = (Ret (_count_in_partition h p), set_a h m))).
  destruct (partition_fill p Hp Hlast) as [Bp [Es [Ez [Cp [Ip [Open Full]]]]]].
  rewrite Es, Ez.
  pose proof (Z.square_nonneg p) as Sq.
  assert (Hheap : mm_heap (view m (p * p)) (_count_in_partition h p)).
  { destruct (Z.eq_dec p (_final_partition h + 1)) as [E | Hne].
    - apply mm_heap_small.
      rewrite (count_in_partition_beyond h p) by (auto; lia). lia.
    - rewrite <- Es. apply Heaps. lia. }
  destruct (Z.eq_dec (_count_in_partition h p) (2 * p + 1)) as [Hfull | Hopen].
  - (* the partition is full: the largest value moves on *)
    destruct (Full Hfull) as [Hpf Hnext].
    rewrite Hfull in *.
    destruct (ripple_add_evicts m (p * p) (2 * p + 1) x)
      as [e [m1 [E1 [Hl1 [Heap1 [Perm1 Frame1]]]]]]; try lia; auto.
    assert (Eb : on_buffer (mm_heap_ripple_add x (p * p) (2 * p + 1) (2 * p + 1))
                   (set_a h m)
                 = (Ret (2 * p + 1, (true, e)), set_a h m1))
      by (unfold on_buffer; cbn [a set_a]; rewrite E1; reflexivity).
    rewrite (run_bind _ _ _ _ _ Eb). cbn [fst snd negb].
    rewrite (wrap_small (p + 1)) by lia.
    destruct (IH (p + 1) e m1) as [m' [t [E' [Hl' [Ht [Ct [St [Others [Mine Perm']]]]]]]]];
      try lia.
    { intros q Hq.
      destruct (Z.eq_dec q p) as [-> | Hne].
      - rewrite Es, Hfull. exact Heap1.
      - destruct (partition_inside h q ltac:(lia) Hq) as [_ [Esq [Cq _]]].
        apply mm_local_heap.
        apply (mm_local_ext (view m (_partition_start q))).
        + intros k Hk. unfold view. apply Frame1; [ rewrite Esq; nia | ].
          pose proof (partitions_apart p q ltac:(lia) Hq Hne k Hk). lia.
        + apply mm_heap_local, Heaps. exact Hq. }
    exists m', t. split; [ exact E' | ]. split; [ lia | ].
    split; [ exact Ht | ]. split; [ exact Ct | ]. split; [ exact St | ].
    split; [ exact Others | ]. split; [ exact Mine | ].
    eapply perm_trans; [ | exact Perm' ].
    apply (perm_within_cons m m1 (p * p) (2 * p + 1)); auto; lia.
  - (* there is room: the value stays here *)
    specialize (Open ltac:(lia)).
    destruct (mm_heap_add_room m (p * p) (_count_in_partition h p) (2 * p + 1) x)
      as [m' [E1 [Hl1 [Heap1 [Perm1 Frame1]]]]]; try lia; auto.
    assert (Eb : on_buffer (mm_heap_ripple_add x (p * p) (_count_in_partition h p)
                              (2 * p + 1)) (set_a h m)
                 = (Ret (_count_in_partition h p + 1, (false, 0)), set_a h m'))
      by (unfold on_buffer; cbn [a set_a]; rewrite E1; reflexivity).
    rewrite (run_bind _ _ _ _ _ Eb). cbn [fst snd negb].
    exists m', p. split; [ reflexivity | ]. split; [ exact Hl1 | ].
    split; [ lia | ]. split; [ lia | ]. split; [ exact Open | ].
    split; [ | split; [ exact Heap1 | ] ].
    + intros q Hq Hne.
      destruct (partition_inside h q ltac:(lia) Hq) as [_ [Esq [Cq [_ [_ Fq]]]]].
      assert (Hqp : q < p).
      { destruct (Z_lt_le_dec q p) as [Hlt | Hge]; [ exact Hlt | ].
        destruct (partition_inside h p ltac:(lia) ltac:(lia)) as [_ [_ [_ [_ [_ Fp]]]]].
        specialize (Fp ltac:(lia)). lia. }
      apply mm_local_heap.
      apply (mm_local_ext (view m (_partition_start q))).
      * intros k Hk. unfold view. apply Frame1; [ rewrite Esq; nia | ].
        pose proof (partitions_apart p q ltac:(lia) Hq Hne k Hk). lia.
      * apply mm_heap_local, Heaps. exact Hq.
    + apply (perm_within_grow m m' (p * p) (_count_in_partition h p)); auto; lia.
Qed.

End InsertLoop.

(** ** The whole insertion *)

Lemma elements_get (h1 h : HeapArray) (k : Z) :
  elements h1 = elements h -> count h1 = count h -> 0 <= k < count h ->
  get (a h1) k = get (a h) k.
Proof.
  intros E Ec Hk. unfold elements in E. rewrite Ec in E. unfold get.
  rewrite <- (nth_firstn (a h1) (Z.to_nat (count h))) by lia.
  rewrite <- (nth_firstn (a h) (Z.to_nat (count h))) by lia.
  rewrite E. reflexivity.
Qed.

Lemma partition_heaps_same_elements (h1 h : HeapArray) :
  partition_heaps h -> count h < 2 ^ 52 ->
  elements h1 = elements h -> count h1 = count h ->
  len (a h1) = storage h1 -> count h1 <= storage h1 ->
  partition_heaps h1.
Proof.
  intros [Hc [Hl Heaps]] Hb E Ec Hl1 Hs1.
  split; [ lia | ]. split; [ exact Hl1 | ].
  intros p Hp.
  rewrite (final_partition_same h h1 Ec) in Hp.
  rewrite (count_in_partition_same h h1 p Ec).
  destruct (partition_inside h p ltac:(lia) Hp) as [_ [Es [Cp [Ip _]]]].
  pose proof (Z.square_nonneg p) as Sq.
  apply mm_local_heap.
  apply (mm_local_ext (view (a h) (_partition_start p))).
  - intros k Hk. unfold view. apply elements_get; auto. rewrite Es. lia.
  - apply mm_heap_local, Heaps. exact Hp.
Qed.

Lemma insert_room (fresh : nat -> Z) (h : HeapArray) :
  partition_heaps h -> storage h < 2 ^ 30 ->
  (count h = storage h -> fixed h = false) ->
  exists h1,
    (if count h =? storage h
     then f <- gets fixed ;; if f then throw length_error else _grow fresh
     else ret tt) h = (Ret tt, h1) /\
    partition_heaps h1 /\ fixed h1 = fixed h /\ count h1 = count h /\
    count h1 < storage h1 /\ elements h1 = elements h /\
    (storage h1 = storage h \/ storage h1 <= 6 * count h + 4).
Proof.
  intros PH Hs Hfix. pose proof PH as [Hc [Hl Heaps]].
  destruct (Z.eqb_spec (count h) (storage h)) as [Efull | Hroom].
  - specialize (Hfix Efull).
    rewrite (run_bind _ _ _ _ _ (eq_refl : gets fixed h = (Ret (fixed h), h))).
    rewrite Hfix.
    destruct (grow_ok fresh h Hfix ltac:(lia) ltac:(lia) ltac:(lia))
      as [h1 [E [Hgt [_ [Hl1 [Hc1 [Hf1 He1]]]]]]].
    exists h1. split; [ exact E | ].
    split; [ apply (partition_heaps_same_elements h1 h); auto; lia | ].
    split; [ congruence | ]. split; [ exact Hc1 | ]. split; [ lia | ].
    split; [ exact He1 | right; lia ].
  - exists h. split; [ reflexivity | ]. split; [ exact PH | ].
    split; [ reflexivity | ]. split; [ reflexivity | ]. split; [ lia | ].
    split; [ reflexivity | left; reflexivity ].
Qed.

Lemma insert_ok (fresh : nat -> Z) (value : Z) (h : HeapArray) :
  partition_heaps h -> storage h < 2 ^ 30 ->
  (count h = storage h -> fixed h = false) ->
  exists h', insert fresh value h = (Ret tt, h') /\
             count h' = count h + 1 /\ fixed h' = fixed h /\
             partition_heaps h' /\
             Permutation (elements h') (value :: elements h) /\
             (storage h' = storage h \/ storage h' <= 6 * count h + 4).
Proof.
  intros PH Hs Hfix. pose proof PH as [Hc0 _].
  destruct (insert_room fresh h PH Hs Hfix)
    as [h1 [Eroom [PH1 [Hf1 [Hc1 [Hr1 [He1 Hst1]]]]]]].
  destruct PH1 as [Hcs1 [Hl1 Heaps1]].
  assert (Hn : 0 <= count h1 < 2 ^ 30) by lia.
  destruct (find_partition_in_range h1 value ltac:(lia) ltac:(lia) Heaps1)
    as [p [Ep Hp]].
  pose proof (final_partition_bounds h1 ltac:(lia)) as Hfp.
  destruct (insert_loop_ok h1 Hn (2 + length (a h1)) p value (a h1))
    as [m' [t [El [Hl' [Ht [Ct [St [Others [Mine Perm]]]]]]]]]; try lia; auto.
  { unfold len in *. lia. }
  rewrite set_a_same in El.
  set (h' := set_count (set_a h1 m') (count h1 + 1)).
  assert (Eins : insert fresh value h = (Ret tt, h')).
  { unfold insert.
    rewrite (run_bind _ _ _ _ _ (eq_refl : gets count h = (Ret (count h), h))).
    rewrite (run_bind _ _ _ _ _ (eq_refl : gets storage h = (Ret (storage h), h))).
    rewrite (run_bind _ _ _ _ _ Eroom).
    rewrite (run_bind _ _ _ _ _ Ep).
    assert (El2 : (fun h0 => insert_loop (2 + length (a h0)) value p h0) h1
                  = (Ret tt, set_a h1 m')) by exact El.
    rewrite (run_bind _ _ _ _ _ El2).
    unfold modify, h'. cbn [count set_a]. rewrite (wrap_small (count h1 + 1)) by lia.
    reflexivity. }
  exists h'. split; [ exact Eins | ].
  assert (Hc' : count h' = count h1 + 1) by reflexivity.
  assert (Ha' : a h' = m') by reflexivity.
  split; [ lia | ]. split; [ exact Hf1 | ].
  assert (Hfp' : _final_partition h' = t).
  { apply final_partition_unique; rewrite ?Hc'; lia. }
  split; [ | split ].
  - split; [ rewrite Hc'; cbn [storage h' set_count set_a]; lia | ].
    split; [ rewrite Ha'; cbn [storage h' set_count set_a]; lia | ].
    intros q Hq. rewrite Hfp' in Hq. rewrite Ha'.
    destruct (Z.eq_dec q t) as [-> | Hne].
    + rewrite <- Hfp' at 2. rewrite count_in_partition_final by (rewrite Hc'; lia).
      rewrite Hfp', Hc', partition_start_small by lia.
      replace (count h1 + 1 - t * t) with (_count_in_partition h1 t + 1) by lia.
      exact Mine.
    + rewrite count_in_partition_before by (rewrite ?Hfp'; lia).
      assert (Hq1 : q <= _final_partition h1) by lia.
      assert (Eq : _count_in_partition h1 q = 2 * q + 1).
      { destruct (Z.eq_dec q (_final_partition h1)) as [Eqf | Hlt].
        - assert (Et : t = _final_partition h1 + 1) by lia.
          pose proof (final_partition_spec h1) as Spec.
          destruct (Z.eq_dec (count h1) 0) as [Ez | Enz].
          { pose proof (final_partition_zero h1 ltac:(lia)) as Z0.
            rewrite Et, Z0 in St, Ct. lia. }
          destruct (Spec ltac:(lia)) as [_ S].
          rewrite Eqf, count_in_partition_final by lia.
          rewrite Et in St, Ct. lia.
        - destruct (partition_inside h1 q ltac:(lia) ltac:(lia)) as [_ [_ [_ [_ [_ F]]]]].
          apply F. lia. }
      rewrite <- Eq. apply Others; lia.
  - unfold elements. rewrite Hc', Ha'.
    change (firstn (Z.to_nat (count h1 + 1)) m') with (live m' 0 (count h1 + 1)).
    apply Permutation_sym. eapply perm_trans; [ | exact Perm ].
    apply perm_skip.
    change (live (a h1) 0 (count h1)) with (elements h1).
    rewrite He1. apply Permutation_refl.
  - exact Hst1.
Qed.

Lemma well_formed_partition_heaps (h : HeapArray) :
  well_formed h -> len (a h) = storage h -> partition_heaps h.
Proof.
  intros [Hb [Heaps _]] Hl. split; [ lia | ]. split; [ exact Hl | exact Heaps ].
Qed.

(** X24: [insert] on a container whose partitions are min-max heaps (with
    [storage] below 2^30, and not both full and fixed-size): it returns,
    the count goes up by one, the container holds the old elements and the
    new value with their multiplicities, and its partitions are again
    min-max heaps. *)
Theorem insert_keeps_elements (fresh : nat -> Z) (value : Z) (h : HeapArray) :
  partition_heaps h -> storage h < 2 ^ 30 ->
  (count h = storage h -> fixed h = false) ->
  exists h', insert fresh value h = (Ret tt, h') /\
             count h' = count h + 1 /\ fixed h' = fixed h /\
             partition_heaps h' /\
             Permutation (elements h') (value :: elements h).
Proof.
  intros PH Hs Hfix.
  destruct (insert_ok fresh value h PH Hs Hfix) as [h' [E [Hc [Hf [PH' [P _]]]]]].
  exists h'. auto.
Qed.

Lemma insert_keeps_elements_witness :
  exists h', insert (fun _ => 0) 4 (mkHeapArray 9 6 false [1; 2; 3; 5; 8; 9; 0; 0; 0])
             = (Ret tt, h') /\
             count h' = count (mkHeapArray 9 6 false [1; 2; 3; 5; 8; 9; 0; 0; 0]) + 1 /\
             fixed h' = fixed (mkHeapArray 9 6 false [1; 2; 3; 5; 8; 9; 0; 0; 0]) /\
             partition_heaps h' /\
             Permutation (elements h')
               (4 :: elements (mkHeapArray 9 6 false [1; 2; 3; 5; 8; 9; 0; 0; 0])).
Proof.
  apply (insert_keeps_elements (fun _ => 0) 4
           (mkHeapArray 9 6 false [1; 2; 3; 5; 8; 9; 0; 0; 0])).
  - apply well_formed_partition_heaps;
      [ exact built_example_well_formed | reflexivity ].
  - simpl. lia.
  - simpl. intros H. discriminate H.
Defined.

(** ** A run of insertions *)

Lemma partition_heaps_empty : partition_heaps new_empty.
Proof.
  split; [ cbn; lia | ]. split; [ reflexivity | ].
  intros p Hp. apply mm_heap_small.
  change (_final_partition new_empty) with 0 in Hp.
  assert (p = 0) by lia. subst p. vm_compute. discriminate.
Qed.

Lemma insert_all_ok (fresh : nat -> Z) (l : list Z) :
  forall h, partition_heaps h -> fixed h = false ->
            storage h <= 6 * count h + 4 -> count h + len l < 2 ^ 27 ->
            exists h', insert_all fresh l h = (Ret tt, h') /\
                       partition_heaps h' /\ fixed h' = false /\
                       count h' = count h + len l /\
                       Permutation (elements h') (l ++ elements h).
Proof.
  induction l as [| v l IH]; intros h PH Hf Hs Hn.
  - exists h. split; [ reflexivity | ]. split; [ exact PH | ].
    split; [ exact Hf | ]. split; [ cbn; lia | apply Permutation_refl ].
  - pose proof PH as [Hc _].
    assert (Hl : len (v :: l) = len l + 1) by (unfold len; cbn [length]; lia).
    assert (Hl0 : 0 <= len l) by (unfold len; lia).
    destruct (insert_ok fresh v h PH ltac:(lia) ltac:(intros _; exact Hf))
      as [h1 [E1 [Hc1 [Hf1 [PH1 [P1 Hs1]]]]]].
    destruct (IH h1 PH1 ltac:(congruence) ltac:(lia) ltac:(lia))
      as [h' [E' [PH' [Hf' [Hc' P']]]]].
    exists h'. split.
    { cbn [insert_all]. rewrite (run_bind _ _ _ _ _ E1). exact E'. }
    split; [ exact PH' | ]. split; [ exact Hf' | ]. split; [ lia | ].
    eapply perm_trans; [ exact P' | ].
    eapply perm_trans; [ apply Permutation_app_head; exact P1 | ].
    apply Permutation_sym, Permutation_middle.
Qed.

(** X25: a container filled by insertions alone, starting from the empty
    container, holds exactly the values inserted, with their
    multiplicities, and each of its partitions is a min-max heap (for fewer
    than 2^27 insertions). *)
Theorem inserts_keep_all (fresh : nat -> Z) (l : list Z) :
  len l < 2 ^ 27 ->
  exists h', insert_all fresh l new_empty = (Ret tt, h') /\
             count h' = len l /\
             partition_heaps h' /\
             Permutation (elements h') l.
Proof.
  intros Hn.
  destruct (insert_all_ok fresh l new_empty partition_heaps_empty eq_refl)
    as [h' [E [PH [_ [Hc P]]]]]; try (cbn [count storage new_empty]; lia).
  exists h'. split; [ exact E | ]. split; [ exact Hc | ]. split; [ exact PH | ].
  change (elements new_empty) with (@nil Z) in P. rewrite app_nil_r in P. exact P.
Qed.

Lemma inserts_keep_all_witness :
  exists h', insert_all (fun _ => 0) [3; 1; 2; 1; 5] new_empty = (Ret tt, h') /\
             count h' = len [3; 1; 2; 1; 5] /\
             partition_heaps h' /\
             Permutation (elements h') [3; 1; 2; 1; 5].
Proof.
  apply (inserts_keep_all (fun _ => 0) [3; 1; 2; 1; 5]).
  vm_compute. reflexivity.
Defined.
